(** * HorribleSubs episodes scraper: a shallow embedding

    This development models [horriblesubs_batch_downloader/episodes_scraper.py]
    (class [HorribleSubsEpisodesScraper]) and states its episode-set
    resolution properties as theorems.

    Modelling conventions.
    - Python [str] values are Rocq [string]s (one-byte characters); the
      regular-expression class [\d] is the ASCII digits.
    - The two external collaborators are parameters: [get_html] (the HTTP
      client of [BaseScraper], a function from a URL to a body) and
      [release_links] (the BeautifulSoup query
      [find_all(name='div', attrs={'class': 'release-links'})], giving for
      every block the text of its [<i>] tag and the [href] of its magnet
      link, in document order).
    - The scraper object is a record; methods are state-passing functions that
      return the mutated object together with the exception raised, if any,
      because a Python exception does not undo earlier mutations.
    - The threads of [parse_all_in_parallel] are an interleaving machine: one
      coordinator and a list of workers, each step atomic.
    - Printing is not modelled.  Of the [debug] code only the sort of lines
      94-99 can change the outcome of a run, and it is modelled. *)

From Stdlib Require Import ZArith Ascii String List Bool Lia.
From stdpp Require Import base decidable countable gmap strings list
  list_numbers pretty.

Local Open Scope string_scope.
Local Open Scope Z_scope.
Local Open Scope list_scope.

(** ** Regular expressions ([re.match])

    A backtracking matcher with Python's priorities: a sequence is matched
    left to right, a starred class is greedy (longest first, then shorter),
    and the first success is the match.  [re.match] anchors at the start of
    the subject and not at its end.  Only the constructs that the patterns
    of the source use are modelled; groups are not nested there. *)

Module Re.

Inductive re : Type :=
  | Lit (l : string)              (* literal text *)
  | Star (cls : ascii → bool)     (* [X*] for a one-character class [X] *)
  | Cat (r1 r2 : re)              (* concatenation *)
  | Grp (r : re).                 (* capturing group *)

(** [K]: what to do with the matched text, the rest of the subject and the
    groups captured so far. *)
Definition K : Type := string → string → list string → option (list string).

Fixpoint lit (l s : string) : option string :=
  match l, s with
  | EmptyString, _ => Some s
  | String a l', String b s' => if Ascii.eqb a b then lit l' s' else None
  | String _ _, EmptyString => None
  end.

Fixpoint star (cls : ascii → bool) (s : string)
    (k : string → string → option (list string)) : option (list string) :=
  match s with
  | String c s' =>
      if cls c then
        match star cls s' (λ m rest, k (String c m) rest) with
        | Some g => Some g
        | None => k EmptyString s
        end
      else k EmptyString s
  | EmptyString => k EmptyString s
  end.

Fixpoint go (r : re) (s : string) (g : list string) (k : K)
    : option (list string) :=
  match r with
  | Lit l => match lit l s with Some rest => k l rest g | None => None end
  | Star cls => star cls s (λ m rest, k m rest g)
  | Cat r1 r2 =>
      go r1 s g (λ m1 rest1 g1,
        go r2 rest1 g1 (λ m2 rest2 g2, k (m1 +:+ m2) rest2 g2))
  | Grp r1 => go r1 s g (λ m rest g1, k m rest (g1 ++ [m])%list)
  end.

(** [re.match(r, s)]: [None] when there is no match, otherwise the groups
    [group(1)], [group(2)], ... *)
Definition rmatch (r : re) (s : string) : option (list string) :=
  go r s [] (λ _ _ g, Some g).

Fixpoint cat_all (rs : list re) : re :=
  match rs with
  | [] => Lit ""
  | [r] => r
  | r :: rs' => Cat r (cat_all rs')
  end.

(** Character classes. *)
Definition is_digit (c : ascii) : bool :=
  let n := N_of_ascii c in (48 <=? n)%N && (n <=? 57)%N.
Definition is_alpha (c : ascii) : bool :=
  let n := N_of_ascii c in
  ((65 <=? n)%N && (n <=? 90)%N) || ((97 <=? n)%N && (n <=? 122)%N).
(** [.] without [re.DOTALL]: anything but a newline. *)
Definition dot (c : ascii) : bool := negb (N_of_ascii c =? 10)%N.
(** [.] with [re.DOTALL]. *)
Definition dotall (c : ascii) : bool := true.
(** [[.\da-zA-Z]] *)
Definition ep_char (c : ascii) : bool :=
  Ascii.eqb c "."%char || is_digit c || is_alpha c.

End Re.

Import Re.

(** [self.episode_data_regex].  The source pattern reads, piece by piece:
    any characters, then space dash space, then group 1 (the episode numeral,
    a starred class of dots, digits and letters), then a space and an opening
    bracket, then group 2 (the video resolution: starred digits and a p),
    then a closing bracket. *)
Definition episode_data_regex : re :=
  cat_all [Star dot; Lit " - "; Grp (Star ep_char); Lit " [";
       Grp (Cat (Star is_digit) (Lit "p")); Lit "]"].

(** [self.batch_episodes_data_regex].  Piece by piece: any characters, a
    space and an opening parenthesis, group 1 (starred digits: first episode
    of the batch), a dash, group 2 (starred digits: last episode), a closing
    parenthesis, a space and an opening bracket, group 3 (the resolution), a
    closing bracket. *)
Definition batch_episodes_data_regex : re :=
  cat_all [Star dot; Lit " ("; Grp (Star is_digit); Lit "-";
       Grp (Star is_digit); Lit ") ["; Grp (Cat (Star is_digit) (Lit "p"));
       Lit "]"].

(** [show_id_regex], matched with [re.DOTALL]: any characters (newlines
    too), the marker text, then group 1 (starred digits). *)
Definition show_id_marker : string := "var hs_showid = ".
Definition show_id_regex : re :=
  cat_all [Star dotall; Lit show_id_marker; Grp (Star is_digit)].

(** ** Python values *)

(** The values the scraper stores: [None], an [int], a [str], or a list of
    [int]s (a batch range).  Values of different kinds are never equal, as in
    Python ([5 == '5'] is false). *)
Inductive pyval : Type :=
  | PNone
  | PInt (z : Z)
  | PStr (s : string)
  | PList (l : list Z).

#[global] Instance pyval_eq_dec : EqDecision pyval.
Proof. solve_decision. Defined.

#[global] Instance pyval_countable : Countable pyval.
Proof.
  refine (inj_countable'
    (λ v, match v with
          | PNone => inl ()
          | PInt z => inr (inl z)
          | PStr s => inr (inr (inl s))
          | PList l => inr (inr (inr l))
          end)
    (λ x, match x with
          | inl () => PNone
          | inr (inl z) => PInt z
          | inr (inr (inl s)) => PStr s
          | inr (inr (inr l)) => PList l
          end) _).
  intros []; reflexivity.
Defined.

(** Truth value of an object ([not x] is its negation). *)
Definition truthy (v : pyval) : bool :=
  match v with
  | PNone => false
  | PInt z => negb (z =? 0)
  | PStr s => negb (String.eqb s "")
  | PList l => match l with [] => false | _ => true end
  end.

(** [str(x)], as [str.format] inserts it. *)
Definition py_str (v : pyval) : string :=
  match v with
  | PNone => "None"
  | PInt z => pretty z
  | PStr s => s
  | PList l => "[" +:+ String.concat ", " (pretty <$> l) +:+ "]"
  end.

(** The exceptions that the scraper raises or lets escape. *)
Inductive exn : Type :=
  | ValueError
  | AttributeError
  | HorribleSubsException
  | RegexFailedToMatch
  | TypeError
  | IndexError.

#[global] Instance exn_eq_dec : EqDecision exn.
Proof. solve_decision. Defined.

Fixpoint str_forall (p : ascii → bool) (s : string) : bool :=
  match s with
  | EmptyString => true
  | String c s' => p c && str_forall p s'
  end.

Fixpoint str_exists (p : ascii → bool) (s : string) : bool :=
  match s with
  | EmptyString => false
  | String c s' => p c || str_exists p s'
  end.

(** [s.isdigit()] on a [str]: non-empty and all digits. *)
Definition str_isdigit (s : string) : bool :=
  negb (String.eqb s "") && str_forall is_digit s.

(** [x.isdigit()]: only [str] has the method. *)
Definition isdigit (v : pyval) : exn + bool :=
  match v with
  | PStr s => inr (str_isdigit s)
  | _ => inl AttributeError
  end.

(** [isinstance(x, int)] *)
Definition isinstance_int (v : pyval) : bool :=
  match v with PInt _ => true | _ => false end.

(** *** [int(s)] for a [str] in base ten

    Surrounding white space is skipped, one sign is allowed, and the digits
    may be separated by single underscores.  The white space of [int] is the
    ASCII one (tab to carriage return, and the blank) and, of the other
    one-byte characters, the two that are spaces (next line and the
    no-break space). *)
Definition is_space (c : ascii) : bool :=
  let n := N_of_ascii c in
  ((9 <=? n)%N && (n <=? 13)%N) || (n =? 32)%N || (n =? 133)%N
  || (n =? 160)%N.

Fixpoint lstrip (s : string) : string :=
  match s with
  | EmptyString => EmptyString
  | String c s' => if is_space c then lstrip s' else s
  end.

Fixpoint rstrip (s : string) : string :=
  match s with
  | EmptyString => EmptyString
  | String c s' =>
      match rstrip s' with
      | EmptyString => if is_space c then EmptyString else String c EmptyString
      | r => String c r
      end
  end.

Definition digit_val (c : ascii) : Z := Z.of_N (N_of_ascii c) - 48.

Fixpoint int_digits (s : string) (acc : Z) (after_digit : bool) : option Z :=
  match s with
  | EmptyString => if after_digit then Some acc else None
  | String c s' =>
      if is_digit c then int_digits s' (10 * acc + digit_val c) true
      else if Ascii.eqb c "_"%char && after_digit then int_digits s' acc false
      else None
  end.

Definition py_int (s : string) : option Z :=
  match rstrip (lstrip s) with
  | String c b =>
      if Ascii.eqb c "-"%char then Z.opp <$> int_digits b 0 false
      else if Ascii.eqb c "+"%char then int_digits b 0 false
      else int_digits (String c b) 0 false
  | EmptyString => None
  end.

(** [int(s)] as the scraper calls it: a failure is a [ValueError]. *)
Definition int (s : string) : exn + Z :=
  match py_int s with Some z => inr z | None => inl ValueError end.

(** [list(range(a, b))] *)
Definition range (a b : Z) : list Z := seqZ a (b - a).

(** *** [sorted(xs, key=f)]

    [a < b], the only comparison that sorting makes.  Two [int]s, two [str]s
    and two lists of [int]s are ordered; every other pair, [None] with
    [None] included, is a [TypeError]. *)
Fixpoint list_ltb (l1 l2 : list Z) : bool :=
  match l1, l2 with
  | _, [] => false
  | [], _ :: _ => true
  | x :: l1', y :: l2' => (x <? y) || ((x =? y) && list_ltb l1' l2')
  end.

Definition py_lt (a b : pyval) : exn + bool :=
  match a, b with
  | PInt x, PInt y => inr (x <? y)
  | PStr s, PStr t => inr (String.ltb s t)
  | PList l1, PList l2 => inr (list_ltb l1 l2)
  | _, _ => inl TypeError
  end.

(** The keys are computed first, one call of [key] per element, in order;
    the first exception ends the call. *)
Fixpoint sort_keys {A : Type} (key : A → exn + pyval) (xs : list A)
    : exn + list (pyval * A) :=
  match xs with
  | [] => inr []
  | x :: xs' =>
      match key x with
      | inl e => inl e
      | inr k =>
          match sort_keys key xs' with
          | inl e => inl e
          | inr ks => inr ((k, x) :: ks)
          end
      end
  end.

(** Then the pairs are sorted by key, stably, with [<] alone; an exception of
    a comparison ends the call.  The sort is written as an insertion sort:
    which comparisons a sort makes depends on its algorithm, whether one of
    them raises does not (lemma [sort_pairs_outcome] below), and the sorted
    list is only printed. *)
Fixpoint sort_insert {A : Type} (x : pyval * A) (l : list (pyval * A))
    : exn + list (pyval * A) :=
  match l with
  | [] => inr [x]
  | y :: l' =>
      match py_lt y.1 x.1 with
      | inl e => inl e
      | inr true =>
          match sort_insert x l' with
          | inl e => inl e
          | inr r => inr (y :: r)
          end
      | inr false => inr (x :: y :: l')
      end
  end.

Fixpoint sort_pairs {A : Type} (l : list (pyval * A))
    : exn + list (pyval * A) :=
  match l with
  | [] => inr []
  | x :: l' =>
      match sort_pairs l' with
      | inl e => inl e
      | inr r => sort_insert x r
      end
  end.

Definition sorted {A : Type} (xs : list A) (key : A → exn + pyval)
    : exn + list A :=
  match sort_keys key xs with
  | inl e => inl e
  | inr ks =>
      match sort_pairs ks with
      | inl e => inl e
      | inr r => inr (snd <$> r)
      end
  end.

(** ** The scraper object *)

(** One element of [self.episodes]: the dict that [_add_episode] appends. *)
Record episode : Type := Episode {
  episode_number : pyval;       (* a [str], a list of [int]s, or [None] *)
  video_resolution : string;
  magnet_url : string;
}.

#[global] Instance episode_eq_dec : EqDecision episode.
Proof. solve_decision. Defined.

(** One [div] of class [release-links], as the HTML collaborator hands it
    over: the text of its [i] tag and the [href] of its magnet link. *)
Record block : Type := Block {
  i_string : string;
  magnet_href : string;
}.

(** The attributes of a [HorribleSubsEpisodesScraper] ([verbose] is stored
    and never read in this class, and is left out). *)
Record scraper : Type := Scraper {
  show_id : pyval;
  episodes_available : option (gset pyval);   (* [None] or a set *)
  all_episodes_acquired : bool;
  threads : list string;                      (* the threads, by name *)
  episodes : list episode;
  episode_numbers_collected : gset pyval;
  episodes_page_number : nat;
  debug : bool;
}.

Definition set_all_episodes_acquired (b : bool) (st : scraper) : scraper :=
  Scraper (show_id st) (episodes_available st) b (threads st) (episodes st)
          (episode_numbers_collected st) (episodes_page_number st) (debug st).

Definition set_threads (t : list string) (st : scraper) : scraper :=
  Scraper (show_id st) (episodes_available st) (all_episodes_acquired st) t
          (episodes st) (episode_numbers_collected st)
          (episodes_page_number st) (debug st).

Definition set_episodes (e : list episode) (st : scraper) : scraper :=
  Scraper (show_id st) (episodes_available st) (all_episodes_acquired st)
          (threads st) e (episode_numbers_collected st)
          (episodes_page_number st) (debug st).

Definition set_episode_numbers_collected (c : gset pyval) (st : scraper)
    : scraper :=
  Scraper (show_id st) (episodes_available st) (all_episodes_acquired st)
          (threads st) (episodes st) c (episodes_page_number st) (debug st).

Definition set_episodes_page_number (n : nat) (st : scraper) : scraper :=
  Scraper (show_id st) (episodes_available st) (all_episodes_acquired st)
          (threads st) (episodes st) (episode_numbers_collected st) n
          (debug st).

(** [match.group(i)], for [i] from 1. *)
Definition group (i : nat) (g : list string) : string :=
  nth (pred i) g EmptyString.

(** [self.episodes.append(d)] of [_add_episode]. *)
Definition append_episode (episode_number : pyval)
    (episode_range : option (list Z)) (video_resolution magnet_url : string)
    (st : scraper) : scraper :=
  set_episodes
    (episodes st ++
       [Episode (match episode_range with
                 | Some (z :: l) => PList (z :: l)
                 | _ => episode_number
                 end) video_resolution magnet_url]) st.

(** The update of [self.episode_numbers_collected] of [_add_episode]. *)
Definition record_episode_numbers (episode_number : pyval)
    (episode_range : option (list Z)) (st : scraper) : scraper :=
  set_episode_numbers_collected
    (match episode_range with
     | Some (z :: l) =>
         episode_numbers_collected st ∪ list_to_set (PInt <$> z :: l)
     | _ => episode_numbers_collected st ∪ {[episode_number]}
     end) st.

(** [_add_episode]: an empty or absent [episode_range] is false, and then
    [episode_number] (which is [None] by default) is what gets stored. *)
Definition _add_episode (episode_number : pyval)
    (episode_range : option (list Z)) (video_resolution magnet_url : string)
    (st : scraper) : scraper :=
  record_episode_numbers episode_number episode_range
    (append_episode episode_number episode_range video_resolution magnet_url
       st).

(** [self.episode_numbers_collected == self.episodes_available] *)
Definition collected_all (st : scraper) : bool :=
  bool_decide (Some (episode_numbers_collected st) = episodes_available st).

(** [episode_range = list(range(int(first_ep_number), int(last_ep_numb) + 1))] *)
Definition episode_range (first_ep_number last_ep_numb : string)
    : exn + list Z :=
  match int first_ep_number with
  | inl e => inl e
  | inr a =>
      match int last_ep_numb with
      | inl e => inl e
      | inr b => inr (range a (b + 1))
      end
  end.

(** The body of the [for] loop of [parse_episodes], over the blocks still to
    visit.  The object comes back as mutated so far, with the exception that
    stopped the loop, if any. *)
Fixpoint parse_episodes_loop (divs : list block) (st : scraper)
    : scraper * option exn :=
  match divs with
  | [] => (st, None)
  | episode_div :: rest =>
      match rmatch episode_data_regex (i_string episode_div) with
      | None => (st, Some RegexFailedToMatch)
      | Some m =>
          let ep_number := group 1 m in
          let vid_res := group 2 m in
          if bool_decide (PStr ep_number ∈ episode_numbers_collected st)
          then parse_episodes_loop rest st
          else parse_episodes_loop rest
                 (_add_episode (PStr ep_number) None vid_res
                    (magnet_href episode_div) st)
      end
  end.

(** The body of the [for] loop of [parse_batch_episodes]. *)
Fixpoint parse_batch_episodes_loop (divs : list block) (st : scraper)
    : scraper * option exn :=
  match divs with
  | [] => (st, None)
  | episode_div :: rest =>
      match rmatch batch_episodes_data_regex (i_string episode_div) with
      | None => (st, Some RegexFailedToMatch)
      | Some m =>
          let vid_res := group 3 m in
          match episode_range (group 1 m) (group 2 m) with
          | inl e => (st, Some e)
          | inr rng =>
              if existsb (λ d, bool_decide (episode_number d = PList rng))
                   (episodes st)
              then parse_batch_episodes_loop rest st
              else parse_batch_episodes_loop rest
                     (_add_episode PNone (Some rng) vid_res
                        (magnet_href episode_div) st)
          end
      end
  end.

(** [episodes_url_template.format(show_type=..., show_id=...)] *)
Definition episodes_url (show_type : string) (sid : pyval) : string :=
  "https://horriblesubs.info/api.php?method=getshows&type=" +:+ show_type
  +:+ "&showid=" +:+ py_str sid.

(** [episodes_page_url_template.format(...)] *)
Definition episodes_page_url (show_type : string) (sid : pyval)
    (page_number : nat) : string :=
  episodes_url show_type sid +:+ "&nextid=" +:+ pretty page_number +:+ "&_".

Section Scraper.

(** The HTTP collaborator [BaseScraper.get_html]. *)
Variable get_html : string → string.
(** The HTML collaborator: the [release-links] blocks of a body, in document
    order. *)
Variable release_links : string → list block.
(** Whether [RegexFailedToMatch] is a subclass of [HorribleSubsException]
    (both come from the module [exception], which only declares them). *)
Variable regex_failure_is_horriblesubs : bool.

(** What [except HorribleSubsException] catches. *)
Definition caught_as_horriblesubs (e : exn) : bool :=
  match e with
  | HorribleSubsException => true
  | RegexFailedToMatch => regex_failure_is_horriblesubs
  | _ => false
  end.

Definition get_show_id_from_url (show_url : string) : exn + string :=
  let html := get_html show_url in
  match rmatch show_id_regex html with
  | None => inl RegexFailedToMatch
  | Some m => inr (group 1 m)
  end.

Definition parse_episodes (html : string) (st : scraper)
    : scraper * option exn :=
  (* reversed so the highest resolution ep comes first *)
  let all_episodes_divs := rev (release_links html) in
  match parse_episodes_loop all_episodes_divs st with
  | (st', Some e) => (st', Some e)
  | (st', None) =>
      (if collected_all st' then set_all_episodes_acquired true st' else st',
       None)
  end.

Definition parse_batch_episodes (html : string) (st : scraper)
    : scraper * option exn :=
  parse_batch_episodes_loop (rev (release_links html)) st.

Definition get_most_recent_episode_number (url : string) : exn + string :=
  match release_links (get_html url) with
  | [] => inl HorribleSubsException
  | episode_div_tag :: _ =>
      match rmatch episode_data_regex (i_string episode_div_tag) with
      | None => inl RegexFailedToMatch
      | Some m => inr (group 1 m)
      end
  end.

(** [_get_next_page_html]: the body and the updated object. *)
Definition _get_next_page_html (increment_page_number : bool) (st : scraper)
    : string * scraper :=
  let st' := if increment_page_number
             then set_episodes_page_number (S (episodes_page_number st)) st
             else st in
  (get_html (episodes_page_url "show" (show_id st')
               (episodes_page_number st')), st').

(** *** The constructor, up to the call of [parse_all_in_parallel] *)

(** Lines 35-46: which [show_id] the object gets. *)
Definition resolve_show_id (show_id : pyval) (show_url : option string)
    : exn + pyval :=
  let url_given := match show_url with
                   | Some u => negb (String.eqb u "")
                   | None => false
                   end in
  if negb (truthy show_id) && negb url_given then inl ValueError
  else if url_given && negb (truthy show_id) then
    match get_show_id_from_url (default EmptyString show_url) with
    | inl e => inl e
    | inr sid => inr (PStr sid)
    end
  else
    (* [not isinstance(show_id, int) or not show_id.isdigit()]: the second
       operand is evaluated only when the first is false *)
    if negb (isinstance_int show_id) then inl ValueError
    else
      match isdigit show_id with
      | inl e => inl e
      | inr d => if negb d then inl ValueError else inr show_id
      end.

(** Lines 66-76: [self.episodes_available]. *)
Definition resolve_episodes_available (url : string)
    : exn + option (gset pyval) :=
  match get_most_recent_episode_number url with
  | inr last_ep_number =>
      match int last_ep_number with
      | inr n => inr (Some (list_to_set (PInt <$> range 1 (n + 1))))
      | inl e => if caught_as_horriblesubs e then inr None else inl e
      end
  | inl e => if caught_as_horriblesubs e then inr None else inl e
  end.

(** The constructor through the batch phase (lines 32-88).  An exception
    leaves no object behind. *)
Definition init_batch_phase (show_id : pyval) (show_url : option string)
    (debug : bool) : exn + scraper :=
  match resolve_show_id show_id show_url with
  | inl e => inl e
  | inr sid =>
      let url := episodes_url "show" sid in
      match resolve_episodes_available url with
      | inl e => inl e
      | inr available =>
          let st := Scraper sid available false [] [] ∅ 0 debug in
          let batch_episodes_url := episodes_url "batch" sid in
          match parse_batch_episodes (get_html batch_episodes_url) st with
          | (_, Some e) => inl e
          | (st', None) => inr st'
          end
      end
  end.

(** [if self.episodes_available:] *)
Definition pagination_wanted (st : scraper) : bool :=
  match episodes_available st with
  | Some s => negb (bool_decide (s = ∅))
  | None => false
  end.

(** *** The [debug] block at the end of the constructor (lines 93-101)

    The key of the sort: the last number of a range, or the
    [episode_number] itself. *)
Definition debug_sort_key (d : episode) : exn + pyval :=
  match episode_number d with
  | PList l =>
      match last l with
      | Some z => inr (PInt z)
      | None => inl IndexError
      end
  | v => inr v
  end.

(** [sorted] copies [self.episodes] when it is called, computes the keys and
    sorts; what is printed afterwards changes nothing.  The result is the
    exception that escapes, if any. *)
Definition debug_block (st : scraper) : option exn :=
  if debug st then
    match sorted (episodes st) debug_sort_key with
    | inl e => Some e
    | inr _ => None
    end
  else None.

(** *** The pagination phase: [parse_all_in_parallel] and its threads

    A worker is one thread running [parse_episodes] on the page it was given.
    Its steps are the accesses to the shared object: the membership test of a
    block, the append, the update of the collected set, the final comparison
    and the assignment of the flag.  Nothing in the source makes two of them
    one step (there is no lock). *)
Inductive worker : Type :=
  | WLoop (divs : list block)
      (* at the head of the [for] loop, [divs] still to visit *)
  | WAppend (ep_number vid_res magnet_url : string) (divs : list block)
      (* in [_add_episode], before [self.episodes.append] *)
  | WRecord (ep_number : string) (divs : list block)
      (* in [_add_episode], before [self.episode_numbers_collected.add] *)
  | WSignal
      (* the comparison held, before [self.all_episodes_acquired = True] *)
  | WDone
  | WRaised (e : exn).

Definition worker_step (w : worker) (st : scraper)
    : option (worker * scraper) :=
  match w with
  | WLoop [] => Some (if collected_all st then WSignal else WDone, st)
  | WLoop (episode_div :: rest) =>
      match rmatch episode_data_regex (i_string episode_div) with
      | None => Some (WRaised RegexFailedToMatch, st)
      | Some m =>
          if bool_decide (PStr (group 1 m) ∈ episode_numbers_collected st)
          then Some (WLoop rest, st)
          else Some (WAppend (group 1 m) (group 2 m)
                       (magnet_href episode_div) rest, st)
      end
  | WAppend ep_number vid_res magnet rest =>
      Some (WRecord ep_number rest,
            append_episode (PStr ep_number) None vid_res magnet st)
  | WRecord ep_number rest =>
      Some (WLoop rest, record_episode_numbers (PStr ep_number) None st)
  | WSignal => Some (WDone, set_all_episodes_acquired true st)
  | WDone => None
  | WRaised _ => None
  end.

Definition worker_finished (w : worker) : bool :=
  match w with WDone | WRaised _ => true | _ => false end.

(** The coordinating thread, which runs the constructor: in the [while] loop
    of [parse_all_in_parallel] holding [next_page_html]; back in the
    constructor at line 93, [parse_all_in_parallel] having returned or not
    having been called; and at its end, returned or with the exception that
    escaped. *)
Inductive coordinator : Type :=
  | CLoop (next_page_html : string)
  | CReturned
  | CDone
  | CRaised (e : exn).

Record machine : Type := Machine {
  self : scraper;
  coord : coordinator;
  workers : list worker;
}.

(** One turn of the [while] loop: the test, and when it holds the start of a
    thread on the page at hand and the fetch of the next page.  After the
    loop, the [debug] block on the collection as it stands at that moment,
    which ends the constructor. *)
Definition coordinator_step (m : machine) : option machine :=
  match coord m with
  | CReturned =>
      Some (Machine (self m)
              (match debug_block (self m) with
               | Some e => CRaised e
               | None => CDone
               end) (workers m))
  | CDone | CRaised _ => None
  | CLoop next_page_html =>
      if negb (String.eqb next_page_html "DONE")
         && negb (all_episodes_acquired (self m))
      then
        let name := "ep_parse_" +:+ pretty (episodes_page_number (self m)) in
        let st1 := set_threads (threads (self m) ++ [name]) (self m) in
        let '(html, st2) := _get_next_page_html true st1 in
        Some (Machine st2 (CLoop html)
                (workers m ++ [WLoop (rev (release_links next_page_html))]))
      else Some (Machine (self m) CReturned (workers m))
  end.

Definition worker_turn (i : nat) (m : machine) : option machine :=
  match workers m !! i with
  | None => None
  | Some w =>
      match worker_step w (self m) with
      | None => None
      | Some (w', st') => Some (Machine st' (coord m) (<[i := w']> (workers m)))
      end
  end.

(** Who moves next: the scheduler's choice. *)
Inductive turn : Type :=
  | Coordinator
  | Worker (i : nat).

Definition run_turn (t : turn) (m : machine) : option machine :=
  match t with
  | Coordinator => coordinator_step m
  | Worker i => worker_turn i m
  end.

Definition step (m m' : machine) : Prop := ∃ t, run_turn t m = Some m'.

(** A schedule, followed as long as its turns are enabled. *)
Fixpoint run (ts : list turn) (m : machine) : option machine :=
  match ts with
  | [] => Some m
  | t :: ts' =>
      match run_turn t m with
      | Some m' => run ts' m'
      | None => None
      end
  end.

Definition parse_all_in_parallel (st : scraper) : machine :=
  let '(next_page_html, st') := _get_next_page_html false st in
  Machine st' (CLoop next_page_html) [].

(** The constructor: the batch phase, then the pagination phase when
    [self.episodes_available] is true.  What is left of it after that, the
    [debug] block, is the step of the coordinator from [CReturned]. *)
Definition __init__ (show_id : pyval) (show_url : option string)
    (debug : bool) : exn + machine :=
  match init_batch_phase show_id show_url debug with
  | inl e => inl e
  | inr st =>
      inr (if pagination_wanted st then parse_all_in_parallel st
           else Machine st CReturned [])
  end.

End Scraper.

(** ** The downloader ([download])

    [download] walks [self.episodes] and hands every magnet link to the
    operating system: [os.startfile] on Windows, otherwise [subprocess.call]
    with the opener of the platform.  The operating system is a parameter:
    [raises i] tells whether the call made for the entry at position [i]
    raises.  The collection is walked as it stands when [download] is
    called: no thread is taken to append to it during the walk. *)
Inductive os_call : Type :=
  | StartFile (uri : string)               (* [os.startfile(uri)] *)
  | SubprocessCall (argv : list string).   (* [subprocess.call(argv)] *)

Section Download.

(** [sys.platform] *)
Variable platform : string.
Variable raises : nat → bool.

(** The body of the loop of [download] for one entry. *)
Definition open_magnet (e : episode) : os_call :=
  if String.eqb platform "win32" || String.eqb platform "cygwin"
  then StartFile (magnet_url e)
  else
    let opener := if String.eqb platform "darwin" then "open"
                  else "xdg-open" in
    SubprocessCall [opener; magnet_url e].

(** The loop from position [i] on: the calls made, and whether the loop got
    to its end. *)
Fixpoint download_from (i : nat) (es : list episode) : list os_call * bool :=
  match es with
  | [] => ([], true)
  | e :: es' =>
      if raises i then ([open_magnet e], false)
      else let '(calls, ended) := download_from (S i) es' in
           (open_magnet e :: calls, ended)
  end.

Definition download (st : scraper) : list os_call * bool :=
  download_from 0 (episodes st).

End Download.

(** * Statements

    The definitions that the theorems below are stated with: the claims of
    the specification as propositions, the invariants of the code, runs of
    the machine, and the small websites of the examples. *)

(** ** Auxiliary notions *)

(** The characters [int] can accept at all. *)
Definition int_char (c : ascii) : bool :=
  is_space c || is_digit c || Ascii.eqb c "_"%char || Ascii.eqb c "+"%char
  || Ascii.eqb c "-"%char.

(** Whether a text begins with a character of the class [p]. *)
Definition starts_with (p : ascii → bool) (s : string) : bool :=
  match s with String c _ => p c | EmptyString => false end.

(** The longest run of digits at the head of a text. *)
Fixpoint digits_prefix (s : string) : string :=
  match s with
  | String c s' => if is_digit c then String c (digits_prefix s') else ""
  | EmptyString => ""
  end.

(** An object right after the constructor has set its attributes and before
    the batch phase, with [debug] off. *)
Definition fresh (sid : pyval) (available : option (gset pyval)) : scraper :=
  Scraper sid available false [] [] ∅ 0 false.

(** The numbers that an entry put into [episode_numbers_collected]. *)
Definition entry_numbers (e : episode) : list pyval :=
  match episode_number e with
  | PList l => PInt <$> l
  | v => [v]
  end.

(** The numerals of the single-episode entries, in the order of the
    collection. *)
Definition single_numerals (es : list episode) : list string :=
  omap (λ e, match episode_number e with PStr s => Some s | _ => None end) es.

(** The ranges that entries are stored under, in the order of the
    collection (an entry made of an empty range is stored under [None] and
    is not among them). *)
Definition batch_ranges (es : list episode) : list (list Z) :=
  omap (λ e, match episode_number e with PList l => Some l | _ => None end) es.

(** The dedup test of [parse_batch_episodes]: some entry is stored under
    exactly this range. *)
Definition has_range (rng : list Z) (es : list episode) : bool :=
  existsb (λ d, bool_decide (episode_number d = PList rng)) es.

(** A batch block that parses: the pattern matches and both numerals are
    there. *)
Definition batch_block_ok (d : block) : Prop :=
  ∃ m, rmatch batch_episodes_data_regex (i_string d) = Some m ∧
       group 1 m ≠ EmptyString ∧ group 2 m ≠ EmptyString.

(** A set that holds [int]s only, as the constructor builds
    [episodes_available]. *)
Definition only_ints (A : gset pyval) : Prop := ∀ v, v ∈ A → ∃ z, v = PInt z.

(** An entry for a single episode: its [episode_number] is a [str]. *)
Definition is_single (e : episode) : Prop := ∃ s, episode_number e = PStr s.

(** A batch block that parses to a range that is not empty. *)
Definition batch_block_ranged (d : block) : Prop :=
  ∃ m rng, rmatch batch_episodes_data_regex (i_string d) = Some m ∧
           episode_range (group 1 m) (group 2 m) = inr rng ∧ rng ≠ [].

(** The numerals of the blocks whose label the single-episode pattern
    matches, in the order of the blocks. *)
Definition block_numerals (divs : list block) : list string :=
  omap (λ d, group 1 <$> rmatch episode_data_regex (i_string d)) divs.

(** The range of a block whose label the batch pattern matches. *)
Definition block_range (d : block) : option (list Z) :=
  match rmatch batch_episodes_data_regex (i_string d) with
  | Some m =>
      match episode_range (group 1 m) (group 2 m) with
      | inr rng => Some rng
      | inl _ => None
      end
  | None => None
  end.

Definition block_ranges (divs : list block) : list (list Z) :=
  omap block_range divs.

(** The entry that [_add_episode] makes of a range: an empty range is false
    and the entry goes under [None]. *)
Definition batch_entry (rng : list Z) (video_resolution magnet_url : string)
    : episode :=
  Episode (match rng with [] => PNone | _ => PList rng end)
    video_resolution magnet_url.

(** A batch block that parses to an empty range: its last episode is below
    its first. *)
Definition batch_block_empty (d : block) : Prop :=
  ∃ m, rmatch batch_episodes_data_regex (i_string d) = Some m ∧
       episode_range (group 1 m) (group 2 m) = inr [].

(** The kinds of value that [<] orders among themselves; [None] is ordered
    with nothing. *)
Inductive kind : Type := KInt | KStr | KList.

#[global] Instance kind_eq_dec : EqDecision kind.
Proof. solve_decision. Defined.

Definition kind_of (v : pyval) : option kind :=
  match v with
  | PNone => None
  | PInt _ => Some KInt
  | PStr _ => Some KStr
  | PList _ => Some KList
  end.

(** The kind of the sort key of an entry: a range is sorted by its last
    number. *)
Definition debug_key_kind (d : episode) : option kind :=
  match episode_number d with
  | PList _ => Some KInt
  | v => kind_of v
  end.

(** What [sorted] can sort: at most one element, or keys that are all of one
    kind. *)
Definition one_kind {A : Type} (f : A → option kind) (l : list A) : Prop :=
  (length l ≤ 1)%nat ∨ ∃ k, Forall (λ x, f x = Some k) l.

(** [name="ep_parse_" + str(self.episodes_page_number)] *)
Definition thread_name (i : nat) : string := "ep_parse_" +:+ pretty i.

(** The blocks a worker has still to visit, while it is in its loop. *)
Definition worker_divs (w : worker) : option (list block) :=
  match w with
  | WLoop divs | WAppend _ _ _ divs | WRecord _ divs => Some divs
  | _ => None
  end.

(** The workers as the coordinator starts them, for the [n] pages from page
    [p] on. *)
Definition started_workers (get_html : string → string)
    (release_links : string → list block) (sid : pyval) (p n : nat)
    : list worker :=
  (λ i, WLoop (rev (release_links
                      (get_html (episodes_page_url "show" sid i)))))
  <$> seq p n.

(** The pages parsed one after the other by [parse_episodes], exceptions
    left where they fall (a thread that raises ends, the others go on). *)
Fixpoint parse_pages (release_links : string → list block)
    (htmls : list string) (st : scraper) : scraper :=
  match htmls with
  | [] => st
  | html :: htmls' =>
      parse_pages release_links htmls'
        (parse_episodes release_links html st).1
  end.

(** Two objects with the same collection, collected set, flag and
    [episodes_available]. *)
Definition same_data (st1 st2 : scraper) : Prop :=
  episodes st1 = episodes st2 ∧
  episode_numbers_collected st1 = episode_numbers_collected st2 ∧
  all_episodes_acquired st1 = all_episodes_acquired st2 ∧
  episodes_available st1 = episodes_available st2.

(** The body of page [i] of the single-episode listing of a show. *)
Definition page_body (get_html : string → string) (sid : pyval) (i : nat)
    : string :=
  get_html (episodes_page_url "show" sid i).

(** ** Invariants and runs *)

(** The bookkeeping of [parse_all_in_parallel]: as many threads as the cursor
    says, named after their pages; the page in hand is the page at the
    cursor; the thread at position [i] works on page [i]. *)
Definition cursor_invariant (get_html : string → string)
    (release_links : string → list block) (m : machine) : Prop :=
  let n := episodes_page_number (self m) in
  let page i := get_html (episodes_page_url "show" (show_id (self m)) i) in
  length (workers m) = n ∧
  threads (self m) = thread_name <$> seq 0 n ∧
  (∀ html, coord m = CLoop html → html = page n) ∧
  (∀ i w divs, workers m !! i = Some w → worker_divs w = Some divs →
     divs `suffix_of` rev (release_links (page i))).

(** Appending comes before recording: a numeral is in the collected set only
    if its entry is in the collection, and an entry whose numeral is not yet
    in the set belongs to a thread that is about to record it. *)
Definition recorded_after_appended (m : machine) : Prop :=
  (∀ s, PStr s ∈ episode_numbers_collected (self m) →
        s ∈ single_numerals (episodes (self m))) ∧
  (∀ s, s ∈ single_numerals (episodes (self m)) →
        PStr s ∈ episode_numbers_collected (self m) ∨
        ∃ i divs, workers m !! i = Some (WRecord s divs)) ∧
  (∀ i s divs, workers m !! i = Some (WRecord s divs) →
        s ∈ single_numerals (episodes (self m))).

(** What the two dedup tests maintain: no two single-episode entries with
    the same numeral, no two entries stored under the same range, no entry
    stored under an empty range (it goes under [None]), and the numerals of
    the single-episode entries are the [str]s of the collected set. *)
Record dedup_invariant (st : scraper) : Prop := DedupInvariant {
  singles_distinct : NoDup (single_numerals (episodes st));
  ranges_distinct : NoDup (batch_ranges (episodes st));
  ranges_nonempty : [] ∉ batch_ranges (episodes st);
  singles_collected : ∀ s,
    s ∈ single_numerals (episodes st) ↔
    PStr s ∈ episode_numbers_collected st;
}.




(** One step of a worker, as a relation on worker and object. *)
Definition wstep (c c' : worker * scraper) : Prop :=
  worker_step c.1 c.2 = Some c'.

(** How a thread ends: normally, or with the exception that killed it. *)
Definition outcome (o : option exn) : worker :=
  match o with None => WDone | Some e => WRaised e end.

(** ** Websites for the examples *)

(** A finite table stands for the website: keys that are missing get the
    default. *)
Fixpoint table {A : Type} (default : A) (rows : list (string * A))
    (key : string) : A :=
  match rows with
  | [] => default
  | (k, v) :: rows' => if String.eqb key k then v else table default rows' key
  end.

(** A show whose most recent release is a special edition, numbered 13.5. *)
Definition special_edition_web : string → string :=
  table "DONE"
    [("http://horriblesubs.info/shows/psycho-pass", "var hs_showid = 42;");
     (episodes_url "show" (PStr "42"), "recent")].

Definition special_edition_soup : string → list block :=
  table [] [("recent", [Block "Psycho-Pass - 13.5 [1080p]" "magnet:?xt=a"])].

(** Two releases of episode 05. *)
Definition low_res : block := Block "Show - 05 [480p]" "magnet:?xt=low".
Definition high_res : block := Block "Show - 05 [1080p]" "magnet:?xt=high".

(** A show page on which the marker occurs twice. *)
Definition two_markers : string :=
  "var hs_showid = 1; var hs_showid = 2;".

(** A show whose batch page lists two ranges that overlap. *)
Definition overlap_web : string → string :=
  table "DONE"
    [("http://horriblesubs.info/shows/x", "var hs_showid = 7;");
     (episodes_url "show" (PStr "7"), "recent");
     (episodes_url "batch" (PStr "7"), "batch")].

Definition overlap_soup : string → list block :=
  table []
    [("recent", [Block "Show - 03 [1080p]" "magnet:?xt=e3"]);
     ("batch", [Block "Show (1-2) [1080p]" "magnet:?xt=b12";
                Block "Show (1-3) [1080p]" "magnet:?xt=b13"])].

(** A page whose first block (the last one visited) is not an episode
    label. *)
Definition torn_page : list block :=
  [Block "Show Batch notice" "magnet:?xt=x";
   Block "Show - 02 [1080p]" "magnet:?xt=e2";
   Block "Show - 03 [1080p]" "magnet:?xt=e3"].

(** A show with one batch release and no single episode. *)
Definition batch_only_web : string → string :=
  table "DONE"
    [("http://horriblesubs.info/shows/x", "var hs_showid = 55;");
     (episodes_url "batch" (PStr "55"), "batch")].

Definition batch_only_soup : string → list block :=
  table [] [("batch", [Block "Show (1-13) [1080p]" "magnet:?xt=b113"])].

(** A show with no single episode, whose batch page has a label with the
    last episode below the first. *)
Definition backwards_web : string → string :=
  table "DONE"
    [("http://horriblesubs.info/shows/x", "var hs_showid = 56;");
     (episodes_url "batch" (PStr "56"), "batch")].

Definition backwards_soup : string → list block :=
  table []
    [("batch", [Block "Show (5-3) [1080p]" "magnet:?xt=b53";
                Block "Show (1-2) [1080p]" "magnet:?xt=b12"])].

(** A show whose batch already covers the three episodes there are, and whose
    first page carries no release block. *)
Definition covered_web : string → string :=
  table "DONE"
    [("http://horriblesubs.info/shows/x", "var hs_showid = 9;");
     (episodes_url "show" (PStr "9"), "recent");
     (episodes_url "batch" (PStr "9"), "batch");
     (episodes_page_url "show" (PStr "9") 0, "empty");
     (episodes_page_url "show" (PStr "9") 1, "more")].

Definition covered_soup : string → list block :=
  table []
    [("recent", [Block "Show - 03 [1080p]" "magnet:?xt=e3"]);
     ("batch", [Block "Show (1-3) [1080p]" "magnet:?xt=b13"]);
     ("more", [Block "Show - 03 [1080p]" "magnet:?xt=e3"])].

(** The machine that the constructor starts on that show. *)
Definition covered_start : machine :=
  match __init__ covered_web covered_soup true PNone
          (Some "http://horriblesubs.info/shows/x") false with
  | inr m => m
  | inl _ => Machine (fresh PNone None) CReturned []
  end.

(** The same show, constructed with [debug] on. *)
Definition covered_start_debug : machine :=
  match __init__ covered_web covered_soup true PNone
          (Some "http://horriblesubs.info/shows/x") true with
  | inr m => m
  | inl _ => Machine (fresh PNone None) CReturned []
  end.

(** The machine after a schedule on that show. *)
Definition after (ts : list turn) (m : machine) : machine :=
  default m (run covered_web covered_soup ts m).

(** A show with one episode, on the first page. *)
Definition one_episode_web : string → string :=
  table "DONE"
    [("http://horriblesubs.info/shows/x", "var hs_showid = 3;");
     (episodes_url "show" (PStr "3"), "listing");
     (episodes_page_url "show" (PStr "3") 0, "listing")].

Definition one_episode_soup : string → list block :=
  table [] [("listing", [Block "Show - 01 [1080p]" "magnet:?xt=e1"])].

(** A show whose only episode is listed on two pages. *)
Definition twice_web : string → string :=
  table "DONE"
    [("http://horriblesubs.info/shows/x", "var hs_showid = 4;");
     (episodes_url "show" (PStr "4"), "listing");
     (episodes_page_url "show" (PStr "4") 0, "listing");
     (episodes_page_url "show" (PStr "4") 1, "listing")].

Definition twice_soup : string → list block :=
  table [] [("listing", [Block "Show - 01 [1080p]" "magnet:?xt=e1"])].

(** A collection of three single episodes. *)
Definition three_entries : scraper :=
  Scraper (PStr "7") None false []
    [Episode (PStr "01") "1080p" "magnet:?xt=e1";
     Episode (PStr "02") "1080p" "magnet:?xt=e2";
     Episode (PStr "03") "1080p" "magnet:?xt=e3"] ∅ 0 false.

(** ** The claims that fail, as the specification words them *)

(** No number is claimed by two entries of the collection (nor twice by
    one). *)
Definition numbers_claimed_once (st : scraper) : Prop :=
  NoDup (concat (entry_numbers <$> episodes st)).

(** Show-id discovery in the specification's words: search the text for the
    marker followed by one or more digits, the first match wins. *)
Fixpoint first_show_id_spec (s : string) : option string :=
  let here :=
    match lit show_id_marker s with
    | Some r => match digits_prefix r with "" => None | d => Some d end
    | None => None
    end in
  match here, s with
  | Some d, _ => Some d
  | None, String _ s' => first_show_id_spec s'
  | None, EmptyString => None
  end.

(** On a page [html], the code returns what the first match of the
    specification's pattern gives, and fails when there is none. *)
Definition first_match_wins (html : string) : Prop :=
  get_show_id_from_url (λ _, html) "http://horriblesubs.info/shows/x"
  = match first_show_id_spec html with
    | Some d => inr d
    | None => inl RegexFailedToMatch
    end.

(** Whichever way round the two releases of episode 05 stand in the
    document, the high-resolution one is what the page parse keeps. *)
Definition high_res_retained (document : list block) : Prop :=
  episodes (parse_episodes (λ _, document) "page"
              (fresh (PStr "1") (Some {[PInt 5]}))).1
  = [Episode (PStr "05") "1080p" "magnet:?xt=high"].

(** A label that matches the batch pattern gives [first ≤ last] and the
    inclusive run from [first] to [last], of length [last - first + 1]. *)
Definition batch_range_inclusive (label : string) : Prop :=
  ∀ m, rmatch batch_episodes_data_regex label = Some m →
    ∃ first last rng,
      int (group 1 m) = inr first ∧ int (group 2 m) = inr last ∧
      episode_range (group 1 m) (group 2 m) = inr rng ∧
      first ≤ last ∧ Z.of_nat (length rng) = last - first + 1.

(** * Properties *)

(** ** Samples *)

Example episode_regex_sample :
  rmatch episode_data_regex "Naruto Shippuuden - 495 [1080p]"
  = Some ["495"; "1080p"].
Proof. reflexivity. Qed.

Example batch_regex_sample :
  rmatch batch_episodes_data_regex "Naruto Shippuuden (80-426) [1080p]"
  = Some ["80"; "426"; "1080p"].
Proof. reflexivity. Qed.

Example episode_regex_rejects_batch :
  rmatch episode_data_regex "Naruto Shippuuden (80-426) [1080p]" = None.
Proof. reflexivity. Qed.

Example episode_regex_last_dash :
  rmatch episode_data_regex "Re - Zero - 07 [720p] trailing"
  = Some ["07"; "720p"].
Proof. reflexivity. Qed.

Example py_int_samples :
  py_int "13" = Some 13 ∧ py_int " -1_000 " = Some (-1000) ∧
  py_int "13.5" = None ∧ py_int "" = None ∧ py_int "1__0" = None ∧
  py_int "12v2" = None ∧ py_int "007" = Some 7.
Proof. repeat split; reflexivity. Qed.

Example range_samples : range 1 4 = [1; 2; 3] ∧ range 5 4 = [].
Proof. split; reflexivity. Qed.

(** ** The matcher *)

Lemma append_nil s : "" +:+ s = s.
Proof. reflexivity. Qed.

Lemma append_cons c m s : String c m +:+ s = String c (m +:+ s).
Proof. reflexivity. Qed.

Ltac norm_append :=
  repeat (rewrite append_nil in * || rewrite append_cons in * ).

Section ReFacts.

(** The class under the star. *)
Variable cls : ascii → bool.

Lemma lit_Some l s rest : lit l s = Some rest ↔ s = l +:+ rest.
Proof.
  revert s. induction l as [|a l IH]; intros s; norm_append; simpl.
  - split; congruence.
  - destruct s as [|b s].
    + split; discriminate.
    + destruct (Ascii.eqb_spec a b) as [->|Hne].
      * rewrite IH. split; congruence.
      * split; [discriminate | congruence].
Qed.

Lemma lit_None l s : lit l s = None ↔ ∀ rest, s ≠ l +:+ rest.
Proof.
  split.
  - intros H rest Hs. apply lit_Some in Hs. congruence.
  - intros H. destruct (lit l s) as [rest|] eqn:E; [|done].
    apply lit_Some in E. by destruct (H rest).
Qed.

(** A failed star has tried every split. *)
Lemma star_None s k :
  star cls s k = None →
  ∀ m rest, s = m +:+ rest → str_forall cls m = true → k m rest = None.
Proof.
  revert k. induction s as [|c s IH]; intros k H m rest Hs Hm.
  - destruct m; norm_append; [|discriminate]. by subst.
  - simpl in H. destruct m as [|c' m]; norm_append.
    + subst rest. destruct (cls c); [|done].
      by destruct (star cls s _).
    + injection Hs as <- ->. simpl in Hm.
      apply andb_prop in Hm as [Hc Hm]. rewrite Hc in H.
      destruct (star cls (m +:+ rest) _) eqn:E; [done|].
      by apply (IH _ E m rest).
Qed.

(** A successful star stopped at the longest split that lets the rest of the
    pattern match. *)
Lemma star_Some s k g :
  star cls s k = Some g →
  ∃ m rest, s = m +:+ rest ∧ str_forall cls m = true ∧ k m rest = Some g ∧
    ∀ m' rest', s = m' +:+ rest' → str_forall cls m' = true →
      (String.length m < String.length m')%nat → k m' rest' = None.
Proof.
  revert k. induction s as [|c s IH]; intros k H.
  - exists EmptyString, EmptyString. repeat split; [done|].
    intros m' rest' Hs _ Hlen. destruct m'; simpl in *; [lia|done].
  - simpl in H. destruct (cls c) eqn:Hc.
    + destruct (star cls s _) as [g'|] eqn:E.
      * injection H as ->. apply IH in E as (m & rest & -> & Hm & Hk & Hmax).
        exists (String c m), rest. repeat split; [by simpl; rewrite Hc|done|].
        intros m' rest' Hs Hm' Hlen.
        destruct m' as [|c' m']; norm_append; simpl in *; [lia|].
        injection Hs as <- Hs. apply andb_prop in Hm' as [_ Hm'].
        apply (Hmax m' rest' Hs Hm'). lia.
      * exists EmptyString, (String c s). repeat split; [done|].
        intros m' rest' Hs Hm' Hlen.
        destruct m' as [|c' m']; norm_append; simpl in *; [lia|].
        injection Hs as <- Hs. apply andb_prop in Hm' as [_ Hm'].
        by apply (star_None _ _ E m' rest').
    + exists EmptyString, (String c s). repeat split; [done|].
      intros m' rest' Hs Hm' Hlen.
      destruct m' as [|c' m']; norm_append; simpl in *; [lia|].
      injection Hs as <- Hs. by rewrite Hc in Hm'.
Qed.

(** A star succeeds as soon as one split does. *)
Lemma star_is_Some s k m rest :
  s = m +:+ rest → str_forall cls m = true → is_Some (k m rest) →
  is_Some (star cls s k).
Proof.
  intros Hs Hm [g Hk]. destruct (star cls s k) eqn:E; [by eexists|].
  rewrite (star_None _ _ E m rest Hs Hm) in Hk. discriminate.
Qed.

End ReFacts.

Lemma episode_regex_groups label m :
  rmatch episode_data_regex label = Some m →
  ∃ n d, m = [n; d +:+ "p"] ∧ str_forall ep_char n = true ∧
         str_forall is_digit d = true.
Proof.
  unfold rmatch, episode_data_regex. cbn [cat_all go]. intros H.
  apply star_Some in H as (_ & r0 & _ & _ & H & _).
  destruct (lit " - " r0) as [r1|]; [|done].
  apply star_Some in H as (n & r2 & _ & Hn & H & _).
  destruct (lit " [" r2) as [r3|]; [|done].
  apply star_Some in H as (d & r4 & _ & Hd & H & _).
  destruct (lit "p" r4) as [r5|]; [|done].
  destruct (lit "]" r5) as [r6|]; [|done].
  injection H as <-. by exists n, d.
Qed.

Lemma batch_regex_groups label m :
  rmatch batch_episodes_data_regex label = Some m →
  ∃ f l d, m = [f; l; d +:+ "p"] ∧ str_forall is_digit f = true ∧
           str_forall is_digit l = true ∧ str_forall is_digit d = true.
Proof.
  unfold rmatch, batch_episodes_data_regex. cbn [cat_all go]. intros H.
  apply star_Some in H as (_ & r0 & _ & _ & H & _).
  destruct (lit " (" r0) as [r1|]; [|done].
  apply star_Some in H as (f & r2 & _ & Hf & H & _).
  destruct (lit "-" r2) as [r3|]; [|done].
  apply star_Some in H as (l & r4 & _ & Hl & H & _).
  destruct (lit ") [" r4) as [r5|]; [|done].
  apply star_Some in H as (d & r6 & _ & Hd & H & _).
  destruct (lit "p" r6) as [r7|]; [|done].
  destruct (lit "]" r7) as [r8|]; [|done].
  injection H as <-. by exists f, l, d.
Qed.

(** ** [int] on the numerals the patterns capture *)

Lemma digit_char_facts c :
  is_digit c = true →
  is_space c = false ∧ Ascii.eqb c "-"%char = false ∧
  Ascii.eqb c "+"%char = false ∧ 0 ≤ digit_val c ≤ 9.
Proof.
  destruct c as [[] [] [] [] [] [] [] []]; vm_compute;
    intuition discriminate.
Qed.

Lemma ep_char_not_digit c :
  ep_char c = true → is_digit c = false → int_char c = false.
Proof. destruct c as [[] [] [] [] [] [] [] []]; vm_compute; intuition. Qed.

Lemma str_forall_false p s :
  str_forall p s = false → ∃ c, str_exists (Ascii.eqb c) s = true ∧ p c = false.
Proof.
  induction s as [|c s IH]; simpl; [done|].
  destruct (p c) eqn:Hc; simpl.
  - intros (c' & Hin & Hp)%IH. exists c'. by rewrite Hin, orb_true_r.
  - intros _. exists c. by rewrite Ascii.eqb_refl.
Qed.

Lemma str_forall_elem p s c :
  str_forall p s = true → str_exists (Ascii.eqb c) s = true → p c = true.
Proof.
  induction s as [|c' s IH]; simpl; [done|].
  intros [Hc Hs]%andb_prop [Heq|Hin]%orb_prop; [|by apply IH].
  by apply Ascii.eqb_eq in Heq as ->.
Qed.

Lemma str_forall_impl (p q : ascii → bool) s :
  (∀ c, p c = true → q c = true) →
  str_forall p s = true → str_forall q s = true.
Proof.
  intros Hpq. induction s as [|c s IH]; simpl; [done|].
  intros [Hc Hs]%andb_prop. by rewrite (Hpq _ Hc), IH.
Qed.

Lemma lstrip_forall p s :
  (∀ c, is_space c = true → p c = true) →
  str_forall p (lstrip s) = true → str_forall p s = true.
Proof.
  intros Hsp. induction s as [|c s IH]; simpl; [done|].
  destruct (is_space c) eqn:Hc; simpl; [|done].
  intros H. by rewrite (Hsp _ Hc), IH.
Qed.

Lemma rstrip_forall p s :
  (∀ c, is_space c = true → p c = true) →
  str_forall p (rstrip s) = true → str_forall p s = true.
Proof.
  intros Hsp. induction s as [|c s IH]; simpl; [done|].
  destruct (rstrip s) as [|c' r] eqn:Hr.
  - destruct (is_space c) eqn:Hc; simpl.
    + intros _. by rewrite (Hsp _ Hc), IH.
    + rewrite andb_true_r. intros ->. by rewrite IH.
  - simpl. intros [Hc H]%andb_prop. rewrite Hc. simpl. by apply IH.
Qed.

Lemma int_digits_chars s acc b z :
  int_digits s acc b = Some z → str_forall int_char s = true.
Proof.
  revert acc b. induction s as [|c s IH]; intros acc b; simpl; [done|].
  unfold int_char at 1. destruct (is_digit c).
  - rewrite orb_true_r. simpl. apply IH.
  - destruct (Ascii.eqb c "_"); simpl; [|done].
    destruct b; simpl; [|done]. rewrite orb_true_r. simpl. apply IH.
Qed.

(** [int] fails on any text holding a character outside its alphabet. *)
Lemma py_int_chars s z : py_int s = Some z → str_forall int_char s = true.
Proof.
  unfold py_int. intros H.
  assert (Hsp : ∀ c, is_space c = true → int_char c = true).
  { intros c Hc. unfold int_char. by rewrite Hc. }
  apply lstrip_forall, rstrip_forall; try done.
  destruct (rstrip (lstrip s)) as [|c b]; [done|]. simpl.
  destruct (Ascii.eqb c "-") eqn:Hm.
  - unfold int_char at 1. rewrite Hm, orb_true_r. simpl.
    destruct (int_digits b 0 false) eqn:E; [|done].
    by eapply int_digits_chars.
  - destruct (Ascii.eqb c "+") eqn:Hp.
    + unfold int_char at 1. rewrite Hp, !orb_true_r. simpl.
      by eapply int_digits_chars.
    + by apply int_digits_chars in H.
Qed.

Lemma int_digits_is_Some s acc b :
  str_forall is_digit s = true → s ≠ EmptyString ∨ b = true →
  ∃ z, int_digits s acc b = Some z ∧ (0 ≤ acc → 0 ≤ z).
Proof.
  revert acc b. induction s as [|c s IH]; intros acc b Hs Hb; simpl in *.
  - destruct Hb as [Hb|Hb]; [done|]. subst b. by exists acc.
  - apply andb_prop in Hs as [Hc Hs]. rewrite Hc.
    destruct (IH (10 * acc + digit_val c) true Hs) as (z & Hz & Hpos);
      [by right|].
    exists z. split; [done|]. intros Hacc. apply Hpos.
    pose proof (digit_char_facts c Hc). lia.
Qed.

Lemma rstrip_no_space s :
  str_forall (λ c, negb (is_space c)) s = true → rstrip s = s.
Proof.
  induction s as [|c s IH]; simpl; [done|].
  intros [Hc Hs]%andb_prop. rewrite (IH Hs).
  destruct s; [|done]. by destruct (is_space c).
Qed.

(** [int] succeeds on a non-empty run of digits, with a natural number. *)
Lemma py_int_digits s :
  str_forall is_digit s = true → s ≠ EmptyString →
  ∃ z, py_int s = Some z ∧ 0 ≤ z.
Proof.
  intros Hs Hne. unfold py_int.
  destruct s as [|c s]; [done|]. pose proof Hs as Hs'. simpl in Hs'.
  apply andb_prop in Hs' as [Hc _].
  destruct (digit_char_facts c Hc) as (Hsp & Hm & Hp & _).
  assert (lstrip (String c s) = String c s) as -> by (simpl; by rewrite Hsp).
  rewrite rstrip_no_space.
  2:{ eapply str_forall_impl; [|exact Hs]. intros c' Hc'.
      by destruct (digit_char_facts c' Hc') as [-> _]. }
  rewrite Hm, Hp.
  destruct (int_digits_is_Some (String c s) 0 false Hs) as (z & Hz & Hpos);
    [by left|].
  exists z. split; [done|]. by apply Hpos.
Qed.

(** A captured episode numeral that is not all digits makes [int] fail. *)
Lemma py_int_episode_numeral n :
  str_forall ep_char n = true → str_forall is_digit n = false →
  py_int n = None.
Proof.
  intros Hep (c & Hin & Hc)%str_forall_false.
  destruct (py_int n) as [z|] eqn:E; [|done].
  apply py_int_chars in E.
  pose proof (str_forall_elem _ _ _ E Hin) as Hic.
  pose proof (str_forall_elem _ _ _ Hep Hin) as Hec.
  by rewrite (ep_char_not_digit c Hec Hc) in Hic.
Qed.

(** ** Identifier validation (lines 35-46) *)

(** The only way through the validation is the show URL: a supplied
    identifier is never accepted. *)
Lemma resolve_show_id_only_by_url get_html show_id show_url sid :
  resolve_show_id get_html show_id show_url = inr sid →
  truthy show_id = false ∧ ∃ u s, show_url = Some u ∧
    get_show_id_from_url get_html u = inr s ∧ sid = PStr s.
Proof.
  unfold resolve_show_id.
  destruct (truthy show_id) eqn:Ht; simpl.
  - rewrite andb_false_r. destruct show_id; simpl; try done.
  - rewrite andb_true_r.
    destruct show_url as [u|]; simpl; [|done].
    destruct (String.eqb u ""); simpl; [done|].
    destruct (get_show_id_from_url get_html u) as [e|s] eqn:E; [done|].
    intros [= <-]. split; [done|]. by exists u, s.
Qed.

(** A [str] identifier is refused even when it holds an integer. *)
Lemma resolve_show_id_str get_html s show_url :
  s ≠ EmptyString →
  resolve_show_id get_html (PStr s) show_url = inl ValueError.
Proof.
  intros Hs. unfold resolve_show_id. simpl.
  destruct (String.eqb_spec s ""); [done|]. simpl.
  by rewrite andb_false_r.
Qed.

(** C3 (the code departs from the claim).  The claim has the validation accept
    every well-formed integer identifier.  In the code the test
    [not isinstance(show_id, int) or not show_id.isdigit()] calls [isdigit]
    on exactly the integers, which have no such method: for every non-zero
    integer identifier, with or without a URL, the constructor stops with an
    [AttributeError] before any fetch. *)
Theorem init_integer_show_id_raises
    get_html release_links regex_failure_is_horriblesubs z show_url debug :
  z ≠ 0 →
  __init__ get_html release_links regex_failure_is_horriblesubs
    (PInt z) show_url debug = inl AttributeError.
Proof.
  intros Hz. unfold __init__, init_batch_phase, resolve_show_id. simpl.
  destruct (Z.eqb_spec z 0); [done|]. simpl.
  by rewrite andb_false_r.
Qed.

Lemma init_integer_show_id_raises_witness :
  731 ≠ 0 ∧
  __init__ (λ _, "DONE") (λ _, []) true (PInt 731) None false
  = inl AttributeError.
Proof.
  split; [lia | apply (init_integer_show_id_raises _ _ _ 731 None false); lia].
Defined.

(** ** The most recent episode number (lines 56-76, 247-263) *)

(** C10.  When the label of the most recent single episode matches the
    single-episode pattern and its numeral holds a character that is not a
    decimal digit, the constructor ends with the [ValueError] of [int]: it
    neither succeeds nor takes the branch that sets [episodes_available] to
    [None]. *)
Theorem init_non_numeric_recent_episode
    get_html release_links regex_failure_is_horriblesubs
    show_id show_url debug sid episode_div rest m :
  resolve_show_id get_html show_id show_url = inr sid →
  release_links (get_html (episodes_url "show" sid)) = episode_div :: rest →
  rmatch episode_data_regex (i_string episode_div) = Some m →
  str_forall is_digit (group 1 m) = false →
  get_most_recent_episode_number get_html release_links
    (episodes_url "show" sid) = inr (group 1 m) ∧
  int (group 1 m) = inl ValueError ∧
  __init__ get_html release_links regex_failure_is_horriblesubs
    show_id show_url debug = inl ValueError.
Proof.
  intros Hsid Hdivs Hm Hnum.
  assert (Hrecent : get_most_recent_episode_number get_html release_links
            (episodes_url "show" sid) = inr (group 1 m)).
  { unfold get_most_recent_episode_number. by rewrite Hdivs, Hm. }
  assert (Hint : int (group 1 m) = inl ValueError).
  { unfold int. rewrite py_int_episode_numeral; [done| |done].
    apply episode_regex_groups in Hm as (n & d & -> & Hn & _). done. }
  repeat split; [done..|].
  unfold __init__, init_batch_phase, resolve_episodes_available.
  by rewrite Hsid, Hrecent, Hint.
Qed.

Lemma init_non_numeric_recent_episode_witness :
  __init__ special_edition_web special_edition_soup true PNone
    (Some "http://horriblesubs.info/shows/psycho-pass") false = inl ValueError.
Proof.
  refine (proj2 (proj2 (init_non_numeric_recent_episode
    special_edition_web special_edition_soup true PNone
    (Some "http://horriblesubs.info/shows/psycho-pass") false (PStr "42")
    (Block "Psycho-Pass - 13.5 [1080p]" "magnet:?xt=a") []
    ["13.5"; "1080p"] _ _ _ _))); reflexivity.
Defined.

(** ** Batch ranges (lines 183-222) *)

(** C6, as stated, fails: the pattern takes any two runs of digits, also a
    last episode below the first one, and the range is then empty. *)
Lemma batch_range_inclusive_fails :
  ¬ batch_range_inclusive "Show (5-3) [720p]".
Proof.
  intros H.
  destruct (H ["5"; "3"; "720p"] eq_refl)
    as (first & last & rng & Hf & Hl & _ & Hle & _).
  vm_compute in Hf, Hl. injection Hf as <-. injection Hl as <-. lia.
Qed.

Lemma range_length a b : length (range a b) = Z.to_nat (b - a).
Proof. unfold range. apply length_seqZ. Qed.

Lemma range_lookup a b i :
  0 ≤ i < b - a → range a b !! Z.to_nat i = Some (a + i).
Proof.
  intros Hi. unfold range.
  rewrite lookup_seqZ. split; [lia|]. lia.
Qed.

(** On a label that matches the batch pattern with both numerals present,
    [int] succeeds twice and the range is computed. *)
Lemma batch_numerals_int label m :
  rmatch batch_episodes_data_regex label = Some m →
  group 1 m ≠ EmptyString → group 2 m ≠ EmptyString →
  ∃ first last,
    int (group 1 m) = inr first ∧ int (group 2 m) = inr last ∧
    0 ≤ first ∧ 0 ≤ last ∧
    episode_range (group 1 m) (group 2 m) = inr (range first (last + 1)).
Proof.
  intros Hm H1 H2.
  destruct (batch_regex_groups _ _ Hm) as (f & l & d & -> & Hf & Hl & Hd).
  change (group 1 [f; l; d +:+ "p"]) with f in *.
  change (group 2 [f; l; d +:+ "p"]) with l in *.
  destruct (py_int_digits f Hf H1) as (a & Ha & Ha0).
  destruct (py_int_digits l Hl H2) as (b & Hb & Hb0).
  exists a, b. unfold episode_range, int. by rewrite Ha, Hb.
Qed.

(** C6, amended.  For a label that matches the batch pattern with both
    numerals non-empty, [int] succeeds on both and the parser expands the
    pair to [list(range(first, last + 1))]: when [first ≤ last] that is the
    inclusive run [first, first+1, ..., last] of length [last - first + 1],
    and the block is stored under it; when [last < first] it is empty. *)
Theorem batch_range_expansion label m :
  rmatch batch_episodes_data_regex label = Some m →
  group 1 m ≠ EmptyString → group 2 m ≠ EmptyString →
  ∃ first last rng,
    int (group 1 m) = inr first ∧ int (group 2 m) = inr last ∧
    0 ≤ first ∧ 0 ≤ last ∧
    episode_range (group 1 m) (group 2 m) = inr rng ∧
    (first ≤ last →
       Z.of_nat (length rng) = last - first + 1 ∧
       (∀ i, 0 ≤ i ≤ last - first → rng !! Z.to_nat i = Some (first + i)) ∧
       ∀ magnet st,
         existsb (λ d, bool_decide (episode_number d = PList rng))
           (episodes st) = false →
         episodes (parse_batch_episodes_loop [Block label magnet] st).1
         = episodes st ++ [Episode (PList rng) (group 3 m) magnet]) ∧
    (last < first → rng = []).
Proof.
  intros Hm H1 H2.
  destruct (batch_numerals_int _ _ Hm H1 H2)
    as (a & b & Ha & Hb & Ha0 & Hb0 & Hrng).
  exists a, b, (range a (b + 1)).
  repeat split; try done.
  - rewrite range_length. lia.
  - intros i Hi. apply range_lookup. lia.
  - intros magnet st Hnew. simpl. rewrite Hm.
    rewrite Hrng, Hnew. simpl.
    destruct (range a (b + 1)) as [|z rng] eqn:E; [|done].
    apply (f_equal length) in E. rewrite range_length in E. simpl in E. lia.
  - intros Hlt. apply nil_length_inv. rewrite range_length. lia.
Qed.

Lemma batch_range_expansion_witness :
  ∃ first last rng,
    int "80" = inr first ∧ int "426" = inr last ∧ 0 ≤ first ∧ 0 ≤ last ∧
    episode_range "80" "426" = inr rng ∧
    (first ≤ last →
       Z.of_nat (length rng) = last - first + 1 ∧
       (∀ i, 0 ≤ i ≤ last - first → rng !! Z.to_nat i = Some (first + i)) ∧
       ∀ magnet st,
         existsb (λ d, bool_decide (episode_number d = PList rng))
           (episodes st) = false →
         episodes (parse_batch_episodes_loop
                     [Block "Naruto Shippuuden (80-426) [1080p]" magnet] st).1
         = episodes st ++ [Episode (PList rng) "1080p" magnet]) ∧
    (last < first → rng = []).
Proof.
  apply (batch_range_expansion "Naruto Shippuuden (80-426) [1080p]"
           ["80"; "426"; "1080p"]); [reflexivity | discriminate..].
Defined.

(** ** Reversed traversal of a page (lines 146-169) *)

Example high_res_retained_when_last : high_res_retained [low_res; high_res].
Proof. reflexivity. Qed.

(** With the high-resolution block first in the document, the reversed
    traversal meets the low-resolution block first and keeps that one. *)
Lemma high_res_first_is_dropped : ¬ high_res_retained [high_res; low_res].
Proof. unfold high_res_retained. vm_compute. discriminate. Qed.

(** ** Show-id discovery (lines 103-115) *)

(** C4, as stated, fails: the pattern starts with a greedy run of any
    characters, so with two markers in the page the code returns the digits of
    the last one, where the first match is the other one. *)
Lemma show_id_not_first_match : ¬ first_match_wins two_markers.
Proof. unfold first_match_wins. vm_compute. discriminate. Qed.

Example show_id_two_markers :
  first_show_id_spec two_markers = Some "1" ∧
  get_show_id_from_url (λ _, two_markers) "http://horriblesubs.info/shows/x"
  = inr "2".
Proof. split; reflexivity. Qed.

Lemma show_id_regex_unfold html :
  rmatch show_id_regex html
  = star dotall html (λ _ rest,
      match lit show_id_marker rest with
      | Some r => star is_digit r (λ d _, Some [d])
      | None => None
      end).
Proof. reflexivity. Qed.

Lemma str_forall_snoc p s c :
  str_forall p (s +:+ String c "") = str_forall p s && p c.
Proof.
  induction s as [|c' s IH]; norm_append; simpl.
  - by rewrite andb_true_r.
  - by rewrite IH, andb_assoc.
Qed.

Lemma append_snoc s c r : (s +:+ String c "") +:+ r = s +:+ String c r.
Proof. induction s as [|c' s IH]; norm_append; [done|]. by rewrite IH. Qed.

Lemma length_snoc s c :
  String.length (s +:+ String c "") = S (String.length s).
Proof. induction s as [|c' s IH]; norm_append; simpl; [done|]. by rewrite IH. Qed.

(** The digits group always matches, and takes every digit there is. *)
Lemma star_digits r g :
  star is_digit r (λ d _, Some [d]) = Some g →
  ∃ d rest, g = [d] ∧ r = d +:+ rest ∧ str_forall is_digit d = true ∧
            starts_with is_digit rest = false.
Proof.
  intros (d & rest & -> & Hd & [= <-] & Hmax)%star_Some.
  exists d, rest. repeat split; [done|].
  destruct rest as [|c rest]; [done|]. simpl.
  destruct (is_digit c) eqn:Hc; [|done].
  specialize (Hmax (d +:+ String c "") rest).
  rewrite append_snoc, str_forall_snoc, Hd, Hc, length_snoc in Hmax.
  discriminate Hmax; [done..|lia].
Qed.

Lemma star_digits_is_Some r : is_Some (star is_digit r (λ d _, Some [d])).
Proof. by apply (star_is_Some _ _ _ "" r). Qed.

Lemma str_forall_dotall s : str_forall dotall s = true.
Proof. by induction s. Qed.

(** C4, amended.  Show-id discovery returns the digits that follow the LAST
    occurrence of the marker [var hs_showid = ] in the page (all the digits
    there, possibly none), and it raises [RegexFailedToMatch] exactly when
    the marker does not occur. *)
Theorem get_show_id_from_url_last_marker get_html show_url :
  (∀ sid, get_show_id_from_url get_html show_url = inr sid →
     ∃ pre rest,
       get_html show_url = pre +:+ show_id_marker +:+ sid +:+ rest ∧
       str_forall is_digit sid = true ∧ starts_with is_digit rest = false ∧
       ∀ pre' rest', get_html show_url = pre' +:+ show_id_marker +:+ rest' →
         (String.length pre' ≤ String.length pre)%nat) ∧
  (∀ e, get_show_id_from_url get_html show_url = inl e →
     e = RegexFailedToMatch ∧
     ∀ pre rest, get_html show_url ≠ pre +:+ show_id_marker +:+ rest) ∧
  (∀ pre rest, get_html show_url = pre +:+ show_id_marker +:+ rest →
     ∃ sid, get_show_id_from_url get_html show_url = inr sid).
Proof.
  unfold get_show_id_from_url. rewrite show_id_regex_unfold.
  set (html := get_html show_url).
  set (k := λ (_ rest : string),
              match lit show_id_marker rest with
              | Some r => star is_digit r (λ d _, Some [d])
              | None => None
              end).
  assert (Hk : ∀ pre rest, is_Some (k pre (show_id_marker +:+ rest))).
  { intros pre rest. unfold k.
    rewrite (proj2 (lit_Some show_id_marker _ rest) eq_refl).
    apply star_digits_is_Some. }
  split; [|split].
  - intros sid H. destruct (star dotall html k) as [g|] eqn:E; [|done].
    injection H as <-.
    apply star_Some in E as (pre & r0 & Hhtml & _ & Hg & Hmax).
    unfold k in Hg. destruct (lit show_id_marker r0) as [r1|] eqn:El; [|done].
    apply lit_Some in El as ->.
    apply star_digits in Hg as (d & rest & -> & -> & Hd & Hrest).
    exists pre, rest. repeat split; try done.
    intros pre' rest' Hhtml'.
    destruct (decide (String.length pre' ≤ String.length pre)%nat); [done|].
    destruct (Hk pre' rest') as [g Hg].
    rewrite (Hmax pre' _ Hhtml' (str_forall_dotall _)) in Hg; [done|lia].
  - intros e H. destruct (star dotall html k) as [g|] eqn:E; [done|].
    injection H as <-. split; [done|]. intros pre rest Hhtml.
    destruct (Hk pre rest) as [g Hg].
    by rewrite (star_None _ _ _ E pre _ Hhtml (str_forall_dotall _)) in Hg.
  - intros pre rest Hhtml.
    destruct (star_is_Some dotall html k pre _ Hhtml (str_forall_dotall _)
                (Hk pre rest)) as [g ->].
    by eexists.
Qed.

Lemma get_show_id_from_url_last_marker_witness :
  ∃ pre rest,
    two_markers = pre +:+ show_id_marker +:+ "2" +:+ rest ∧
    str_forall is_digit "2" = true ∧ starts_with is_digit rest = false ∧
    ∀ pre' rest', two_markers = pre' +:+ show_id_marker +:+ rest' →
      (String.length pre' ≤ String.length pre)%nat.
Proof.
  apply (proj1 (get_show_id_from_url_last_marker (λ _, two_markers)
                  "http://horriblesubs.info/shows/x") "2").
  reflexivity.
Defined.

(** ** Deduplication (lines 141-181, 183-244) *)

(** C1, as stated, fails: the batch parser only skips a candidate whose range
    is identical to one already stored, so two ranges that overlap are both
    kept, and episodes 1 and 2 are claimed by two entries of the final
    collection. *)
Lemma overlapping_batches_both_kept :
  ∃ m, __init__ overlap_web overlap_soup true PNone
         (Some "http://horriblesubs.info/shows/x") false = inr m ∧
       coordinator_step overlap_web overlap_soup m
       = Some (Machine (self m) CReturned []) ∧
       (episode_number <$> episodes (self m))
       = [PList [1; 2; 3]; PList [1; 2]] ∧
       ¬ numbers_claimed_once (self m).
Proof.
  eexists. split; [vm_compute; reflexivity|].
  split; [reflexivity|]. split; [reflexivity|].
  unfold numbers_claimed_once. vm_compute.
  intros H. apply NoDup_cons_1_1 in H. apply H. set_solver.
Qed.

Lemma single_numerals_snoc es e :
  single_numerals (es ++ [e])
  = single_numerals es ++
      match episode_number e with PStr s => [s] | _ => [] end.
Proof.
  unfold single_numerals. rewrite omap_app. simpl.
  by destruct (episode_number e).
Qed.

Lemma batch_ranges_snoc es e :
  batch_ranges (es ++ [e])
  = batch_ranges es ++
      match episode_number e with PList l => [l] | _ => [] end.
Proof.
  unfold batch_ranges. rewrite omap_app. simpl.
  by destruct (episode_number e).
Qed.

Lemma batch_ranges_elem es l :
  l ∈ batch_ranges es →
  existsb (λ d, bool_decide (episode_number d = PList l)) es = true.
Proof.
  unfold batch_ranges. rewrite list_elem_of_omap.
  intros (e & He & Hl). apply existsb_exists. exists e.
  split; [by apply list_elem_of_In|].
  destruct (episode_number e); try done. injection Hl as ->.
  by apply bool_decide_eq_true_2.
Qed.

Lemma fresh_dedup_invariant sid available dbg :
  dedup_invariant (Scraper sid available false [] [] ∅ 0 dbg).
Proof.
  split; simpl; [constructor|constructor|apply not_elem_of_nil|].
  intros s. set_solver.
Qed.

Lemma add_single_dedup_invariant n vid_res magnet st :
  dedup_invariant st →
  PStr n ∉ episode_numbers_collected st →
  dedup_invariant (_add_episode (PStr n) None vid_res magnet st).
Proof.
  intros [Hs Hr He Hc] Hnew. split; simpl.
  - rewrite single_numerals_snoc. simpl. apply NoDup_app.
    split; [done|]. split; [|apply NoDup_singleton].
    intros s Hin ->%list_elem_of_singleton. by apply Hnew, Hc.
  - rewrite batch_ranges_snoc. simpl. by rewrite app_nil_r.
  - rewrite batch_ranges_snoc. simpl. by rewrite app_nil_r.
  - intros s. rewrite single_numerals_snoc. simpl.
    rewrite elem_of_app, list_elem_of_singleton, elem_of_union,
      elem_of_singleton, <- Hc.
    split; (intros [?|?]; [by left|right; congruence]).
Qed.

Lemma add_batch_dedup_invariant rng vid_res magnet st :
  dedup_invariant st →
  existsb (λ d, bool_decide (episode_number d = PList rng)) (episodes st)
  = false →
  dedup_invariant (_add_episode PNone (Some rng) vid_res magnet st).
Proof.
  intros [Hs Hr He Hc] Hnew. destruct rng as [|z rng]; split; simpl.
  - rewrite single_numerals_snoc. simpl. by rewrite app_nil_r.
  - rewrite batch_ranges_snoc. simpl. by rewrite app_nil_r.
  - rewrite batch_ranges_snoc. simpl. by rewrite app_nil_r.
  - intros s. rewrite single_numerals_snoc. simpl.
    rewrite app_nil_r, elem_of_union, elem_of_singleton, <- Hc.
    split; [by left|]. by intros [?|?].
  - rewrite single_numerals_snoc. simpl. by rewrite app_nil_r.
  - rewrite batch_ranges_snoc. simpl. apply NoDup_app.
    split; [done|]. split; [|apply NoDup_singleton].
    intros l Hin ->%list_elem_of_singleton.
    apply batch_ranges_elem in Hin. congruence.
  - rewrite batch_ranges_snoc. simpl.
    rewrite elem_of_app, list_elem_of_singleton. by intros [?|?].
  - intros s. rewrite single_numerals_snoc. simpl.
    rewrite app_nil_r, Hc.
    rewrite elem_of_union, elem_of_union, elem_of_singleton,
      elem_of_list_to_set, list_elem_of_fmap.
    split; [tauto|]. intros [?|[[=]|(y & [=] & _)]]. done.
Qed.

Lemma parse_episodes_loop_dedup_invariant divs st :
  dedup_invariant st → dedup_invariant (parse_episodes_loop divs st).1.
Proof.
  revert st. induction divs as [|d divs IH]; intros st Hst; simpl; [done|].
  destruct (rmatch episode_data_regex (i_string d)) as [m|]; [|done].
  case_bool_decide as Hin; [by apply IH|].
  by apply IH, add_single_dedup_invariant.
Qed.

Lemma parse_batch_episodes_loop_dedup_invariant divs st :
  dedup_invariant st → dedup_invariant (parse_batch_episodes_loop divs st).1.
Proof.
  revert st. induction divs as [|d divs IH]; intros st Hst; simpl; [done|].
  destruct (rmatch batch_episodes_data_regex (i_string d)) as [m|]; [|done].
  destruct (episode_range _ _) as [e|rng]; [done|].
  destruct (existsb _ _) eqn:Hdup; [by apply IH|].
  by apply IH, add_batch_dedup_invariant.
Qed.

(** ** A page that stops matching half-way (lines 154-178, 193-222) *)

Lemma parse_episodes_loop_app l1 l2 st :
  parse_episodes_loop (l1 ++ l2) st
  = match parse_episodes_loop l1 st with
    | (st', None) => parse_episodes_loop l2 st'
    | (st', Some e) => (st', Some e)
    end.
Proof.
  revert st. induction l1 as [|d l1 IH]; intros st; simpl; [done|].
  destruct (rmatch episode_data_regex (i_string d)); [|done].
  by case_bool_decide.
Qed.

Lemma parse_batch_episodes_loop_app l1 l2 st :
  parse_batch_episodes_loop (l1 ++ l2) st
  = match parse_batch_episodes_loop l1 st with
    | (st', None) => parse_batch_episodes_loop l2 st'
    | (st', Some e) => (st', Some e)
    end.
Proof.
  revert st. induction l1 as [|d l1 IH]; intros st; simpl; [done|].
  destruct (rmatch batch_episodes_data_regex (i_string d)); [|done].
  destruct (episode_range _ _); [done|]. by destruct (existsb _ _).
Qed.

(** What a run of the single-episode loop over matching blocks leaves. *)
Lemma parse_episodes_loop_good divs st :
  Forall (λ d, is_Some (rmatch episode_data_regex (i_string d))) divs →
  ∃ new,
    (parse_episodes_loop divs st).2 = None ∧
    episodes (parse_episodes_loop divs st).1 = episodes st ++ new ∧
    episode_numbers_collected st
      ⊆ episode_numbers_collected (parse_episodes_loop divs st).1 ∧
    all_episodes_acquired (parse_episodes_loop divs st).1
      = all_episodes_acquired st ∧
    ∀ d m, d ∈ divs → rmatch episode_data_regex (i_string d) = Some m →
      PStr (group 1 m)
        ∈ episode_numbers_collected (parse_episodes_loop divs st).1 ∧
      (PStr (group 1 m) ∉ episode_numbers_collected st →
       ∃ e, e ∈ new ∧ episode_number e = PStr (group 1 m)).
Proof.
  intros Hgood. revert st.
  induction Hgood as [|d divs [m Hm] _ IH]; intros st.
  - exists []. simpl. rewrite app_nil_r. do 4 (split; [done|]).
    intros d' m' Hd'. by apply elem_of_nil in Hd'.
  - simpl. rewrite Hm. case_bool_decide as Hin.
    + destruct (IH st) as (new & Hexn & Heps & Hsub & Hflag & Hall).
      exists new. split; [done|]. split; [done|]. split; [done|].
      split; [done|].
      intros d' m' [->|Hd']%elem_of_cons Hm'; [|by apply (Hall d' m')].
      assert (m' = m) as -> by congruence. split; [by apply Hsub|done].
    + set (st1 := _add_episode _ _ _ _ st).
      destruct (IH st1) as (new & Hexn & Heps & Hsub & Hflag & Hall).
      exists (Episode (PStr (group 1 m)) (group 2 m) (magnet_href d) :: new).
      split; [done|]. split; [by rewrite Heps; simpl; rewrite <- app_assoc|].
      split; [etrans; [|exact Hsub]; simpl; apply union_subseteq_l|].
      split; [done|].
      intros d' m' [->|Hd']%elem_of_cons Hm'.
      * assert (m' = m) as -> by congruence. split.
        -- apply Hsub. simpl. apply elem_of_union_r. by apply elem_of_singleton.
        -- intros _. eexists. split; [apply list_elem_of_here|done].
      * destruct (Hall d' m' Hd' Hm') as [Hcol Hnew]. split; [done|].
        intros Hfresh.
        destruct (decide (group 1 m' = group 1 m)) as [Heq|Hne].
        -- eexists. split; [apply list_elem_of_here|]. by rewrite Heq.
        -- destruct Hnew as (e & He & Hnum).
           { simpl. rewrite elem_of_union, elem_of_singleton.
             intros [?|[=]]; done. }
           exists e. split; [by apply list_elem_of_further|done].
Qed.

Lemma batch_block_ok_range d :
  batch_block_ok d →
  ∃ m rng, rmatch batch_episodes_data_regex (i_string d) = Some m ∧
           episode_range (group 1 m) (group 2 m) = inr rng.
Proof.
  intros (m & Hm & H1 & H2).
  destruct (batch_numerals_int _ _ Hm H1 H2) as (a & b & _ & _ & _ & _ & Hrng).
  by exists m, (range a (b + 1)).
Qed.

Lemma has_range_app rng es1 es2 :
  has_range rng (es1 ++ es2) = has_range rng es1 || has_range rng es2.
Proof. apply existsb_app. Qed.

Lemma has_range_elem rng es :
  has_range rng es = true ↔ ∃ e, e ∈ es ∧ episode_number e = PList rng.
Proof.
  unfold has_range. rewrite existsb_exists. split.
  - intros (e & He & Heq). exists e. split; [by apply list_elem_of_In|].
    by apply bool_decide_eq_true_1 in Heq.
  - intros (e & He & Heq). exists e. split; [by apply list_elem_of_In|].
    by apply bool_decide_eq_true_2.
Qed.

Lemma collected_add_range z rng vid_res magnet st :
  episode_numbers_collected
    (_add_episode PNone (Some (z :: rng)) vid_res magnet st)
  = episode_numbers_collected st ∪ list_to_set (PInt <$> z :: rng).
Proof. reflexivity. Qed.

(** What a run of the batch loop over blocks that parse leaves. *)
Lemma parse_batch_episodes_loop_good divs st :
  Forall batch_block_ok divs →
  ∃ new,
    (parse_batch_episodes_loop divs st).2 = None ∧
    episodes (parse_batch_episodes_loop divs st).1 = episodes st ++ new ∧
    episode_numbers_collected st
      ⊆ episode_numbers_collected (parse_batch_episodes_loop divs st).1 ∧
    ∀ d m rng, d ∈ divs →
      rmatch batch_episodes_data_regex (i_string d) = Some m →
      episode_range (group 1 m) (group 2 m) = inr rng → rng ≠ [] →
      has_range rng (episodes st) = false →
      (∃ e, e ∈ new ∧ episode_number e = PList rng) ∧
      ∀ z, z ∈ rng →
        PInt z
          ∈ episode_numbers_collected (parse_batch_episodes_loop divs st).1.
Proof.
  intros Hgood. revert st.
  induction Hgood as [|d divs Hd _ IH]; intros st.
  - exists []. simpl. rewrite app_nil_r. do 3 (split; [done|]).
    intros d' m' rng' Hd'. by apply elem_of_nil in Hd'.
  - destruct (batch_block_ok_range d Hd) as (m & rng & Hm & Hrng).
    simpl. rewrite Hm, Hrng. fold (has_range rng (episodes st)).
    destruct (has_range rng (episodes st)) eqn:Hdup.
    + destruct (IH st) as (new & Hexn & Heps & Hsub & Hall).
      exists new. do 3 (split; [done|]).
      intros d' m' rng' [->|Hd']%elem_of_cons Hm' Hrng' Hne Hfresh;
        [|by apply (Hall d' m')].
      congruence.
    + set (e0 := Episode (match rng with [] => PNone | _ => PList rng end)
                   (group 3 m) (magnet_href d)).
      set (st1 := _add_episode _ _ _ _ st).
      assert (Heps1 : episodes st1 = episodes st ++ [e0]).
      { subst st1 e0. simpl. by destruct rng. }
      assert (Hnum1 : ∀ z, z ∈ rng → PInt z ∈ episode_numbers_collected st1).
      { subst st1. intros z Hz. destruct rng as [|z0 rng].
        { by apply elem_of_nil in Hz. }
        rewrite collected_add_range.
        apply elem_of_union_r, elem_of_list_to_set, list_elem_of_fmap.
        by exists z. }
      assert (Hsub1 : episode_numbers_collected st
                        ⊆ episode_numbers_collected st1).
      { subst st1. simpl. destruct rng; apply union_subseteq_l. }
      destruct (IH st1) as (new & Hexn & Heps & Hsub & Hall).
      exists (e0 :: new). split; [done|].
      split; [by rewrite Heps, Heps1, <- app_assoc|].
      split; [by etrans|].
      intros d' m' rng' Hin Hm' Hrng' Hne Hfresh.
      destruct (decide (rng' = rng)) as [->|Hdiff].
      { split.
        - exists e0. split; [apply list_elem_of_here|].
          subst e0. simpl. by destruct rng.
        - intros z Hz. by apply Hsub, Hnum1. }
      apply elem_of_cons in Hin as [->|Hd']; [congruence|].
      destruct (Hall d' m' rng' Hd' Hm' Hrng' Hne) as [(e & He & Hnum) Hcol].
      { rewrite Heps1, has_range_app, Hfresh. simpl.
        rewrite orb_false_r. apply bool_decide_eq_false_2.
        subst e0. simpl. destruct rng; congruence. }
      split; [|done]. exists e. split; [by apply list_elem_of_further|done].
Qed.

(** C9.  A page parse is not atomic.  When the blocks, in the order of the
    traversal (the reverse of the document), are some blocks that parse, then
    a block whose label the parser's pattern does not match, the parse raises
    [RegexFailedToMatch] and leaves the object exactly as the loop over the
    earlier blocks made it: their entries are appended after those that were
    there, their numbers are in the collected set, nothing is undone.  This
    holds for [parse_episodes] (where the flag is left as it was) and for
    [parse_batch_episodes]. *)
Theorem parse_failure_keeps_earlier_blocks release_links html st good bad rest :
  rev (release_links html) = good ++ bad :: rest →
  (Forall (λ d, is_Some (rmatch episode_data_regex (i_string d))) good →
   rmatch episode_data_regex (i_string bad) = None →
   ∃ new,
     parse_episodes release_links html st
     = ((parse_episodes_loop good st).1, Some RegexFailedToMatch) ∧
     (parse_episodes_loop good st).2 = None ∧
     episodes (parse_episodes release_links html st).1 = episodes st ++ new ∧
     episode_numbers_collected st
       ⊆ episode_numbers_collected (parse_episodes release_links html st).1 ∧
     all_episodes_acquired (parse_episodes release_links html st).1
       = all_episodes_acquired st ∧
     ∀ d m, d ∈ good → rmatch episode_data_regex (i_string d) = Some m →
       PStr (group 1 m)
         ∈ episode_numbers_collected
             (parse_episodes release_links html st).1 ∧
       (PStr (group 1 m) ∉ episode_numbers_collected st →
        ∃ e, e ∈ new ∧ episode_number e = PStr (group 1 m))) ∧
  (Forall batch_block_ok good →
   rmatch batch_episodes_data_regex (i_string bad) = None →
   ∃ new,
     parse_batch_episodes release_links html st
     = ((parse_batch_episodes_loop good st).1, Some RegexFailedToMatch) ∧
     (parse_batch_episodes_loop good st).2 = None ∧
     episodes (parse_batch_episodes release_links html st).1
       = episodes st ++ new ∧
     episode_numbers_collected st
       ⊆ episode_numbers_collected
           (parse_batch_episodes release_links html st).1 ∧
     ∀ d m rng, d ∈ good →
       rmatch batch_episodes_data_regex (i_string d) = Some m →
       episode_range (group 1 m) (group 2 m) = inr rng → rng ≠ [] →
       has_range rng (episodes st) = false →
       (∃ e, e ∈ new ∧ episode_number e = PList rng) ∧
       ∀ z, z ∈ rng →
         PInt z
           ∈ episode_numbers_collected
               (parse_batch_episodes release_links html st).1).
Proof.
  intros Hdoc. split; intros Hgood Hbad.
  - destruct (parse_episodes_loop_good good st Hgood)
      as (new & Hexn & Heps & Hsub & Hflag & Hall).
    assert (Hrun : parse_episodes release_links html st
              = ((parse_episodes_loop good st).1, Some RegexFailedToMatch)).
    { unfold parse_episodes. rewrite Hdoc, parse_episodes_loop_app.
      destruct (parse_episodes_loop good st) as [st' o]. simpl in Hexn.
      subst o. simpl. by rewrite Hbad. }
    exists new. rewrite Hrun. simpl. by do 5 (split; [done|]).
  - destruct (parse_batch_episodes_loop_good good st Hgood)
      as (new & Hexn & Heps & Hsub & Hall).
    assert (Hrun : parse_batch_episodes release_links html st
              = ((parse_batch_episodes_loop good st).1,
                 Some RegexFailedToMatch)).
    { unfold parse_batch_episodes.
      rewrite Hdoc, parse_batch_episodes_loop_app.
      destruct (parse_batch_episodes_loop good st) as [st' o]. simpl in Hexn.
      subst o. simpl. by rewrite Hbad. }
    exists new. rewrite Hrun. simpl. by do 4 (split; [done|]).
Qed.

Lemma parse_failure_keeps_earlier_blocks_witness :
  ∃ new,
    parse_episodes (λ _, torn_page) "page" (fresh (PStr "7") None)
    = ((parse_episodes_loop
          [Block "Show - 03 [1080p]" "magnet:?xt=e3";
           Block "Show - 02 [1080p]" "magnet:?xt=e2"]
          (fresh (PStr "7") None)).1, Some RegexFailedToMatch) ∧
    (parse_episodes_loop
       [Block "Show - 03 [1080p]" "magnet:?xt=e3";
        Block "Show - 02 [1080p]" "magnet:?xt=e2"]
       (fresh (PStr "7") None)).2 = None ∧
    episodes (parse_episodes (λ _, torn_page) "page"
                (fresh (PStr "7") None)).1 = [] ++ new.
Proof.
  destruct (proj1 (parse_failure_keeps_earlier_blocks (λ _, torn_page) "page"
              (fresh (PStr "7") None)
              [Block "Show - 03 [1080p]" "magnet:?xt=e3";
               Block "Show - 02 [1080p]" "magnet:?xt=e2"]
              (Block "Show Batch notice" "magnet:?xt=x") [] eq_refl))
    as (new & H1 & H2 & H3 & _).
  - repeat constructor; by eexists.
  - reflexivity.
  - by exists new.
Defined.

Example torn_page_leaves_two_entries :
  (let r := parse_episodes (λ _, torn_page) "page" (fresh (PStr "7") None) in
   (episodes r.1, r.2))
  = ([Episode (PStr "03") "1080p" "magnet:?xt=e3";
      Episode (PStr "02") "1080p" "magnet:?xt=e2"],
     Some RegexFailedToMatch).
Proof. reflexivity. Qed.

(** ** The sort of the [debug] block (lines 93-101) *)

Lemma py_lt_one_kind a b k :
  kind_of a = Some k → kind_of b = Some k → ∃ c, py_lt a b = inr c.
Proof. destruct a, b; simpl; intros; simplify_eq; by eexists. Qed.

Lemma py_lt_two_kinds a b :
  (∀ k, ¬ (kind_of a = Some k ∧ kind_of b = Some k)) →
  py_lt a b = inl TypeError.
Proof.
  destruct a, b; simpl; intros H; try done; exfalso; eapply H; done.
Qed.

Lemma sort_insert_one_kind {A : Type} k (x : pyval * A) l :
  kind_of x.1 = Some k → Forall (λ p, kind_of p.1 = Some k) l →
  ∃ r, sort_insert x l = inr r ∧ r ≡ₚ x :: l.
Proof.
  intros Hx. induction 1 as [|y l Hy _ (r & Hr & Hperm)]; simpl.
  - by exists [x].
  - destruct (py_lt_one_kind y.1 x.1 k Hy Hx) as [[] ->].
    + rewrite Hr. exists (y :: r). split; [done|].
      rewrite Hperm. apply Permutation_swap.
    + by exists (x :: y :: l).
Qed.

(** Whether the sort raises is settled by the kinds of the keys: it returns
    a rearrangement when there is at most one element or the keys are of
    one kind, and ends in [TypeError] otherwise. *)
Lemma sort_pairs_outcome {A : Type} (l : list (pyval * A)) :
  (∃ r, sort_pairs l = inr r ∧ r ≡ₚ l ∧ one_kind (λ p, kind_of p.1) l) ∨
  (sort_pairs l = inl TypeError ∧ ¬ one_kind (λ p, kind_of p.1) l).
Proof.
  induction l as [|x l IH]; simpl.
  { left. exists []. split; [done|]. split; [done|]. left. simpl. lia. }
  destruct IH as [(r & -> & Hperm & Hone)|[-> Hnot]].
  - destruct r as [|y r].
    { apply Permutation_nil_l in Hperm. subst l. left. exists [x].
      split; [done|]. split; [done|]. left. simpl. lia. }
    assert (Hy : y ∈ l) by (rewrite <- Hperm; apply list_elem_of_here).
    destruct (kind_of x.1) as [k|] eqn:Hx.
    + destruct (decide (kind_of y.1 = Some k)) as [Hyk|Hyk].
      * assert (Hall : Forall (λ p, kind_of p.1 = Some k) l).
        { destruct Hone as [Hlen|[k' Hk']].
          - destruct l as [|y' [|]]; simpl in Hlen;
              [by apply elem_of_nil in Hy| |lia].
            apply list_elem_of_singleton in Hy as <-. by constructor.
          - assert (k' = k) as ->; [|done].
            rewrite Forall_forall in Hk'. specialize (Hk' y Hy). congruence. }
        destruct (sort_insert_one_kind k x (y :: r) Hx) as (r' & Hr' & Hp').
        { by rewrite Hperm. }
        left. exists r'. split; [done|]. split; [by rewrite Hp', Hperm|].
        right. exists k. by constructor.
      * right. split.
        { simpl. rewrite py_lt_two_kinds; [done|]. intros k' [H1 H2]. congruence. }
        intros [Hlen|[k' Hk']].
        { destruct l; [by apply elem_of_nil in Hy|simpl in Hlen; lia]. }
        apply Forall_cons in Hk' as [Hxk Hk'].
        rewrite Forall_forall in Hk'. specialize (Hk' y Hy). congruence.
    + right. split.
      { simpl. rewrite py_lt_two_kinds; [done|]. intros k' [H1 H2]. congruence. }
      intros [Hlen|[k' Hk']].
      { destruct l; [by apply elem_of_nil in Hy|simpl in Hlen; lia]. }
      apply Forall_cons in Hk' as [Hxk Hk']. congruence.
  - right. split; [done|]. intros [Hlen|[k Hk]]; apply Hnot.
    + left. simpl in Hlen. lia.
    + right. exists k. by apply Forall_cons in Hk as [_ Hk].
Qed.

(** The keys of a collection that holds no entry under an empty range. *)
Lemma sort_keys_debug es :
  [] ∉ batch_ranges es →
  ∃ ks, sort_keys debug_sort_key es = inr ks ∧
        Forall2 (λ p d, kind_of p.1 = debug_key_kind d) ks es.
Proof.
  induction es as [|d es IH]; intros Hne; simpl.
  { by exists []. }
  assert (Hes : [] ∉ batch_ranges es).
  { intros Hin. apply Hne. unfold batch_ranges in *. simpl.
    destruct (episode_number d); try done. by apply list_elem_of_further. }
  destruct (IH Hes) as (ks & -> & Hks).
  unfold debug_sort_key, debug_key_kind.
  destruct (episode_number d) as [|z|s|l] eqn:Hd.
  - eexists. split; [done|]. constructor; [|done]. simpl. by rewrite Hd.
  - eexists. split; [done|]. constructor; [|done]. simpl. by rewrite Hd.
  - eexists. split; [done|]. constructor; [|done]. simpl. by rewrite Hd.
  - destruct (last l) as [z|] eqn:Hl.
    + eexists. split; [done|]. constructor; [|done]. simpl. by rewrite Hd.
    + apply last_None in Hl as ->. exfalso. apply Hne.
      unfold batch_ranges. simpl. rewrite Hd. apply list_elem_of_here.
Qed.

Lemma one_kind_Forall2 {A B : Type} (f : A → option kind)
    (g : B → option kind) l1 l2 :
  Forall2 (λ a b, f a = g b) l1 l2 → one_kind f l1 ↔ one_kind g l2.
Proof.
  intros H. unfold one_kind. rewrite (Forall2_length _ _ _ H).
  assert (Hk : ∀ k, Forall (λ x, f x = Some k) l1
                    ↔ Forall (λ x, g x = Some k) l2).
  { intros k. induction H as [|a b l1 l2 Hab _ IH].
    - split; constructor.
    - rewrite !Forall_cons, IH, Hab. done. }
  split; (intros [?|[k ?]]; [by left|right; exists k; by apply Hk]).
Qed.

(** When the [debug] block raises. *)
Lemma debug_block_sorted st :
  [] ∉ batch_ranges (episodes st) →
  (debug st = false ∨ one_kind debug_key_kind (episodes st) →
   debug_block st = None) ∧
  (debug st = true → ¬ one_kind debug_key_kind (episodes st) →
   debug_block st = Some TypeError).
Proof.
  intros Hne. unfold debug_block, sorted.
  destruct (sort_keys_debug (episodes st) Hne) as (ks & -> & Hks).
  pose proof (one_kind_Forall2 _ _ _ _ Hks) as Hiff.
  destruct (sort_pairs_outcome ks) as [(r & -> & _ & Hone)|[-> Hnot]].
  - split; [by destruct (debug st)|]. intros _ H. by apply Hiff in Hone.
  - split; [|by intros ->].
    intros [->|H]; [done|]. by apply Hiff in H.
Qed.

(** ** A show with batches only (lines 66-101) *)

(** The batch loop touches the collection and the collected set only. *)
Lemma parse_batch_episodes_loop_frame divs st :
  let st' := (parse_batch_episodes_loop divs st).1 in
  show_id st' = show_id st ∧
  episodes_available st' = episodes_available st ∧
  all_episodes_acquired st' = all_episodes_acquired st ∧
  threads st' = threads st ∧
  episodes_page_number st' = episodes_page_number st.
Proof.
  revert st. induction divs as [|d divs IH]; intros st; simpl; [done|].
  destruct (rmatch batch_episodes_data_regex (i_string d)); [|done].
  destruct (episode_range _ _) as [e|rng]; [done|].
  destruct (existsb _ _); [apply IH|].
  destruct (IH (_add_episode PNone (Some rng) (group 3 l) (magnet_href d) st))
    as (-> & -> & -> & -> & ->).
  by destruct rng.
Qed.

(** The batch loop appends no single-episode entry. *)
Lemma parse_batch_episodes_loop_singles divs st :
  single_numerals (episodes (parse_batch_episodes_loop divs st).1)
  = single_numerals (episodes st).
Proof.
  revert st. induction divs as [|d divs IH]; intros st; simpl; [done|].
  destruct (rmatch batch_episodes_data_regex (i_string d)); [|done].
  destruct (episode_range _ _) as [e|rng]; [done|].
  destruct (existsb _ _); [apply IH|].
  rewrite IH. simpl. rewrite single_numerals_snoc. simpl.
  destruct rng; apply app_nil_r.
Qed.

Lemma parse_batch_episodes_loop_debug divs st :
  debug (parse_batch_episodes_loop divs st).1 = debug st.
Proof.
  revert st. induction divs as [|d divs IH]; intros st; simpl; [done|].
  destruct (rmatch batch_episodes_data_regex (i_string d)); [|done].
  destruct (episode_range _ _) as [e|rng]; [done|].
  destruct (existsb _ _); [apply IH|]. by rewrite IH.
Qed.

(** What the batch loop stores for blocks that parse: a range that is not
    empty, or [None] for a block whose range is empty, and such a block is
    never skipped. *)
Lemma parse_batch_episodes_loop_stored divs st :
  Forall batch_block_ok divs →
  has_range [] (episodes st) = false →
  ∃ new,
    episodes (parse_batch_episodes_loop divs st).1 = episodes st ++ new ∧
    (Forall batch_block_ranged divs →
     Forall (λ e, ∃ z l, episode_number e = PList (z :: l)) new) ∧
    (Exists batch_block_empty divs →
     ∃ e, e ∈ new ∧ episode_number e = PNone).
Proof.
  intros Hgood. revert st.
  induction Hgood as [|d divs Hd _ IH]; intros st Hst.
  { exists []. simpl. rewrite app_nil_r. split; [done|].
    split; [by constructor|]. intros H. by apply Exists_nil in H. }
  destruct (batch_block_ok_range d Hd) as (m & rng & Hm & Hrng).
  assert (Hranged : batch_block_ranged d → rng ≠ []).
  { intros (m' & rng' & Hm' & Hrng' & Hne). congruence. }
  assert (Hempty : batch_block_empty d → rng = []).
  { intros (m' & Hm' & Hrng'). congruence. }
  simpl. rewrite Hm, Hrng. fold (has_range rng (episodes st)).
  destruct (has_range rng (episodes st)) eqn:Hdup.
  - destruct (IH st Hst) as (new & Heps & Hall & Hex).
    exists new. split; [done|]. split.
    + intros [_ H]%Forall_cons. by apply Hall.
    + intros [H|H]%Exists_cons; [|by apply Hex].
      apply Hempty in H. congruence.
  - set (e0 := Episode (match rng with [] => PNone | _ => PList rng end)
                 (group 3 m) (magnet_href d)).
    set (st1 := _add_episode _ _ _ _ st).
    assert (Heps1 : episodes st1 = episodes st ++ [e0]).
    { subst st1 e0. simpl. by destruct rng. }
    destruct (IH st1) as (new & Heps & Hall & Hex).
    { rewrite Heps1, has_range_app, Hst. simpl. rewrite orb_false_r.
      apply bool_decide_eq_false_2. subst e0. simpl. by destruct rng. }
    exists (e0 :: new). split; [by rewrite Heps, Heps1, <- app_assoc|].
    split.
    + intros [H1 H2]%Forall_cons. constructor; [|by apply Hall].
      apply Hranged in H1. subst e0. simpl. destruct rng; [done|by eexists _, _].
    + intros [H|H]%Exists_cons.
      * exists e0. split; [apply list_elem_of_here|].
        apply Hempty in H. by subst e0 rng.
      * destruct (Hex H) as (e & He & Hnum).
        exists e. split; [by apply list_elem_of_further|done].
Qed.

(** C7 (the code departs from the claim when [debug] is on).  When the
    identifier is resolved, the single-episode listing has no release block
    and every block of the batch page parses, the constructor comes through
    the batch phase: [episodes_available] is [None], the object is what the
    batch phase made of a fresh one, [parse_all_in_parallel] is not entered
    (no thread exists, the page cursor is still 0) and the collection holds
    batch entries only; with a single batch release from [first] up to
    [last] it is the one entry whose [episode_number] is the expanded range.
    What is left is the [debug] block.  With [debug] off, or when every range
    is non-empty, or with at most one entry, the constructor returns and
    nothing can take a step afterwards.  With [debug] on, two or more
    entries and a block whose range is empty, which is stored under [None],
    the sort of the [debug] block compares [None] with another key and the
    constructor ends in a [TypeError]. *)
Theorem init_without_standalone_episodes
    get_html release_links regex_failure_is_horriblesubs
    show_id show_url debug sid :
  resolve_show_id get_html show_id show_url = inr sid →
  release_links (get_html (episodes_url "show" sid)) = [] →
  Forall batch_block_ok
    (release_links (get_html (episodes_url "batch" sid))) →
  let blocks := release_links (get_html (episodes_url "batch" sid)) in
  let st := (parse_batch_episodes release_links
               (get_html (episodes_url "batch" sid))
               (Scraper sid None false [] [] ∅ 0 debug)).1 in
  __init__ get_html release_links regex_failure_is_horriblesubs
    show_id show_url debug = inr (Machine st CReturned []) ∧
  episodes_available st = None ∧
  threads st = [] ∧ episodes_page_number st = 0%nat ∧
  single_numerals (episodes st) = [] ∧
  (∀ i, run_turn get_html release_links (Worker i) (Machine st CReturned [])
        = None) ∧
  (debug = false ∨ Forall batch_block_ranged blocks
   ∨ (length (episodes st) ≤ 1)%nat →
   run get_html release_links [Coordinator] (Machine st CReturned [])
   = Some (Machine st CDone []) ∧
   ∀ t, run_turn get_html release_links t (Machine st CDone []) = None) ∧
  (debug = true → Exists batch_block_empty blocks →
   (2 ≤ length (episodes st))%nat →
   run get_html release_links [Coordinator] (Machine st CReturned [])
   = Some (Machine st (CRaised TypeError) [])) ∧
  (∀ d m first last,
     blocks = [d] →
     rmatch batch_episodes_data_regex (i_string d) = Some m →
     int (group 1 m) = inr first → int (group 2 m) = inr last →
     first ≤ last →
     episodes st
     = [Episode (PList (seqZ first (last - first + 1))) (group 3 m)
          (magnet_href d)]).
Proof.
  intros Hsid Hnone Hbatch blocks st. subst blocks.
  set (divs := rev (release_links (get_html (episodes_url "batch" sid)))).
  pose proof (parse_batch_episodes_loop_debug divs
                (Scraper sid None false [] [] ∅ 0 debug)) as Hdbg.
  simpl in Hdbg.
  set (st0 := Scraper sid None false [] [] ∅ 0 debug) in *.
  assert (Hrev : Forall batch_block_ok divs) by by apply Forall_rev.
  destruct (parse_batch_episodes_loop_good divs st0 Hrev)
    as (new & Hexn & _).
  destruct (parse_batch_episodes_loop_stored divs st0 Hrev eq_refl)
    as (stored & Heps & Hranged & Hempty).
  destruct (parse_batch_episodes_loop_frame divs st0)
    as (_ & Hav & _ & Hth & Hpg).
  pose proof (parse_batch_episodes_loop_dedup_invariant divs st0
                (fresh_dedup_invariant sid None debug)) as [_ _ Hne _].
  subst divs.
  fold (parse_batch_episodes release_links
          (get_html (episodes_url "batch" sid)) st0)
    in Hexn, Heps, Hav, Hth, Hpg, Hdbg, Hne.
  fold st in Heps, Hav, Hth, Hpg, Hdbg, Hne.
  change (episodes st0 ++ stored) with stored in Heps.
  assert (Hsingles : single_numerals (episodes st) = []).
  { subst st. unfold parse_batch_episodes.
    by rewrite parse_batch_episodes_loop_singles. }
  assert (Hstep : run get_html release_links [Coordinator]
                    (Machine st CReturned [])
                  = Some (Machine st
                            (match debug_block st with
                             | Some e => CRaised e
                             | None => CDone
                             end) [])) by done.
  destruct (debug_block_sorted st Hne) as [Hfine Hraise].
  refine (conj _ (conj Hav (conj Hth (conj Hpg (conj Hsingles
            (conj _ (conj _ (conj _ _)))))))).
  - unfold __init__, init_batch_phase, resolve_episodes_available,
      get_most_recent_episode_number.
    rewrite Hsid, Hnone. simpl. fold st0.
    destruct (parse_batch_episodes _ _ _) as [st' o] eqn:E.
    simpl in Hexn. subst o. unfold pagination_wanted.
    subst st. simpl in *. by rewrite Hav.
  - done.
  - intros Hcase. split; [|by intros [|i]].
    rewrite Hstep, Hfine; [done|]. rewrite Hdbg.
    destruct Hcase as [?|[Hall|Hle]]; [by left|right..].
    + right. exists KInt. rewrite Heps.
      eapply Forall_impl; [apply Hranged; by apply Forall_rev|].
      intros e (z & l & Hnum). unfold debug_key_kind. by rewrite Hnum.
    + by left.
  - intros Hon Hex Hlen. rewrite Hstep, Hraise; [done|by rewrite Hdbg|].
    destruct Hempty as (e & He & Hnum).
    { by apply Exists_rev. }
    rewrite <- Heps in He.
    intros [Hle|[k Hk]]; [lia|].
    rewrite Forall_forall in Hk. specialize (Hk e He).
    unfold debug_key_kind in Hk. by rewrite Hnum in Hk.
  - intros d m first last Hdoc Hm Hf Hl Hle. subst st st0.
    unfold parse_batch_episodes. rewrite Hdoc. simpl.
    unfold episode_range. rewrite Hm, Hf, Hl. simpl.
    unfold range. replace (last + 1 - first) with (last - first + 1) by lia.
    destruct (seqZ first (last - first + 1)) as [|z rng] eqn:E; [|done].
    apply (f_equal length) in E. rewrite length_seqZ in E. simpl in E. lia.
Qed.

Lemma init_without_standalone_episodes_witness :
  ∃ st,
    __init__ backwards_web backwards_soup true PNone
      (Some "http://horriblesubs.info/shows/x") true
    = inr (Machine st CReturned []) ∧
    (episode_number <$> episodes st) = [PList [1; 2]; PNone] ∧
    run backwards_web backwards_soup [Coordinator] (Machine st CReturned [])
    = Some (Machine st (CRaised TypeError) []).
Proof.
  destruct (init_without_standalone_episodes backwards_web backwards_soup
              true PNone (Some "http://horriblesubs.info/shows/x") true
              (PStr "56")) as (Hinit & _ & _ & _ & _ & _ & _ & Hraise & _).
  - reflexivity.
  - reflexivity.
  - repeat constructor.
    + exists ["5"; "3"; "1080p"]. split; [reflexivity|]. split; discriminate.
    + exists ["1"; "2"; "1080p"]. split; [reflexivity|]. split; discriminate.
  - eexists. split; [exact Hinit|]. split; [reflexivity|].
    apply Hraise.
    + reflexivity.
    + apply Exists_cons_hd. exists ["5"; "3"; "1080p"]. by split.
    + vm_compute. lia.
Defined.

(** The same constructor call on a show with one batch release returns, with
    [debug] on as well. *)
Example batch_only_show_returns :
  ∃ st,
    __init__ batch_only_web batch_only_soup true PNone
      (Some "http://horriblesubs.info/shows/x") true
    = inr (Machine st CReturned []) ∧
    episodes_available st = None ∧
    episodes st
    = [Episode (PList [1; 2; 3; 4; 5; 6; 7; 8; 9; 10; 11; 12; 13]) "1080p"
         "magnet:?xt=b113"] ∧
    run batch_only_web batch_only_soup [Coordinator] (Machine st CReturned [])
    = Some (Machine st CDone []).
Proof. eexists. repeat split; reflexivity. Qed.

(** ** The threads of the pagination phase (lines 117-127, 180-181) *)

Section Machine.

Variable get_html : string → string.
Variable release_links : string → list block.

(** A worker only ever touches the collection, the collected set and the
    flag. *)
Lemma worker_step_frame w st w' st' :
  worker_step w st = Some (w', st') →
  show_id st' = show_id st ∧
  episodes_available st' = episodes_available st ∧
  threads st' = threads st ∧
  episodes_page_number st' = episodes_page_number st.
Proof.
  destruct w as [[|d divs]| | | | |]; simpl.
  - by intros [= <- <-].
  - destruct (rmatch episode_data_regex (i_string d)); [|by intros [= <- <-]].
    case_bool_decide; by intros [= <- <-].
  - by intros [= <- <-].
  - by intros [= <- <-].
  - by intros [= <- <-].
  - done.
  - done.
Qed.

(** The flag is written by a worker in [WSignal] and by nothing else: every
    other step leaves it as it is. *)
Lemma worker_step_flag w st w' st' :
  worker_step w st = Some (w', st') →
  (w = WSignal ∧ w' = WDone ∧ all_episodes_acquired st' = true) ∨
  (w ≠ WSignal ∧ all_episodes_acquired st' = all_episodes_acquired st).
Proof.
  destruct w as [[|d divs]| | | | |]; simpl.
  - intros [= <- <-]. by right.
  - destruct (rmatch episode_data_regex (i_string d));
      [|intros [= <- <-]; by right].
    case_bool_decide; intros [= <- <-]; by right.
  - intros [= <- <-]. by right.
  - intros [= <- <-]. by right.
  - intros [= <- <-]. by left.
  - done.
  - done.
Qed.

Lemma coordinator_step_flag m m' :
  coordinator_step get_html release_links m = Some m' →
  all_episodes_acquired (self m') = all_episodes_acquired (self m).
Proof.
  unfold coordinator_step.
  destruct (coord m) as [html| | |e]; [|by intros [= <-]|done..].
  destruct (_ && _); by intros [= <-].
Qed.

Lemma step_flag_monotone m m' :
  step get_html release_links m m' →
  all_episodes_acquired (self m) = true →
  all_episodes_acquired (self m') = true.
Proof.
  intros [[|i] Hstep]; simpl in Hstep.
  - by rewrite (coordinator_step_flag _ _ Hstep).
  - unfold worker_turn in Hstep.
    destruct (workers m !! i) as [w|]; [|done].
    destruct (worker_step w (self m)) as [[w' st']|] eqn:E; [|done].
    injection Hstep as <-. simpl.
    destruct (worker_step_flag _ _ _ _ E) as [(_ & _ & ->)|[_ ->]]; done.
Qed.



(** The single-episode loop leaves everything but the collection and the
    collected set alone. *)
Lemma parse_episodes_loop_frame divs st :
  let st' := (parse_episodes_loop divs st).1 in
  show_id st' = show_id st ∧
  episodes_available st' = episodes_available st ∧
  all_episodes_acquired st' = all_episodes_acquired st ∧
  threads st' = threads st ∧
  episodes_page_number st' = episodes_page_number st.
Proof.
  revert st. induction divs as [|d divs IH]; intros st; simpl; [done|].
  destruct (rmatch episode_data_regex (i_string d)); [|done].
  case_bool_decide; [apply IH|].
  destruct (IH (_add_episode (PStr (group 1 l)) None (group 2 l)
                  (magnet_href d) st)) as (-> & -> & -> & -> & ->).
  done.
Qed.

Lemma parse_episodes_flag html st :
  (parse_episodes release_links html st).2 = None →
  all_episodes_acquired (parse_episodes release_links html st).1
  = all_episodes_acquired st || collected_all (parse_episodes release_links html st).1.
Proof.
  unfold parse_episodes.
  pose proof (parse_episodes_loop_frame (rev (release_links html)) st)
    as (_ & _ & Hflag & _).
  destruct (parse_episodes_loop _ st) as [st' [e|]]; [done|].
  intros _. simpl in *. destruct (collected_all st') eqn:E; simpl.
  - unfold collected_all in *. simpl. rewrite E. by rewrite orb_true_r.
  - by rewrite E, orb_false_r.
Qed.



(** *** A worker on its own is [parse_episodes]

    When nothing else runs in between, the steps of a worker add up to the
    method it executes. *)

Lemma worker_alone_loop divs st :
  rtc wstep (WLoop divs, st)
    (match (parse_episodes_loop divs st).2 with
     | Some e => WRaised e
     | None => WLoop []
     end, (parse_episodes_loop divs st).1).
Proof.
  revert st. induction divs as [|d divs IH]; intros st; simpl; [done|].
  destruct (rmatch episode_data_regex (i_string d)) as [m|] eqn:Hm.
  - case_bool_decide as Hin.
    + eapply rtc_l; [|apply IH]. unfold wstep. simpl.
      by rewrite Hm, bool_decide_eq_true_2.
    + eapply rtc_l.
      { unfold wstep. simpl. by rewrite Hm, bool_decide_eq_false_2. }
      eapply rtc_l; [reflexivity|]. eapply rtc_l; [reflexivity|]. apply IH.
  - apply rtc_once. unfold wstep. simpl. by rewrite Hm.
Qed.

Lemma worker_alone html st :
  rtc wstep (WLoop (rev (release_links html)), st)
    (outcome (parse_episodes release_links html st).2,
     (parse_episodes release_links html st).1) ∧
  worker_step (outcome (parse_episodes release_links html st).2)
    (parse_episodes release_links html st).1 = None.
Proof.
  unfold parse_episodes.
  pose proof (worker_alone_loop (rev (release_links html)) st) as Hloop.
  destruct (parse_episodes_loop _ st) as [st' [e|]]; simpl in *; [done|].
  split; [|done]. etrans; [exact Hloop|].
  destruct (collected_all st') eqn:E.
  - eapply rtc_l; [unfold wstep; simpl; by rewrite E|]. by apply rtc_once.
  - apply rtc_once. unfold wstep. simpl. by rewrite E.
Qed.


End Machine.


Example covered_show_run :
  let m := after [Coordinator; Worker 0; Worker 0; Coordinator] covered_start in
  (coord m, workers m, all_episodes_acquired (self m), threads (self m),
   episodes_page_number (self m))
  = (CReturned, [WDone], true, ["ep_parse_0"], 1%nat).
Proof. reflexivity. Qed.

(** ** No join (lines 78-101, 117-127) *)

(** The coordinator never looks at the workers: what it does next depends on
    the page at hand and on the flag, and the workers are carried along. *)
Lemma coordinator_never_waits get_html release_links st c ws :
  coordinator_step get_html release_links (Machine st c ws)
  = (λ m, Machine (self m) (coord m) (ws ++ workers m))
    <$> coordinator_step get_html release_links (Machine st c []).
Proof.
  unfold coordinator_step. simpl.
  destruct c as [html| | |e]; [|simpl; by rewrite app_nil_r|done..].
  destruct (_ && _); simpl; [done|]. by rewrite app_nil_r.
Qed.

(** C8 (the code departs from the claim).  The threads are put in
    [self.threads] and never joined.  On a show with one episode the
    coordinator starts the thread of page 0, fetches page 1, gets the end
    marker, leaves the loop and returns from the constructor while that
    thread has not yet looked at its page: the collection is empty at that
    point, and the entry of episode 1 is appended after the constructor has
    returned. *)
Theorem constructor_returns_before_threads_finish :
  ∃ m m1 m2,
    __init__ one_episode_web one_episode_soup true PNone
      (Some "http://horriblesubs.info/shows/x") false = inr m ∧
    run one_episode_web one_episode_soup
      [Coordinator; Coordinator; Coordinator] m
    = Some m1 ∧
    coord m1 = CDone ∧
    threads (self m1) = ["ep_parse_0"] ∧
    workers m1 = [WLoop [Block "Show - 01 [1080p]" "magnet:?xt=e1"]] ∧
    forallb worker_finished (workers m1) = false ∧
    episodes (self m1) = [] ∧
    run one_episode_web one_episode_soup
      [Worker 0; Worker 0; Worker 0; Worker 0] m1 = Some m2 ∧
    workers m2 = [WDone] ∧
    episodes (self m2) = [Episode (PStr "01") "1080p" "magnet:?xt=e1"].
Proof.
  eexists _, _, _.
  split; [vm_compute; reflexivity|].
  split; [vm_compute; reflexivity|].
  do 5 (split; [reflexivity|]).
  split; [vm_compute; reflexivity|].
  split; reflexivity.
Qed.

(** ** Two observations on the shared state *)

(** Batch numbers are stored as [int]s and single numerals as [str]s.  The
    page parse therefore does not see that episode 3 came with the batch, and
    once a single episode is collected the comparison with
    [episodes_available], a set of [int]s, no longer holds. *)
Example batch_number_not_seen_by_page :
  let st := (parse_episodes covered_soup "more" (self covered_start)).1 in
  collected_all (self covered_start) = true ∧
  (episode_number <$> episodes st) = [PList [1; 2; 3]; PStr "03"] ∧
  collected_all st = false ∧ all_episodes_acquired st = false.
Proof. repeat split; reflexivity. Qed.

(** Test and update are separate steps and no lock joins them: two threads
    can both find episode 01 missing and both append it. *)
Example unlocked_threads_append_twice :
  ∃ m m',
    __init__ twice_web twice_soup true PNone
      (Some "http://horriblesubs.info/shows/x") false = inr m ∧
    run twice_web twice_soup
      [Coordinator; Coordinator; Worker 0; Worker 1; Worker 0; Worker 1;
       Worker 0; Worker 1] m = Some m' ∧
    (episode_number <$> episodes (self m')) = [PStr "01"; PStr "01"].
Proof.
  eexists _, _. split; [vm_compute; reflexivity|].
  split; [vm_compute; reflexivity|]. reflexivity.
Qed.

(** * Further properties of the code *)

(** ** What the two label patterns accept and extract *)

Lemma str_exists_app p a b :
  str_exists p (a +:+ b) = str_exists p a || str_exists p b.
Proof.
  induction a as [|c a IH]; norm_append; simpl; [done|].
  by rewrite IH, orb_assoc.
Qed.

Lemma str_forall_app p a b :
  str_forall p (a +:+ b) = str_forall p a && str_forall p b.
Proof.
  induction a as [|c a IH]; norm_append; simpl; [done|].
  by rewrite IH, andb_assoc.
Qed.

Lemma str_forall_not_exists (p q : ascii → bool) s :
  (∀ c, p c = true → q c = false) →
  str_forall p s = true → str_exists q s = false.
Proof.
  intros Hpq. induction s as [|c s IH]; simpl; [done|].
  intros [Hc Hs]%andb_prop. by rewrite (Hpq _ Hc), IH.
Qed.

(** Two ways of cutting one text: the longer head extends the shorter. *)
Lemma append_split a b c d :
  a +:+ b = c +:+ d → (String.length a ≤ String.length c)%nat →
  ∃ x, c = a +:+ x ∧ b = x +:+ d.
Proof.
  revert c. induction a as [|ch a IH]; intros c H Hlen; norm_append.
  - by exists c.
  - destruct c as [|ch' c]; simpl in Hlen; [lia|]. norm_append.
    injection H as <- H. destruct (IH c H) as (x & -> & ->); [lia|].
    by exists x.
Qed.

(** A star followed by something the class cannot start: when the rest of
    the pattern matches after the whole run, that is the match. *)
Lemma star_exact cls m rest k g :
  str_forall cls m = true → starts_with cls rest = false →
  k m rest = Some g → star cls (m +:+ rest) k = Some g.
Proof.
  revert k. induction m as [|c m IH]; intros k Hm Hrest Hk; norm_append.
  - destruct rest as [|c rest]; simpl in *; [done|]. by rewrite Hrest.
  - simpl in *. apply andb_prop in Hm as [-> Hm].
    by rewrite (IH (λ m' r, k (String c m') r)).
Qed.

Lemma ep_char_facts c :
  ep_char c = true →
  Ascii.eqb "-"%char c = false ∧ Ascii.eqb " "%char c = false ∧
  dot c = true.
Proof. destruct c as [[] [] [] [] [] [] [] []]; vm_compute; intuition. Qed.

Lemma digit_facts c :
  is_digit c = true →
  Ascii.eqb "-"%char c = false ∧ Ascii.eqb "("%char c = false ∧
  ep_char c = true.
Proof. destruct c as [[] [] [] [] [] [] [] []]; vm_compute; intuition. Qed.

(** The single-episode pattern, with the continuations written out. *)
Lemma episode_data_regex_unfold label :
  rmatch episode_data_regex label
  = star dot label (λ _ r0,
      match lit " - " r0 with
      | Some r1 =>
          star ep_char r1 (λ n r2,
            match lit " [" r2 with
            | Some r3 =>
                star is_digit r3 (λ d r4,
                  match lit "p" r4 with
                  | Some r5 =>
                      match lit "]" r5 with
                      | Some _ => Some [n; d +:+ "p"]
                      | None => None
                      end
                  | None => None
                  end)
            | None => None
            end)
      | None => None
      end).
Proof. reflexivity. Qed.

(** X1.  Every match of the single-episode pattern cuts the label into a
    title without newline, the text [ - ], a numeral of dots, digits and
    letters, the text [ [], digits, the text [p]] and whatever follows; the
    groups are the numeral and the digits with their [p]. *)
Theorem episode_label_shape label m :
  rmatch episode_data_regex label = Some m →
  ∃ title n d rest,
    label = title +:+ " - " +:+ n +:+ " [" +:+ d +:+ "p]" +:+ rest ∧
    m = [n; d +:+ "p"] ∧
    str_forall dot title = true ∧ str_forall ep_char n = true ∧
    str_forall is_digit d = true.
Proof.
  rewrite episode_data_regex_unfold. intros H.
  apply star_Some in H as (title & r0 & -> & Ht & H & _).
  destruct (lit " - " r0) as [r1|] eqn:E1; [|done].
  apply lit_Some in E1 as ->.
  apply star_Some in H as (n & r2 & -> & Hn & H & _).
  destruct (lit " [" r2) as [r3|] eqn:E2; [|done].
  apply lit_Some in E2 as ->.
  apply star_Some in H as (d & r4 & -> & Hd & H & _).
  destruct (lit "p" r4) as [r5|] eqn:E3; [|done].
  apply lit_Some in E3 as ->.
  destruct (lit "]" r5) as [r6|] eqn:E4; [|done].
  apply lit_Some in E4 as ->.
  injection H as <-. by exists title, n, d, r6.
Qed.

Lemma episode_label_shape_witness :
  ∃ title n d rest,
    "Naruto Shippuuden - 495 [1080p]"
    = title +:+ " - " +:+ n +:+ " [" +:+ d +:+ "p]" +:+ rest ∧
    ["495"; "1080p"] = [n; d +:+ "p"] ∧
    str_forall dot title = true ∧ str_forall ep_char n = true ∧
    str_forall is_digit d = true.
Proof.
  apply (episode_label_shape "Naruto Shippuuden - 495 [1080p]"). reflexivity.
Defined.

(** X2.  A label made of a title without newline, [ - ], a numeral of dots,
    digits and letters, [ [], digits and [p]], followed by anything that
    holds no dash, is matched, and the groups are exactly that numeral and
    those digits with their [p]: the title may itself hold [ - ], the last
    one counts. *)
Theorem episode_label_extraction title n d rest :
  str_forall dot title = true → str_forall ep_char n = true →
  str_forall is_digit d = true →
  str_exists (Ascii.eqb "-"%char) rest = false →
  rmatch episode_data_regex
    (title +:+ " - " +:+ n +:+ " [" +:+ d +:+ "p]" +:+ rest)
  = Some [n; d +:+ "p"].
Proof.
  intros Ht Hn Hd Hrest. rewrite episode_data_regex_unfold.
  set (S := n +:+ " [" +:+ d +:+ "p]" +:+ rest).
  set (k0 := λ (_ r0 : string), match lit " - " r0 with
                                | Some r1 => _ | None => None end).
  assert (Hk : ∀ pre, k0 pre (" - " +:+ S) = Some [n; d +:+ "p"]).
  { intros pre. unfold k0.
    rewrite (proj2 (lit_Some " - " (" - " +:+ S) S) eq_refl).
    apply star_exact; [done|done|].
    rewrite (proj2 (lit_Some " [" _ (d +:+ "p]" +:+ rest)) eq_refl).
    apply star_exact; [done|done|].
    rewrite (proj2 (lit_Some "p" ("p]" +:+ rest) ("]" +:+ rest)) eq_refl).
    by rewrite (proj2 (lit_Some "]" ("]" +:+ rest) rest) eq_refl). }
  assert (HS : str_exists (Ascii.eqb "-"%char) (" " +:+ S) = false).
  { subst S. rewrite !str_exists_app, Hrest. simpl.
    rewrite (str_forall_not_exists ep_char _ n), (str_forall_not_exists is_digit _ d);
      [done| |done| |done].
    - intros c Hc. by destruct (digit_facts c Hc) as (-> & _).
    - intros c Hc. by destruct (ep_char_facts c Hc) as (-> & _). }
  destruct (star_is_Some dot _ k0 title (" - " +:+ S) eq_refl Ht)
    as [g Hg]; [by rewrite Hk|].
  rewrite Hg. f_equal.
  apply star_Some in Hg as (pre & r0 & Hcut & Hpre & Hg & Hmax).
  assert (Hlen : (String.length title ≤ String.length pre)%nat).
  { destruct (decide (String.length title ≤ String.length pre)%nat); [done|].
    pose proof (Hk title) as Hk1.
    rewrite (Hmax title (" - " +:+ S)) in Hk1; [done..|lia]. }
  destruct (append_split _ _ _ _ Hcut Hlen) as (x & -> & Hx).
  pose proof Hg as Hg'. unfold k0 in Hg'.
  destruct (lit " - " r0) as [r1|] eqn:E1; [|done]. clear Hg'.
  apply lit_Some in E1 as ->.
  destruct x as [|c x]; norm_append.
  - rewrite <- Hx, Hk in Hg. congruence.
  - injection Hx as <- Hx. destruct x as [|c x]; norm_append; [done|].
    injection Hx as <- Hx. rewrite Hx, !str_exists_app in HS.
    simpl in HS. by rewrite orb_true_r in HS.
Qed.

Lemma episode_label_extraction_witness :
  rmatch episode_data_regex
    ("Re - Zero" +:+ " - " +:+ "07v2" +:+ " [" +:+ "720" +:+ "p]" +:+ " (rip)")
  = Some ["07v2"; "720" +:+ "p"].
Proof. by apply episode_label_extraction. Defined.

(** The batch pattern, with the continuations written out. *)
Lemma batch_episodes_data_regex_unfold label :
  rmatch batch_episodes_data_regex label
  = star dot label (λ _ r0,
      match lit " (" r0 with
      | Some r1 =>
          star is_digit r1 (λ f r2,
            match lit "-" r2 with
            | Some r3 =>
                star is_digit r3 (λ l r4,
                  match lit ") [" r4 with
                  | Some r5 =>
                      star is_digit r5 (λ d r6,
                        match lit "p" r6 with
                        | Some r7 =>
                            match lit "]" r7 with
                            | Some _ => Some [f; l; d +:+ "p"]
                            | None => None
                            end
                        | None => None
                        end)
                  | None => None
                  end)
            | None => None
            end)
      | None => None
      end).
Proof. reflexivity. Qed.

(** X3.  Every match of the batch pattern cuts the label into a title
    without newline, [ (], digits, a dash, digits, [) [], digits, [p]] and
    whatever follows; the groups are the two runs of digits and the
    resolution. *)
Theorem batch_label_shape label m :
  rmatch batch_episodes_data_regex label = Some m →
  ∃ title f l d rest,
    label = title +:+ " (" +:+ f +:+ "-" +:+ l +:+ ") [" +:+ d +:+ "p]"
            +:+ rest ∧
    m = [f; l; d +:+ "p"] ∧
    str_forall dot title = true ∧ str_forall is_digit f = true ∧
    str_forall is_digit l = true ∧ str_forall is_digit d = true.
Proof.
  rewrite batch_episodes_data_regex_unfold. intros H.
  apply star_Some in H as (title & r0 & -> & Ht & H & _).
  destruct (lit " (" r0) as [r1|] eqn:E1; [|done].
  apply lit_Some in E1 as ->.
  apply star_Some in H as (f & r2 & -> & Hf & H & _).
  destruct (lit "-" r2) as [r3|] eqn:E2; [|done].
  apply lit_Some in E2 as ->.
  apply star_Some in H as (l & r4 & -> & Hl & H & _).
  destruct (lit ") [" r4) as [r5|] eqn:E3; [|done].
  apply lit_Some in E3 as ->.
  apply star_Some in H as (d & r6 & -> & Hd & H & _).
  destruct (lit "p" r6) as [r7|] eqn:E4; [|done].
  apply lit_Some in E4 as ->.
  destruct (lit "]" r7) as [r8|] eqn:E5; [|done].
  apply lit_Some in E5 as ->.
  injection H as <-. by exists title, f, l, d, r8.
Qed.

Lemma batch_label_shape_witness :
  ∃ title f l d rest,
    "Naruto Shippuuden (80-426) [1080p]"
    = title +:+ " (" +:+ f +:+ "-" +:+ l +:+ ") [" +:+ d +:+ "p]" +:+ rest ∧
    ["80"; "426"; "1080p"] = [f; l; d +:+ "p"] ∧
    str_forall dot title = true ∧ str_forall is_digit f = true ∧
    str_forall is_digit l = true ∧ str_forall is_digit d = true.
Proof.
  apply (batch_label_shape "Naruto Shippuuden (80-426) [1080p]").
  reflexivity.
Defined.

(** X4.  A label made of a title without newline, [ (], digits, a dash,
    digits, [) [], digits and [p]], followed by anything that holds no
    opening parenthesis, is matched, and the groups are exactly those three
    runs of digits (the last with its [p]). *)
Theorem batch_label_extraction title f l d rest :
  str_forall dot title = true → str_forall is_digit f = true →
  str_forall is_digit l = true → str_forall is_digit d = true →
  str_exists (Ascii.eqb "("%char) rest = false →
  rmatch batch_episodes_data_regex
    (title +:+ " (" +:+ f +:+ "-" +:+ l +:+ ") [" +:+ d +:+ "p]" +:+ rest)
  = Some [f; l; d +:+ "p"].
Proof.
  intros Ht Hf Hl Hd Hrest. rewrite batch_episodes_data_regex_unfold.
  set (S := f +:+ "-" +:+ l +:+ ") [" +:+ d +:+ "p]" +:+ rest).
  set (k0 := λ (_ r0 : string), match lit " (" r0 with
                                | Some r1 => _ | None => None end).
  assert (Hk : ∀ pre, k0 pre (" (" +:+ S) = Some [f; l; d +:+ "p"]).
  { intros pre. unfold k0.
    rewrite (proj2 (lit_Some " (" (" (" +:+ S) S) eq_refl).
    apply star_exact; [done|done|].
    rewrite (proj2 (lit_Some "-" _ (l +:+ ") [" +:+ d +:+ "p]" +:+ rest))
               eq_refl).
    apply star_exact; [done|done|].
    rewrite (proj2 (lit_Some ") [" _ (d +:+ "p]" +:+ rest)) eq_refl).
    apply star_exact; [done|done|].
    rewrite (proj2 (lit_Some "p" ("p]" +:+ rest) ("]" +:+ rest)) eq_refl).
    by rewrite (proj2 (lit_Some "]" ("]" +:+ rest) rest) eq_refl). }
  assert (Hno : ∀ s, str_forall is_digit s = true →
                     str_exists (Ascii.eqb "("%char) s = false).
  { intros s. apply str_forall_not_exists.
    intros c Hc. by destruct (digit_facts c Hc) as (_ & -> & _). }
  assert (HS : str_exists (Ascii.eqb "("%char) S = false).
  { subst S.
    rewrite !str_exists_app, Hrest, (Hno f), (Hno l), (Hno d) by done.
    reflexivity. }
  destruct (star_is_Some dot _ k0 title (" (" +:+ S) eq_refl Ht)
    as [g Hg]; [by rewrite Hk|].
  rewrite Hg. f_equal.
  apply star_Some in Hg as (pre & r0 & Hcut & Hpre & Hg & Hmax).
  assert (Hlen : (String.length title ≤ String.length pre)%nat).
  { destruct (decide (String.length title ≤ String.length pre)%nat); [done|].
    pose proof (Hk title) as Hk1.
    rewrite (Hmax title (" (" +:+ S)) in Hk1; [done..|lia]. }
  destruct (append_split _ _ _ _ Hcut Hlen) as (x & -> & Hx).
  pose proof Hg as Hg'. unfold k0 in Hg'.
  destruct (lit " (" r0) as [r1|] eqn:E1; [|done]. clear Hg'.
  apply lit_Some in E1 as ->.
  destruct x as [|c x]; norm_append.
  - rewrite <- Hx, Hk in Hg. congruence.
  - injection Hx as <- Hx. destruct x as [|c x]; norm_append; [done|].
    injection Hx as <- Hx. rewrite Hx, !str_exists_app in HS.
    simpl in HS. by rewrite orb_true_r in HS.
Qed.

Lemma batch_label_extraction_witness :
  rmatch batch_episodes_data_regex
    ("Show (Uncut)" +:+ " (" +:+ "01" +:+ "-" +:+ "12" +:+ ") [" +:+ "1080"
     +:+ "p]" +:+ "")
  = Some ["01"; "12"; "1080" +:+ "p"].
Proof. by apply batch_label_extraction. Defined.

(** ** What a page parse does to the object *)

Lemma single_numerals_cons_single s r mg es :
  single_numerals (Episode (PStr s) r mg :: es) = s :: single_numerals es.
Proof. reflexivity. Qed.

Lemma collected_add_single n vid_res magnet st :
  episode_numbers_collected (_add_episode (PStr n) None vid_res magnet st)
  = episode_numbers_collected st ∪ {[PStr n]}.
Proof. reflexivity. Qed.

(** The single-episode loop, whether it ends normally or not. *)
Lemma parse_episodes_loop_effect divs st :
  ∃ new,
    episodes (parse_episodes_loop divs st).1 = episodes st ++ new ∧
    Forall is_single new ∧
    NoDup (single_numerals new) ∧
    (∀ s, s ∈ single_numerals new → PStr s ∉ episode_numbers_collected st) ∧
    episode_numbers_collected (parse_episodes_loop divs st).1
    = episode_numbers_collected st
      ∪ list_to_set (PStr <$> single_numerals new).
Proof.
  assert (Hnil : ∀ st0 : scraper,
            episodes st0 = episodes st0 ++ [] ∧ Forall is_single [] ∧
            NoDup (single_numerals []) ∧
            (∀ s, s ∈ single_numerals [] →
                  PStr s ∉ episode_numbers_collected st0) ∧
            episode_numbers_collected st0
            = episode_numbers_collected st0
              ∪ list_to_set (PStr <$> single_numerals [])).
  { intros st0. rewrite app_nil_r. do 3 (split; [by constructor|]).
    split; [intros s Hs; by apply elem_of_nil in Hs|].
    simpl. by rewrite (right_id_L ∅ (∪)). }
  revert st. induction divs as [|d divs IH]; intros st; simpl.
  - exists []. apply Hnil.
  - destruct (rmatch episode_data_regex (i_string d)) as [m|];
      [|exists []; apply Hnil].
    case_bool_decide as Hin; [apply IH|].
    destruct (IH (_add_episode (PStr (group 1 m)) None (group 2 m)
                    (magnet_href d) st))
      as (new & Heps & Hsingle & Hnodup & Hfresh & Hcol).
    rewrite collected_add_single in Hfresh, Hcol.
    exists (Episode (PStr (group 1 m)) (group 2 m) (magnet_href d) :: new).
    rewrite single_numerals_cons_single.
    split; [by rewrite Heps; simpl; rewrite <- app_assoc|].
    split; [constructor; [by eexists|done]|].
    split.
    { constructor; [|done]. intros Hs. apply Hfresh in Hs. apply Hs.
      apply elem_of_union_r. by apply elem_of_singleton. }
    split.
    { intros s [->|Hs]%elem_of_cons; [done|].
      intros Hold. apply (Hfresh s Hs). by apply elem_of_union_l. }
    rewrite Hcol, fmap_cons, list_to_set_cons.
    by rewrite (assoc_L (∪)).
Qed.

(** X5.  Whatever the page and however the parse ends, [parse_episodes] only
    appends to the collection, and only single-episode entries; the numerals
    of the entries it appends are pairwise distinct and were not collected
    before; the collected set grows by exactly these numerals; the show id,
    [episodes_available], the thread list and the page cursor are left alone
    and the flag is never lowered. *)
Theorem parse_episodes_effect release_links html st :
  ∃ new,
    episodes (parse_episodes release_links html st).1 = episodes st ++ new ∧
    Forall is_single new ∧
    NoDup (single_numerals new) ∧
    (∀ s, s ∈ single_numerals new → PStr s ∉ episode_numbers_collected st) ∧
    episode_numbers_collected (parse_episodes release_links html st).1
    = episode_numbers_collected st
      ∪ list_to_set (PStr <$> single_numerals new) ∧
    show_id (parse_episodes release_links html st).1 = show_id st ∧
    episodes_available (parse_episodes release_links html st).1
    = episodes_available st ∧
    threads (parse_episodes release_links html st).1 = threads st ∧
    episodes_page_number (parse_episodes release_links html st).1
    = episodes_page_number st ∧
    (all_episodes_acquired st = true →
     all_episodes_acquired (parse_episodes release_links html st).1 = true).
Proof.
  unfold parse_episodes.
  destruct (parse_episodes_loop_effect (rev (release_links html)) st)
    as (new & Heps & Hsingle & Hnodup & Hfresh & Hcol).
  pose proof (parse_episodes_loop_frame (rev (release_links html)) st)
    as (Hid & Hav & Hflag & Hth & Hpg).
  exists new.
  destruct (parse_episodes_loop _ st) as [st' [e|]]; simpl in *.
  - by rewrite Hflag.
  - destruct (collected_all st'); simpl; [done|]. by rewrite Hflag.
Qed.

Lemma parse_episodes_effect_witness :
  ∃ new,
    episodes (parse_episodes (λ _, torn_page) "page"
                (fresh (PStr "7") None)).1 = [] ++ new ∧
    Forall is_single new ∧ NoDup (single_numerals new).
Proof.
  destruct (parse_episodes_effect (λ _, torn_page) "page"
              (fresh (PStr "7") None)) as (new & H1 & H2 & H3 & _).
  by exists new.
Defined.

(** A loop that ended normally matched every block. *)
Lemma parse_episodes_loop_matched divs st :
  (parse_episodes_loop divs st).2 = None →
  Forall (λ d, is_Some (rmatch episode_data_regex (i_string d))) divs.
Proof.
  revert st. induction divs as [|d divs IH]; intros st; simpl; [done|].
  destruct (rmatch episode_data_regex (i_string d)) as [m|] eqn:Hm; [|done].
  intros H. constructor; [by eexists|].
  case_bool_decide; by eapply IH.
Qed.

(** A loop over blocks whose numerals are all collected changes nothing. *)
Lemma parse_episodes_loop_collected divs st :
  Forall (λ d, ∃ m, rmatch episode_data_regex (i_string d) = Some m ∧
                    PStr (group 1 m) ∈ episode_numbers_collected st) divs →
  parse_episodes_loop divs st = (st, None).
Proof.
  induction 1 as [|d divs (m & Hm & Hin) _ IH]; simpl; [done|].
  by rewrite Hm, bool_decide_eq_true_2.
Qed.

(** X6.  Parsing a page a second time, right after a parse of the same page
    that ended normally, changes nothing: no entry is appended, the collected
    set and the flag stay as the first parse left them. *)
Theorem parse_episodes_idempotent release_links html st :
  (parse_episodes release_links html st).2 = None →
  parse_episodes release_links html (parse_episodes release_links html st).1
  = parse_episodes release_links html st.
Proof.
  unfold parse_episodes. set (divs := rev (release_links html)).
  destruct (parse_episodes_loop divs st) as [st1 o] eqn:E.
  destruct o as [e|]; [done|]. intros _. cbn [fst].
  assert (Hmatched : Forall (λ d, is_Some (rmatch episode_data_regex
                                             (i_string d))) divs).
  { apply (parse_episodes_loop_matched divs st). by rewrite E. }
  destruct (parse_episodes_loop_good divs st Hmatched)
    as (new & _ & _ & _ & _ & Hall).
  rewrite E in Hall. cbn [fst] in Hall.
  assert (Hagain : ∀ st2, episode_numbers_collected st2
                          = episode_numbers_collected st1 →
                          parse_episodes_loop divs st2 = (st2, None)).
  { intros st2 Hcol. apply parse_episodes_loop_collected.
    apply Forall_forall. intros d Hd.
    destruct (proj1 (Forall_forall _ _) Hmatched d Hd) as [m Hm].
    exists m. split; [done|]. rewrite Hcol. by apply (Hall d m). }
  destruct (collected_all st1) eqn:Hc.
  - rewrite Hagain by done.
    assert (collected_all (set_all_episodes_acquired true st1) = true) as ->
      by exact Hc.
    done.
  - rewrite Hagain by done. by rewrite Hc.
Qed.

Lemma parse_episodes_idempotent_witness :
  parse_episodes (λ _, [low_res; high_res]) "page"
    (parse_episodes (λ _, [low_res; high_res]) "page"
       (fresh (PStr "1") (Some {[PInt 5]}))).1
  = parse_episodes (λ _, [low_res; high_res]) "page"
      (fresh (PStr "1") (Some {[PInt 5]})).
Proof. apply parse_episodes_idempotent. reflexivity. Defined.

Lemma parse_episodes_available release_links html st :
  episodes_available (parse_episodes release_links html st).1
  = episodes_available st.
Proof.
  unfold parse_episodes.
  pose proof (parse_episodes_loop_frame (rev (release_links html)) st)
    as (_ & Hav & _).
  destruct (parse_episodes_loop _ st) as [st' [e|]]; simpl in *; [done|].
  by destruct (collected_all st').
Qed.

(** After a page with at least one block, parsed to the end, the collected
    set holds a [str] and cannot be a set of [int]s. *)
Lemma parse_episodes_not_all release_links html st A :
  episodes_available st = Some A → only_ints A →
  release_links html ≠ [] →
  (parse_episodes release_links html st).2 = None →
  collected_all (parse_episodes release_links html st).1 = false.
Proof.
  intros Hav HA Hblocks Hexn.
  pose proof (parse_episodes_available release_links html st) as Hav'.
  unfold collected_all. apply bool_decide_eq_false_2.
  rewrite Hav', Hav. intros [= Heq].
  revert Hexn Heq. unfold parse_episodes.
  set (divs := rev (release_links html)).
  destruct (parse_episodes_loop divs st) as [st1 o] eqn:E.
  destruct o as [e|]; [done|]. intros _.
  assert (Hmatched : Forall (λ d, is_Some (rmatch episode_data_regex
                                             (i_string d))) divs).
  { apply (parse_episodes_loop_matched divs st). by rewrite E. }
  destruct (parse_episodes_loop_good divs st Hmatched)
    as (new' & _ & _ & _ & _ & Hall).
  rewrite E in Hall. cbn [fst] in Hall.
  destruct divs as [|d divs'] eqn:Hd.
  { subst divs. apply (f_equal (@rev block)) in Hd.
    rewrite rev_involutive in Hd. done. }
  apply Forall_cons_1 in Hmatched as [[m Hm] _].
  destruct (Hall d m (list_elem_of_here _ _) Hm) as [Hin _].
  intros Heq. cbn [fst] in Heq.
  assert (Hin' : PStr (group 1 m) ∈ A).
  { rewrite <- Heq. by destruct (collected_all st1). }
  by destruct (HA _ Hin') as [z ?].
Qed.

(** X7.  On an object whose [episodes_available] holds [int]s only, which is
    how the constructor builds it, a page parse that visits at least one
    release block and ends normally leaves the flag as it was: the numeral of
    that block is in the collected set as a [str], so the set cannot equal
    [episodes_available].  The flag can only be raised by a page without
    release blocks. *)
Theorem parse_episodes_never_signals release_links html st A :
  episodes_available st = Some A → only_ints A →
  release_links html ≠ [] →
  (parse_episodes release_links html st).2 = None →
  collected_all (parse_episodes release_links html st).1 = false ∧
  all_episodes_acquired (parse_episodes release_links html st).1
  = all_episodes_acquired st.
Proof.
  intros Hav HA Hblocks Hexn.
  pose proof (parse_episodes_not_all release_links html st A Hav HA Hblocks
                Hexn) as Hno.
  split; [done|].
  by rewrite (parse_episodes_flag release_links html st Hexn), Hno,
       orb_false_r.
Qed.

Lemma only_ints_list (l : list Z) : only_ints (list_to_set (PInt <$> l)).
Proof.
  intros v Hv. apply elem_of_list_to_set, list_elem_of_fmap in Hv
    as (z & -> & _). by exists z.
Qed.

Lemma parse_episodes_never_signals_witness :
  collected_all (parse_episodes covered_soup "more" (self covered_start)).1
  = false ∧
  all_episodes_acquired
    (parse_episodes covered_soup "more" (self covered_start)).1
  = all_episodes_acquired (self covered_start).
Proof.
  apply (parse_episodes_never_signals covered_soup "more"
           (self covered_start) (list_to_set (PInt <$> [1; 2; 3]))).
  - reflexivity.
  - apply only_ints_list.
  - discriminate.
  - reflexivity.
Defined.

(** ** The expected episodes (lines 66-76, 247-263) *)

(** X8.  When the first release block of the single-episode listing matches
    the pattern with a numeral that is a non-empty run of digits, of value
    [N], the constructor sets [episodes_available] to the set of the [int]s
    from 1 to [N] and nothing else; the set is empty exactly when [N] is 0,
    and then the pagination phase is not entered, as when the count is
    unknown.  The blocks after the first are not looked at. *)
Theorem episodes_available_range
    get_html release_links regex_failure_is_horriblesubs url d rest m :
  release_links (get_html url) = d :: rest →
  rmatch episode_data_regex (i_string d) = Some m →
  str_forall is_digit (group 1 m) = true → group 1 m ≠ EmptyString →
  ∃ N A,
    int (group 1 m) = inr N ∧ 0 ≤ N ∧
    resolve_episodes_available get_html release_links
      regex_failure_is_horriblesubs url = inr (Some A) ∧
    (∀ v, v ∈ A ↔ ∃ k, v = PInt k ∧ 1 ≤ k ≤ N) ∧
    only_ints A ∧
    (A = ∅ ↔ N = 0) ∧
    (∀ st, episodes_available st = Some A →
           pagination_wanted st = negb (N =? 0)).
Proof.
  intros Hdivs Hm Hdig Hne.
  destruct (py_int_digits _ Hdig Hne) as (N & HN & HN0).
  exists N, (list_to_set (PInt <$> range 1 (N + 1))).
  assert (Hmem : ∀ v, v ∈ (list_to_set (PInt <$> range 1 (N + 1)) : gset pyval)
                      ↔ ∃ k, v = PInt k ∧ 1 ≤ k ≤ N).
  { intros v. rewrite elem_of_list_to_set, list_elem_of_fmap. unfold range.
    split; intros (k & -> & Hk); exists k; (split; [done|]).
    - apply elem_of_seqZ in Hk. lia.
    - apply elem_of_seqZ. lia. }
  assert (Hempty : (list_to_set (PInt <$> range 1 (N + 1)) : gset pyval) = ∅
                   ↔ N = 0).
  { split.
    - intros Heq. destruct (decide (N = 0)) as [|Hpos]; [done|].
      assert (PInt 1 ∈ (∅ : gset pyval)) as Hin; [|by apply elem_of_empty in Hin].
      rewrite <- Heq. apply Hmem. exists 1. split; [done|lia].
    - intros ->. reflexivity. }
  unfold int. rewrite HN. do 2 (split; [done|]).
  split.
  { unfold resolve_episodes_available, get_most_recent_episode_number, int.
    by rewrite Hdivs, Hm, HN. }
  split; [done|]. split; [apply only_ints_list|]. split; [done|].
  intros st Hst. unfold pagination_wanted. rewrite Hst. f_equal.
  destruct (Z.eqb_spec N 0) as [HN1|HN1].
  - by apply bool_decide_eq_true_2, Hempty.
  - apply bool_decide_eq_false_2. by rewrite Hempty.
Qed.

Lemma episodes_available_range_witness :
  ∃ N A,
    int "03" = inr N ∧ 0 ≤ N ∧
    resolve_episodes_available covered_web covered_soup true
      (episodes_url "show" (PStr "9")) = inr (Some A) ∧
    (∀ v, v ∈ A ↔ ∃ k, v = PInt k ∧ 1 ≤ k ≤ N).
Proof.
  destruct (episodes_available_range covered_web covered_soup true
              (episodes_url "show" (PStr "9"))
              (Block "Show - 03 [1080p]" "magnet:?xt=e3") []
              ["03"; "1080p"])
    as (N & A & H1 & H2 & H3 & H4 & _); [reflexivity..|discriminate|].
  by exists N, A.
Defined.

(** ** Which configurations the constructor accepts (lines 35-46, 103-115) *)

Lemma get_show_id_from_url_digits get_html u s :
  get_show_id_from_url get_html u = inr s → str_forall is_digit s = true.
Proof.
  unfold get_show_id_from_url. rewrite show_id_regex_unfold.
  destruct (star dotall (get_html u) _) as [g|] eqn:E; [|done].
  intros [= <-].
  apply star_Some in E as (pre & r0 & _ & _ & H & _).
  destruct (lit show_id_marker r0) as [r1|]; [|done].
  by apply star_digits in H as (d & rest & -> & _ & Hd & _).
Qed.

(** X9.  The constructor gets past its validation exactly when [show_id] is
    false ([None], 0 or the empty string), [show_url] is a non-empty string
    and the page behind it carries the marker; the object's [show_id] is then
    a [str] of digits, possibly empty.  A [show_id] that is true is never
    accepted: an [int] ends in [AttributeError], anything else in
    [ValueError], whether a URL is given or not. *)
Theorem resolve_show_id_outcomes get_html show_id show_url :
  (∀ sid,
     resolve_show_id get_html show_id show_url = inr sid ↔
     truthy show_id = false ∧
     ∃ u s, show_url = Some u ∧ u ≠ EmptyString ∧
            get_show_id_from_url get_html u = inr s ∧ sid = PStr s ∧
            str_forall is_digit s = true) ∧
  (truthy show_id = true →
   resolve_show_id get_html show_id show_url
   = inl (if isinstance_int show_id then AttributeError else ValueError)) ∧
  (truthy show_id = false →
   (show_url = None ∨ show_url = Some EmptyString) →
   resolve_show_id get_html show_id show_url = inl ValueError).
Proof.
  split; [|split].
  - intros sid. split.
    + intros H.
      destruct (resolve_show_id_only_by_url _ _ _ _ H)
        as (Hf & u & s & -> & Hs & ->).
      split; [done|]. exists u, s. split; [done|].
      split.
      { intros ->. unfold resolve_show_id in H. rewrite Hf in H.
        simpl in H. discriminate. }
      split; [done|]. split; [done|].
      by eapply get_show_id_from_url_digits.
    + intros (Hf & u & s & -> & Hu & Hs & -> & _).
      unfold resolve_show_id. rewrite Hf. simpl.
      destruct (String.eqb_spec u ""); [done|]. simpl. by rewrite Hs.
  - intros Ht. unfold resolve_show_id. rewrite Ht. simpl.
    rewrite andb_false_r.
    destruct show_id; simpl in *; done.
  - intros Hf Hurl. unfold resolve_show_id. rewrite Hf.
    by destruct Hurl as [->| ->].
Qed.

Lemma resolve_show_id_outcomes_witness :
  resolve_show_id (λ _, two_markers) (PInt 0)
    (Some "http://horriblesubs.info/shows/x") = inr (PStr "2") ∧
  resolve_show_id (λ _, two_markers) (PStr "731") None = inl ValueError.
Proof.
  split.
  - apply (proj1 (resolve_show_id_outcomes (λ _, two_markers) (PInt 0)
                    (Some "http://horriblesubs.info/shows/x"))).
    split; [reflexivity|]. eexists _, "2".
    split; [reflexivity|]. split; [discriminate|]. by repeat split.
  - apply (proj1 (proj2 (resolve_show_id_outcomes (λ _, two_markers)
                           (PStr "731") None))).
    reflexivity.
Defined.

(** ** What the batch parse does to the object (lines 183-244) *)

Lemma has_range_false_not_elem rng es :
  has_range rng es = false → rng ∉ batch_ranges es.
Proof.
  intros Hno Hin. apply batch_ranges_elem in Hin.
  unfold has_range in Hno. congruence.
Qed.

Lemma has_range_snoc_other rng es e :
  episode_number e ≠ PList rng →
  has_range rng (es ++ [e]) = has_range rng es.
Proof.
  intros Hne. rewrite has_range_app. simpl.
  by rewrite (bool_decide_eq_false_2 _ Hne), !orb_false_r.
Qed.

(** The batch loop, whether it ends normally or not. *)
Lemma parse_batch_episodes_loop_effect divs st :
  ∃ new,
    episodes (parse_batch_episodes_loop divs st).1 = episodes st ++ new ∧
    single_numerals new = [] ∧
    NoDup (batch_ranges new) ∧
    (∀ rng, rng ∈ batch_ranges new →
            rng ≠ [] ∧ has_range rng (episodes st) = false) ∧
    episode_numbers_collected (parse_batch_episodes_loop divs st).1
    = episode_numbers_collected st
      ∪ list_to_set (concat (entry_numbers <$> new)).
Proof.
  assert (Hnil : ∀ st0 : scraper,
            episodes st0 = episodes st0 ++ [] ∧
            single_numerals [] = [] ∧ NoDup (batch_ranges []) ∧
            (∀ rng, rng ∈ batch_ranges [] →
                    rng ≠ [] ∧ has_range rng (episodes st0) = false) ∧
            episode_numbers_collected st0
            = episode_numbers_collected st0
              ∪ list_to_set (concat (entry_numbers <$> []))).
  { intros st0. rewrite app_nil_r. do 2 (split; [done|]).
    split; [constructor|].
    split; [intros s Hs; by apply elem_of_nil in Hs|].
    simpl. by rewrite (right_id_L ∅ (∪)). }
  revert st. induction divs as [|d divs IH]; intros st; simpl.
  - exists []. apply Hnil.
  - destruct (rmatch batch_episodes_data_regex (i_string d)) as [m|];
      [|exists []; apply Hnil].
    destruct (episode_range _ _) as [e|rng]; [exists []; apply Hnil|].
    fold (has_range rng (episodes st)).
    destruct (has_range rng (episodes st)) eqn:Hdup; [apply IH|].
    set (st1 := _add_episode PNone (Some rng) (group 3 m) (magnet_href d) st).
    destruct (IH st1) as (new & Heps & Hsingle & Hnodup & Hfresh & Hcol).
    destruct rng as [|z rng].
    + (* an empty range is stored under [None] *)
      exists (Episode PNone (group 3 m) (magnet_href d) :: new).
      split; [by rewrite Heps; simpl; rewrite <- app_assoc|].
      split; [done|]. split; [done|].
      split.
      { intros rng Hrng. destruct (Hfresh rng Hrng) as [Hne Hno].
        split; [done|]. subst st1. simpl in Hno.
        by rewrite has_range_snoc_other in Hno. }
      rewrite Hcol. subst st1.
      change (concat (entry_numbers <$>
                Episode PNone (group 3 m) (magnet_href d) :: new))
        with ([PNone] ++ concat (entry_numbers <$> new)).
      rewrite list_to_set_app_L, (assoc_L (∪)). f_equal.
    + exists (Episode (PList (z :: rng)) (group 3 m) (magnet_href d) :: new).
      split; [by rewrite Heps; simpl; rewrite <- app_assoc|].
      split; [done|].
      assert (Hhere : has_range (z :: rng) (episodes st1) = true).
      { subst st1. simpl. rewrite has_range_app. simpl.
        by rewrite bool_decide_eq_true_2, orb_true_r. }
      split.
      { change (NoDup ((z :: rng) :: batch_ranges new)).
        constructor; [|done]. intros Hin.
        destruct (Hfresh _ Hin) as [_ Hno]. congruence. }
      split.
      { intros rng' [->|Hrng]%elem_of_cons; [done|].
        destruct (Hfresh rng' Hrng) as [Hne Hno]. split; [done|].
        subst st1. simpl in Hno. rewrite has_range_app in Hno.
        by apply orb_false_elim in Hno as [-> _]. }
      rewrite Hcol. subst st1. rewrite collected_add_range.
      change (concat (entry_numbers <$>
                Episode (PList (z :: rng)) (group 3 m) (magnet_href d) :: new))
        with ((PInt <$> z :: rng) ++ concat (entry_numbers <$> new)).
      by rewrite list_to_set_app_L, (assoc_L (∪)).
Qed.

(** X10.  Whatever the page and however the parse ends,
    [parse_batch_episodes] only appends to the collection, and never a
    single-episode entry; the non-empty ranges of the entries it appends are
    pairwise distinct and were not stored before; the collected set grows by
    exactly the numbers of the appended entries (the [int]s of each range, and
    [None] for an entry whose range was empty); the other attributes are left
    alone. *)
Theorem parse_batch_episodes_effect release_links html st :
  ∃ new,
    episodes (parse_batch_episodes release_links html st).1
    = episodes st ++ new ∧
    single_numerals new = [] ∧
    NoDup (batch_ranges new) ∧
    (∀ rng, rng ∈ batch_ranges new →
            rng ≠ [] ∧ has_range rng (episodes st) = false) ∧
    episode_numbers_collected (parse_batch_episodes release_links html st).1
    = episode_numbers_collected st
      ∪ list_to_set (concat (entry_numbers <$> new)) ∧
    show_id (parse_batch_episodes release_links html st).1 = show_id st ∧
    episodes_available (parse_batch_episodes release_links html st).1
    = episodes_available st ∧
    all_episodes_acquired (parse_batch_episodes release_links html st).1
    = all_episodes_acquired st ∧
    threads (parse_batch_episodes release_links html st).1 = threads st ∧
    episodes_page_number (parse_batch_episodes release_links html st).1
    = episodes_page_number st.
Proof.
  unfold parse_batch_episodes.
  destruct (parse_batch_episodes_loop_effect (rev (release_links html)) st)
    as (new & Heps & Hsingle & Hnodup & Hfresh & Hcol).
  pose proof (parse_batch_episodes_loop_frame (rev (release_links html)) st)
    as (Hid & Hav & Hflag & Hth & Hpg).
  by exists new.
Qed.

Lemma parse_batch_episodes_effect_witness :
  ∃ new,
    episodes (parse_batch_episodes overlap_soup "batch"
                (fresh (PStr "7") None)).1 = [] ++ new ∧
    single_numerals new = [] ∧ NoDup (batch_ranges new).
Proof.
  destruct (parse_batch_episodes_effect overlap_soup "batch"
              (fresh (PStr "7") None)) as (new & H1 & H2 & H3 & _).
  by exists new.
Defined.

Lemma episode_range_numerals f l rng :
  episode_range f l = inr rng → f ≠ EmptyString ∧ l ≠ EmptyString.
Proof.
  unfold episode_range. split; intros ->; [done|].
  by destruct (int f).
Qed.

Lemma batch_block_ranged_ok d : batch_block_ranged d → batch_block_ok d.
Proof.
  intros (m & rng & Hm & Hrng & _). exists m. split; [done|].
  by eapply episode_range_numerals.
Qed.

(** A batch loop over blocks whose ranges are all stored changes nothing. *)
Lemma parse_batch_episodes_loop_present divs st :
  Forall (λ d, ∃ m rng,
            rmatch batch_episodes_data_regex (i_string d) = Some m ∧
            episode_range (group 1 m) (group 2 m) = inr rng ∧
            has_range rng (episodes st) = true) divs →
  parse_batch_episodes_loop divs st = (st, None).
Proof.
  induction 1 as [|d divs (m & rng & Hm & Hrng & Hin) _ IH]; simpl; [done|].
  rewrite Hm, Hrng. fold (has_range rng (episodes st)). by rewrite Hin.
Qed.

(** X11.  When every block of the batch page parses to a range that is not
    empty, the batch parse ends normally and parsing the same page again
    right after changes nothing. *)
Theorem parse_batch_episodes_idempotent release_links html st :
  Forall batch_block_ranged (release_links html) →
  (parse_batch_episodes release_links html st).2 = None ∧
  parse_batch_episodes release_links html
    (parse_batch_episodes release_links html st).1
  = parse_batch_episodes release_links html st.
Proof.
  intros Hdoc. unfold parse_batch_episodes.
  set (divs := rev (release_links html)).
  assert (Hranged : Forall batch_block_ranged divs) by by apply Forall_rev.
  assert (Hok : Forall batch_block_ok divs).
  { eapply Forall_impl; [exact Hranged|]. apply batch_block_ranged_ok. }
  destruct (parse_batch_episodes_loop_good divs st Hok)
    as (new & Hexn & Heps & _ & Hall).
  destruct (parse_batch_episodes_loop divs st) as [st1 o] eqn:E.
  simpl in Hexn, Heps, Hall. subst o. split; [done|]. simpl.
  apply parse_batch_episodes_loop_present.
  apply Forall_forall. intros d Hd.
  destruct (proj1 (Forall_forall _ _) Hranged d Hd)
    as (m & rng & Hm & Hrng & Hne).
  exists m, rng. do 2 (split; [done|]).
  rewrite Heps, has_range_app.
  destruct (has_range rng (episodes st)) eqn:Hold; [done|]. simpl.
  destruct (Hall d m rng Hd Hm Hrng Hne Hold) as [Hnew _].
  by apply has_range_elem.
Qed.

Lemma parse_batch_episodes_idempotent_witness :
  (parse_batch_episodes overlap_soup "batch" (fresh (PStr "7") None)).2
  = None ∧
  parse_batch_episodes overlap_soup "batch"
    (parse_batch_episodes overlap_soup "batch" (fresh (PStr "7") None)).1
  = parse_batch_episodes overlap_soup "batch" (fresh (PStr "7") None).
Proof.
  apply parse_batch_episodes_idempotent.
  repeat constructor.
  - exists ["1"; "2"; "1080p"], [1; 2]. by repeat split.
  - exists ["1"; "3"; "1080p"], [1; 2; 3]. by repeat split.
Defined.

(** A block whose range is empty is stored under [None], which no later
    test finds: each parse of the page appends it again. *)
Example empty_range_appended_again :
  let page := λ _ : string, [Block "Show (5-3) [720p]" "magnet:?xt=b"] in
  let once := (parse_batch_episodes page "batch" (fresh (PStr "7") None)).1 in
  let twice := (parse_batch_episodes page "batch" once).1 in
  (episode_number <$> episodes once) = [PNone] ∧
  (episode_number <$> episodes twice) = [PNone; PNone].
Proof. split; reflexivity. Qed.

(** ** Deduplication, candidate by candidate (lines 154-178, 193-222) *)

Lemma block_numerals_cons d divs m :
  rmatch episode_data_regex (i_string d) = Some m →
  block_numerals (d :: divs) = group 1 m :: block_numerals divs.
Proof. intros Hm. unfold block_numerals. simpl. by rewrite Hm. Qed.

Lemma block_ranges_cons d divs m rng :
  rmatch batch_episodes_data_regex (i_string d) = Some m →
  episode_range (group 1 m) (group 2 m) = inr rng →
  block_ranges (d :: divs) = rng :: block_ranges divs.
Proof.
  intros Hm Hrng. unfold block_ranges, block_range. simpl.
  by rewrite Hm, Hrng.
Qed.

(** After a visit of blocks that match, the [str]s of the collected set are
    those that were there and the numerals of the blocks visited. *)
Lemma parse_episodes_loop_visited visited st :
  Forall (λ d, is_Some (rmatch episode_data_regex (i_string d))) visited →
  (parse_episodes_loop visited st).2 = None ∧
  ∀ n, PStr n ∈ episode_numbers_collected (parse_episodes_loop visited st).1
       ↔ PStr n ∈ episode_numbers_collected st ∨ n ∈ block_numerals visited.
Proof.
  intros Hgood. revert st.
  induction Hgood as [|d divs [m Hm] _ IH]; intros st.
  { split; [done|]. intros n. simpl. split; [by left|].
    intros [?|H]; [done|]. by apply elem_of_nil in H. }
  cbn [parse_episodes_loop]. rewrite Hm, (block_numerals_cons d divs m Hm).
  cbn zeta. case_bool_decide as Hin.
  - destruct (IH st) as [Hexn Hcol]. split; [done|]. intros n.
    rewrite Hcol, elem_of_cons. split; [tauto|].
    intros [?|[->|?]]; auto.
  - destruct (IH (_add_episode (PStr (group 1 m)) None (group 2 m)
                    (magnet_href d) st)) as [Hexn Hcol].
    split; [done|]. intros n.
    rewrite Hcol, collected_add_single, elem_of_union, elem_of_singleton,
      elem_of_cons.
    split.
    + intros [[?|[= ->]]|?]; auto.
    + intros [?|[->|?]]; auto.
Qed.

(** The visit of one more block. *)
Lemma parse_episodes_loop_snoc visited d m st :
  Forall (λ d, is_Some (rmatch episode_data_regex (i_string d))) visited →
  rmatch episode_data_regex (i_string d) = Some m →
  parse_episodes_loop (visited ++ [d]) st
  = (let st1 := (parse_episodes_loop visited st).1 in
     if bool_decide (PStr (group 1 m) ∈ episode_numbers_collected st1)
     then st1
     else _add_episode (PStr (group 1 m)) None (group 2 m) (magnet_href d)
            st1, None).
Proof.
  intros Hgood Hm. rewrite parse_episodes_loop_app.
  destruct (parse_episodes_loop_visited visited st Hgood) as [Hexn _].
  destruct (parse_episodes_loop visited st) as [st1 o]. simpl in Hexn.
  subst o. simpl. rewrite Hm. by case_bool_decide.
Qed.

(** After a visit of batch blocks that parse, the ranges found in the
    collection are those that were there and the non-empty ranges of the
    blocks visited. *)
Lemma parse_batch_episodes_loop_visited visited st :
  Forall batch_block_ok visited →
  (parse_batch_episodes_loop visited st).2 = None ∧
  ∀ rng, has_range rng (episodes (parse_batch_episodes_loop visited st).1)
         = true
         ↔ has_range rng (episodes st) = true
           ∨ (rng ≠ [] ∧ rng ∈ block_ranges visited).
Proof.
  intros Hgood. revert st.
  induction Hgood as [|d divs Hd _ IH]; intros st.
  { split; [done|]. intros rng. simpl. split; [by left|].
    intros [?|[_ H]]; [done|]. by apply elem_of_nil in H. }
  destruct (batch_block_ok_range d Hd) as (m & rng0 & Hm & Hrng).
  cbn [parse_batch_episodes_loop].
  rewrite Hm, Hrng, (block_ranges_cons d divs m rng0 Hm Hrng). cbn zeta.
  fold (has_range rng0 (episodes st)).
  destruct (has_range rng0 (episodes st)) eqn:Hdup.
  - destruct (IH st) as [Hexn Hcol]. split; [done|]. intros rng.
    rewrite Hcol, elem_of_cons. split; [tauto|].
    intros [?|[Hne [->|?]]]; auto.
  - set (st1 := _add_episode PNone (Some rng0) (group 3 m) (magnet_href d) st).
    assert (Heps1 : episodes st1
              = episodes st ++ [batch_entry rng0 (group 3 m) (magnet_href d)]).
    { subst st1. unfold batch_entry. simpl. by destruct rng0. }
    destruct (IH st1) as [Hexn Hcol]. split; [done|]. intros rng.
    rewrite Hcol, Heps1, has_range_app, orb_true_iff, elem_of_cons.
    assert (Hhere : has_range rng [batch_entry rng0 (group 3 m) (magnet_href d)]
                    = true ↔ rng ≠ [] ∧ rng = rng0).
    { unfold has_range, batch_entry. simpl. rewrite orb_false_r.
      rewrite bool_decide_eq_true. destruct rng0; simpl.
      - split; [done|]. by intros [? ->].
      - split; [by intros [= <-]|by intros [_ ->]]. }
    rewrite Hhere. tauto.
Qed.

Lemma parse_batch_episodes_loop_snoc visited d m rng st :
  Forall batch_block_ok visited →
  rmatch batch_episodes_data_regex (i_string d) = Some m →
  episode_range (group 1 m) (group 2 m) = inr rng →
  parse_batch_episodes_loop (visited ++ [d]) st
  = (let st1 := (parse_batch_episodes_loop visited st).1 in
     if has_range rng (episodes st1) then st1
     else _add_episode PNone (Some rng) (group 3 m) (magnet_href d) st1,
     None).
Proof.
  intros Hgood Hm Hrng. rewrite parse_batch_episodes_loop_app.
  destruct (parse_batch_episodes_loop_visited visited st Hgood) as [Hexn _].
  destruct (parse_batch_episodes_loop visited st) as [st1 o]. simpl in Hexn.
  subst o. simpl. rewrite Hm, Hrng. fold (has_range rng (episodes st1)).
  by destruct (has_range rng (episodes st1)).
Qed.

Lemma has_range_batch_ranges rng es :
  has_range rng es = true ↔ rng ∈ batch_ranges es.
Proof.
  split; [|apply batch_ranges_elem].
  rewrite has_range_elem. intros (e & He & Hnum).
  unfold batch_ranges. apply list_elem_of_omap. exists e.
  split; [done|]. by rewrite Hnum.
Qed.

(** What the blocks after a given one add comes after what was there. *)
Lemma parse_episodes_later release_links html st visited d rest :
  rev (release_links html) = visited ++ d :: rest →
  (parse_episodes_loop (visited ++ [d]) st).2 = None →
  ∃ later,
    episodes (parse_episodes release_links html st).1
    = episodes (parse_episodes_loop (visited ++ [d]) st).1 ++ later ∧
    Forall is_single later ∧
    ∀ s, s ∈ single_numerals later →
         PStr s ∉ episode_numbers_collected
                    (parse_episodes_loop (visited ++ [d]) st).1.
Proof.
  intros Hdoc Hexn. unfold parse_episodes.
  rewrite Hdoc, (cons_middle d visited rest), app_assoc,
    parse_episodes_loop_app.
  destruct (parse_episodes_loop (visited ++ [d]) st) as [st2 o].
  simpl in Hexn. subst o. cbn [fst].
  destruct (parse_episodes_loop_effect rest st2)
    as (later & Heps & Hsingle & _ & Hfresh & _).
  exists later.
  destruct (parse_episodes_loop rest st2) as [st3 [e|]]; simpl in *; [done|].
  by destruct (collected_all st3).
Qed.

Lemma parse_batch_episodes_later release_links html st visited d rest :
  rev (release_links html) = visited ++ d :: rest →
  (parse_batch_episodes_loop (visited ++ [d]) st).2 = None →
  ∃ later,
    episodes (parse_batch_episodes release_links html st).1
    = episodes (parse_batch_episodes_loop (visited ++ [d]) st).1 ++ later ∧
    ∀ rng, rng ∈ batch_ranges later →
           has_range rng (episodes (parse_batch_episodes_loop
                                      (visited ++ [d]) st).1) = false.
Proof.
  intros Hdoc Hexn. unfold parse_batch_episodes.
  rewrite Hdoc, (cons_middle d visited rest), app_assoc,
    parse_batch_episodes_loop_app.
  destruct (parse_batch_episodes_loop (visited ++ [d]) st) as [st2 o].
  simpl in Hexn. subst o. cbn [fst].
  destruct (parse_batch_episodes_loop_effect rest st2)
    as (later & Heps & _ & _ & Hfresh & _).
  exists later. split; [done|]. intros rng Hrng. by apply Hfresh.
Qed.

(** C1, amended.  With the pages parsed one after another, the collection
    never holds two single-episode entries with the same numeral, never two
    entries stored under the same range and never an entry under an empty
    range; this holds after the batch phase and after every page parse, also
    one that ends in an exception.  Candidate by candidate, in the order of
    the visit (the reverse of the document): a single-episode candidate is
    discarded exactly when its numeral, as text, is in the shared collected
    set when it is visited, that is when it was in the set before the parse,
    whatever page put it there, or is the numeral of a block visited earlier;
    otherwise its entry is appended and its numeral recorded.  A batch
    candidate is discarded exactly when an entry is stored under the
    identical range when it is visited, that is when one was stored before
    the parse or its range is not empty and is the range of a block visited
    earlier; otherwise its entry is appended and its numbers recorded.  So a
    candidate whose range is empty is never discarded (it is stored under
    [None]), and a candidate whose range differs from every stored range is
    kept, whatever numbers it shares with them.  Entries are never removed:
    what the later blocks add comes after. *)
Theorem dedup_invariant_maintained
    get_html release_links regex_failure_is_horriblesubs :
  (∀ show_id show_url debug st,
     init_batch_phase get_html release_links regex_failure_is_horriblesubs
       show_id show_url debug = inr st →
     dedup_invariant st) ∧
  (∀ html st, dedup_invariant st →
     dedup_invariant (parse_batch_episodes release_links html st).1) ∧
  (∀ html st, dedup_invariant st →
     dedup_invariant (parse_episodes release_links html st).1) ∧
  (∀ html st visited d rest m,
     rev (release_links html) = visited ++ d :: rest →
     Forall (λ d, is_Some (rmatch episode_data_regex (i_string d))) visited →
     rmatch episode_data_regex (i_string d) = Some m →
     let st1 := (parse_episodes_loop visited st).1 in
     let st2 := (parse_episodes_loop (visited ++ [d]) st).1 in
     (PStr (group 1 m) ∈ episode_numbers_collected st1 ↔
      PStr (group 1 m) ∈ episode_numbers_collected st
      ∨ group 1 m ∈ block_numerals visited) ∧
     (PStr (group 1 m) ∈ episode_numbers_collected st1 → st2 = st1) ∧
     (PStr (group 1 m) ∉ episode_numbers_collected st1 →
      episodes st2
      = episodes st1
        ++ [Episode (PStr (group 1 m)) (group 2 m) (magnet_href d)] ∧
      episode_numbers_collected st2
      = episode_numbers_collected st1 ∪ {[PStr (group 1 m)]}) ∧
     ∃ later, episodes (parse_episodes release_links html st).1
              = episodes st2 ++ later) ∧
  (∀ html st visited d rest m rng,
     rev (release_links html) = visited ++ d :: rest →
     Forall batch_block_ok visited →
     rmatch batch_episodes_data_regex (i_string d) = Some m →
     episode_range (group 1 m) (group 2 m) = inr rng →
     let st1 := (parse_batch_episodes_loop visited st).1 in
     let st2 := (parse_batch_episodes_loop (visited ++ [d]) st).1 in
     let entry := batch_entry rng (group 3 m) (magnet_href d) in
     (has_range rng (episodes st1) = true ↔
      has_range rng (episodes st) = true
      ∨ (rng ≠ [] ∧ rng ∈ block_ranges visited)) ∧
     (has_range rng (episodes st1) = true → st2 = st1) ∧
     (has_range rng (episodes st1) = false →
      episodes st2 = episodes st1 ++ [entry] ∧
      episode_numbers_collected st2
      = episode_numbers_collected st1 ∪ list_to_set (entry_numbers entry)) ∧
     (dedup_invariant st → rng = [] → episodes st2 = episodes st1 ++ [entry]) ∧
     (rng ∉ batch_ranges (episodes st) → rng ∉ block_ranges visited →
      episodes st2 = episodes st1 ++ [entry]) ∧
     ∃ later, episodes (parse_batch_episodes release_links html st).1
              = episodes st2 ++ later).
Proof.
  split; [|split; [|split; [|split]]].
  - intros show_id show_url debug st. unfold init_batch_phase.
    destruct (resolve_show_id _ _ _) as [e|sid]; [done|].
    destruct (resolve_episodes_available _ _ _ _) as [e|available]; [done|].
    destruct (parse_batch_episodes _ _ _) as [st' [e|]] eqn:E; [done|].
    intros [= <-]. change st' with (st', @None exn).1. rewrite <- E.
    apply parse_batch_episodes_loop_dedup_invariant, fresh_dedup_invariant.
  - intros html st. apply parse_batch_episodes_loop_dedup_invariant.
  - intros html st Hst. unfold parse_episodes.
    pose proof (parse_episodes_loop_dedup_invariant
                  (rev (release_links html)) st Hst) as H.
    destruct (parse_episodes_loop _ st) as [st' [e|]]; [done|].
    simpl in *. destruct (collected_all st'); [|done].
    by destruct H; split.
  - intros html st visited d rest m Hdoc Hgood Hm st1 st2.
    destruct (parse_episodes_loop_visited visited st Hgood) as [_ Hcol].
    pose proof (parse_episodes_loop_snoc visited d m st Hgood Hm) as Hsnoc.
    cbn zeta in Hsnoc. fold st1 in Hsnoc, Hcol.
    split; [apply Hcol|].
    split; [|split].
    + intros Hin. subst st2. rewrite Hsnoc.
      by rewrite (bool_decide_eq_true_2 _ Hin).
    + intros Hout. subst st2. rewrite Hsnoc.
      by rewrite (bool_decide_eq_false_2 _ Hout).
    + destruct (parse_episodes_later release_links html st visited d rest Hdoc)
        as (later & Heps & _); [by rewrite Hsnoc|].
      by exists later.
  - intros html st visited d rest m rng Hdoc Hgood Hm Hrng st1 st2 entry.
    destruct (parse_batch_episodes_loop_visited visited st Hgood)
      as [_ Hcol].
    pose proof (parse_batch_episodes_loop_snoc visited d m rng st Hgood Hm
                  Hrng) as Hsnoc.
    cbn zeta in Hsnoc. fold st1 in Hsnoc, Hcol.
    assert (Hkept : has_range rng (episodes st1) = false →
              episodes st2 = episodes st1 ++ [entry] ∧
              episode_numbers_collected st2
              = episode_numbers_collected st1
                ∪ list_to_set (entry_numbers entry)).
    { intros Hout. subst st2 entry. rewrite Hsnoc, Hout.
      unfold batch_entry. destruct rng as [|z rng]; simpl.
      - by rewrite (right_id_L ∅ (∪)).
      - done. }
    split; [apply Hcol|].
    split; [|split; [done|split; [|split]]].
    + intros Hin. subst st2. by rewrite Hsnoc, Hin.
    + intros [_ _ Hne _] ->. apply Hkept.
      destruct (has_range [] (episodes st1)) eqn:E; [|done].
      apply Hcol in E as [E|[E _]]; [|done].
      by apply has_range_batch_ranges in E.
    + intros Hnew Hfar. apply Hkept.
      destruct (has_range rng (episodes st1)) eqn:E; [|done].
      apply Hcol in E as [E|[_ E]]; [|done].
      by apply has_range_batch_ranges in E.
    + destruct (parse_batch_episodes_later release_links html st visited d
                  rest Hdoc) as (later & Heps & _); [by rewrite Hsnoc|].
      by exists later.
Qed.

Lemma dedup_invariant_maintained_witness :
  (∃ st,
     init_batch_phase overlap_web overlap_soup true PNone
       (Some "http://horriblesubs.info/shows/x") false = inr st ∧
     dedup_invariant st) ∧
  episodes (parse_batch_episodes_loop
              ([Block "Show (1-3) [1080p]" "magnet:?xt=b13"]
               ++ [Block "Show (1-2) [1080p]" "magnet:?xt=b12"])
              (fresh (PStr "7") None)).1
  = episodes (parse_batch_episodes_loop
                [Block "Show (1-3) [1080p]" "magnet:?xt=b13"]
                (fresh (PStr "7") None)).1
    ++ [batch_entry [1; 2] "1080p" "magnet:?xt=b12"].
Proof.
  destruct (dedup_invariant_maintained overlap_web overlap_soup true)
    as (Hinit & _ & _ & _ & Hbatch).
  split.
  - eexists. split; [vm_compute; reflexivity|].
    eapply (Hinit PNone (Some "http://horriblesubs.info/shows/x") false).
    vm_compute. reflexivity.
  - destruct (Hbatch "batch" (fresh (PStr "7") None)
                [Block "Show (1-3) [1080p]" "magnet:?xt=b13"]
                (Block "Show (1-2) [1080p]" "magnet:?xt=b12") []
                ["1"; "2"; "1080p"] [1; 2])
      as (_ & _ & _ & _ & Hkept & _).
    + reflexivity.
    + repeat constructor. exists ["1"; "3"; "1080p"].
      split; [reflexivity|]. split; discriminate.
    + reflexivity.
    + reflexivity.
    + apply Hkept.
      * apply not_elem_of_nil.
      * intros [=]%list_elem_of_singleton.
Defined.

(** ** Reversed traversal: the last block in the document wins
    (lines 146-178) *)

Lemma single_numerals_elem e s es :
  e ∈ es → episode_number e = PStr s → s ∈ single_numerals es.
Proof.
  intros He Hnum. unfold single_numerals. apply list_elem_of_omap.
  exists e. split; [done|]. by rewrite Hnum.
Qed.

(** C5 (the code departs from the claim).  The parse never looks at the
    resolutions.  Of the blocks of a page that carry one episode numeral,
    not collected before, it keeps the one that comes last in the document,
    whatever else the page holds: when the blocks after [b] match and carry
    other numerals, the entry appended for the numeral of [b] is the entry
    of [b], and it is the only new entry with that numeral.  With the
    high-resolution release before the low-resolution one in the document,
    the entry kept is the low-resolution one. *)
Theorem parse_episodes_last_block_wins release_links html st pre b post m :
  release_links html = pre ++ b :: post →
  rmatch episode_data_regex (i_string b) = Some m →
  Forall (λ b', ∃ m', rmatch episode_data_regex (i_string b') = Some m' ∧
                      group 1 m' ≠ group 1 m) post →
  PStr (group 1 m) ∉ episode_numbers_collected st →
  ∃ before after,
    episodes (parse_episodes release_links html st).1
    = episodes st ++ before
      ++ [Episode (PStr (group 1 m)) (group 2 m) (magnet_href b)] ++ after ∧
    ∀ e, e ∈ before ++ after → episode_number e ≠ PStr (group 1 m).
Proof.
  intros Hdoc Hm Hpost Hnew.
  assert (Hrev : rev (release_links html) = rev post ++ b :: rev pre).
  { by rewrite Hdoc, rev_app_distr; simpl; rewrite <- app_assoc. }
  assert (Hgood : Forall (λ d, is_Some (rmatch episode_data_regex
                                          (i_string d))) (rev post)).
  { apply Forall_rev. eapply Forall_impl; [exact Hpost|].
    intros b' (m' & Hm' & _). by eexists. }
  assert (Hother : group 1 m ∉ block_numerals (rev post)).
  { unfold block_numerals. rewrite list_elem_of_omap.
    intros (b' & Hb' & Hnum).
    pose proof (Forall_rev Hpost) as Hpost'.
    rewrite Forall_forall in Hpost'.
    destruct (Hpost' b' Hb') as (m' & Hm' & Hne).
    rewrite Hm' in Hnum. simpl in Hnum. congruence. }
  destruct (parse_episodes_loop_visited (rev post) st Hgood) as [_ Hcol].
  destruct (parse_episodes_loop_effect (rev post) st)
    as (before & Heps1 & Hsingle1 & _ & _ & Hcol1).
  pose proof (parse_episodes_loop_snoc (rev post) b m st Hgood Hm) as Hsnoc.
  cbn zeta in Hsnoc.
  assert (Hout : PStr (group 1 m)
                 ∉ episode_numbers_collected
                     (parse_episodes_loop (rev post) st).1).
  { rewrite Hcol. by intros [?|?]. }
  rewrite (bool_decide_eq_false_2 _ Hout) in Hsnoc.
  destruct (parse_episodes_later release_links html st (rev post) b (rev pre)
              Hrev) as (after & Heps & Hsingle3 & Hfresh3);
    [by rewrite Hsnoc|].
  rewrite Hsnoc in Heps, Hfresh3. cbn [fst] in Heps, Hfresh3.
  exists before, after. split.
  { rewrite Heps. simpl. rewrite Heps1. by rewrite <- !app_assoc. }
  intros e [He|He]%elem_of_app Hnum.
  - apply Hout. rewrite Hcol1. apply elem_of_union_r, elem_of_list_to_set,
      list_elem_of_fmap.
    exists (group 1 m). split; [done|]. by eapply single_numerals_elem.
  - apply (Hfresh3 (group 1 m)); [by eapply single_numerals_elem|].
    rewrite collected_add_single. apply elem_of_union_r.
    by apply elem_of_singleton.
Qed.

Lemma parse_episodes_last_block_wins_witness :
  ∃ before after,
    episodes (parse_episodes (λ _, [high_res; low_res]) "page"
                (fresh (PStr "1") (Some {[PInt 5]}))).1
    = [] ++ before ++ [Episode (PStr "05") "480p" "magnet:?xt=low"] ++ after ∧
    ∀ e, e ∈ before ++ after → episode_number e ≠ PStr "05".
Proof.
  apply (parse_episodes_last_block_wins (λ _, [high_res; low_res]) "page"
           (fresh (PStr "1") (Some {[PInt 5]})) [high_res] low_res []
           ["05"; "480p"]).
  - reflexivity.
  - reflexivity.
  - constructor.
  - vm_compute. set_solver.
Defined.

(** ** The threaded run, in every interleaving (lines 117-139, 141-181) *)

Section Interleavings.

Variable get_html : string → string.
Variable release_links : string → list block.

(** What one step of a worker does to the collection and the collected
    set. *)
Lemma worker_step_grows w st w' st' :
  worker_step w st = Some (w', st') →
  episodes st `prefix_of` episodes st' ∧
  episode_numbers_collected st ⊆ episode_numbers_collected st'.
Proof.
  destruct w as [[|d divs]| | | | |]; simpl.
  - by intros [= <- <-].
  - destruct (rmatch episode_data_regex (i_string d)); [|by intros [= <- <-]].
    case_bool_decide; by intros [= <- <-].
  - intros [= <- <-]. simpl. split; [by eexists|done].
  - intros [= <- <-]. simpl. split; [done|apply union_subseteq_l].
  - by intros [= <- <-].
  - done.
  - done.
Qed.

Lemma step_grows m m' :
  step get_html release_links m m' →
  episodes (self m) `prefix_of` episodes (self m') ∧
  episode_numbers_collected (self m)
    ⊆ episode_numbers_collected (self m') ∧
  threads (self m) `prefix_of` threads (self m') ∧
  (episodes_page_number (self m) ≤ episodes_page_number (self m'))%nat ∧
  (length (workers m) ≤ length (workers m'))%nat ∧
  show_id (self m') = show_id (self m) ∧
  episodes_available (self m') = episodes_available (self m).
Proof.
  intros [[|i] Hstep]; simpl in Hstep.
  - unfold coordinator_step in Hstep.
    destruct (coord m) as [html| | |e];
      [|injection Hstep as <-; by repeat split|done..].
    destruct (_ && _); injection Hstep as <-; simpl.
    + repeat split; try done; [by eexists|lia|rewrite length_app; lia].
    + repeat split; done.
  - unfold worker_turn in Hstep.
    destruct (workers m !! i) as [w|]; [|done].
    destruct (worker_step w (self m)) as [[w' st']|] eqn:E; [|done].
    injection Hstep as <-. simpl.
    destruct (worker_step_grows _ _ _ _ E) as [Hep Hcol].
    destruct (worker_step_frame _ _ _ _ E) as (-> & -> & -> & ->).
    rewrite length_insert. repeat split; done.
Qed.

(** X12.  Along every run of the coordinator and its threads, in any
    interleaving, nothing is ever taken back: the collection only grows at
    its end (no entry is removed, replaced or moved), the collected set and
    the thread list only grow, the page cursor never decreases, the flag is
    never lowered, and the show id and [episodes_available] stay as the
    constructor set them. *)
Theorem run_only_grows m m' :
  rtc (step get_html release_links) m m' →
  episodes (self m) `prefix_of` episodes (self m') ∧
  episode_numbers_collected (self m)
    ⊆ episode_numbers_collected (self m') ∧
  threads (self m) `prefix_of` threads (self m') ∧
  (episodes_page_number (self m) ≤ episodes_page_number (self m'))%nat ∧
  (length (workers m) ≤ length (workers m'))%nat ∧
  show_id (self m') = show_id (self m) ∧
  episodes_available (self m') = episodes_available (self m) ∧
  (all_episodes_acquired (self m) = true →
   all_episodes_acquired (self m') = true).
Proof.
  induction 1 as [m|m1 m2 m3 Hstep _ IH].
  - repeat split; done.
  - destruct (step_grows _ _ Hstep) as (H1 & H2 & H3 & H4 & H5 & H6 & H7).
    destruct IH as (I1 & I2 & I3 & I4 & I5 & I6 & I7 & I8).
    split; [by etrans|]. split; [by etrans|]. split; [by etrans|].
    split; [lia|]. split; [lia|]. split; [congruence|].
    split; [congruence|].
    intros Hflag. apply I8. by eapply step_flag_monotone.
Qed.

(** A schedule that can be followed is a run. *)
Lemma run_rtc ts m m' :
  run get_html release_links ts m = Some m' →
  rtc (step get_html release_links) m m'.
Proof.
  revert m. induction ts as [|t ts IH]; intros m; simpl.
  - by intros [= <-].
  - destruct (run_turn get_html release_links t m) as [m1|] eqn:E; [|done].
    intros H. eapply rtc_l; [by exists t|]. by apply IH.
Qed.

Lemma single_numerals_app es1 es2 :
  single_numerals (es1 ++ es2) = single_numerals es1 ++ single_numerals es2.
Proof. apply omap_app. Qed.

Lemma coordinator_step_recorded m m' :
  coordinator_step get_html release_links m = Some m' →
  recorded_after_appended m → recorded_after_appended m'.
Proof.
  unfold coordinator_step.
  destruct (coord m) as [html| | |e]; [|by intros [= <-]|done..].
  destruct (_ && _); intros [= <-]; [|done].
  intros (H1 & H2 & H3). split; [|split]; simpl.
  - exact H1.
  - intros s Hs. destruct (H2 s Hs) as [?|(i & divs & Hi)]; [by left|].
    right. exists i, divs. by apply lookup_app_l_Some.
  - intros i s divs Hi. apply lookup_app_Some in Hi as [Hi|[_ Hi]].
    + by eapply H3.
    + destruct (i - length (workers m))%nat; simpl in Hi; [|done].
      discriminate.
Qed.

Lemma worker_turn_recorded i m m' :
  worker_turn i m = Some m' →
  recorded_after_appended m → recorded_after_appended m'.
Proof.
  unfold worker_turn. destruct (workers m !! i) as [w|] eqn:Hw; [|done].
  destruct (worker_step w (self m)) as [[w' st']|] eqn:E; [|done].
  intros [= <-] (H1 & H2 & H3).
  assert (Hi : (i < length (workers m))%nat) by by eapply lookup_lt_Some.
  (* a worker that neither starts nor ends in [WRecord] and leaves the
     collection and the set alone *)
  assert (Hquiet : (∀ s divs, w ≠ WRecord s divs) →
                   (∀ s divs, w' ≠ WRecord s divs) →
                   episodes st' = episodes (self m) →
                   episode_numbers_collected st'
                   = episode_numbers_collected (self m) →
                   recorded_after_appended
                     (Machine st' (coord m) (<[i:=w']> (workers m)))).
  { intros Hw1 Hw2 Hep Hcol. split; [|split]; simpl; rewrite ?Hep, ?Hcol.
    - exact H1.
    - intros s Hs. destruct (H2 s Hs) as [?|(j & divs & Hj)]; [by left|].
      right. exists j, divs. rewrite list_lookup_insert_ne; [done|].
      intros ->. rewrite Hw in Hj. injection Hj as ->. by eapply Hw1.
    - intros j s divs Hj. destruct (decide (i = j)) as [->|Hne].
      + rewrite list_lookup_insert_eq in Hj by done.
        injection Hj as ->. by destruct (Hw2 s divs).
      + rewrite list_lookup_insert_ne in Hj by done. by eapply H3. }
  destruct w as [[|d divs]|n r mg divs|n divs| | |]; simpl in E.
  - injection E as <- <-. apply Hquiet; try done.
    intros s divs. by destruct (collected_all (self m)).
  - destruct (rmatch episode_data_regex (i_string d)) as [g|].
    + case_bool_decide; injection E as <- <-; by apply Hquiet.
    + injection E as <- <-. by apply Hquiet.
  - (* the append *)
    injection E as <- <-. split; [|split]; simpl.
    + intros s Hs. rewrite single_numerals_app. apply elem_of_app. left.
      by apply H1.
    + intros s. rewrite single_numerals_app. simpl.
      intros [Hs|Hs%list_elem_of_singleton]%elem_of_app; [|subst s].
      * destruct (H2 s Hs) as [?|(j & divs' & Hj)]; [by left|].
        right. exists j, divs'. rewrite list_lookup_insert_ne; [done|].
        intros ->. rewrite Hw in Hj. discriminate.
      * right. exists i, divs. by apply list_lookup_insert_eq.
    + intros j s divs' Hj. rewrite single_numerals_app. apply elem_of_app.
      destruct (decide (i = j)) as [->|Hne].
      * rewrite list_lookup_insert_eq in Hj by done. injection Hj as <- <-.
        right. simpl. by apply list_elem_of_singleton.
      * rewrite list_lookup_insert_ne in Hj by done. left. by eapply H3.
  - (* the update of the set *)
    injection E as <- <-. split; [|split]; simpl.
    + intros s [Hs|Hs%elem_of_singleton]%elem_of_union; [by apply H1|].
      injection Hs as ->. by eapply H3.
    + intros s Hs. destruct (H2 s Hs) as [?|(j & divs' & Hj)].
      * left. by apply elem_of_union_l.
      * destruct (decide (i = j)) as [->|Hne].
        -- rewrite Hw in Hj. injection Hj as <- <-. left.
           apply elem_of_union_r. by apply elem_of_singleton.
        -- right. exists j, divs'. by rewrite list_lookup_insert_ne.
    + intros j s divs' Hj. destruct (decide (i = j)) as [->|Hne].
      * rewrite list_lookup_insert_eq in Hj by done. discriminate.
      * rewrite list_lookup_insert_ne in Hj by done. by eapply H3.
  - injection E as <- <-. by apply Hquiet.
  - done.
  - done.
Qed.

Lemma steps_recorded m m' :
  rtc (step get_html release_links) m m' →
  recorded_after_appended m → recorded_after_appended m'.
Proof.
  induction 1 as [m|m1 m2 m3 [[|i] Hstep] _ IH]; [done|..]; intros Hinv.
  - by eapply IH, coordinator_step_recorded.
  - by eapply IH, worker_turn_recorded.
Qed.

End Interleavings.

Lemma run_only_grows_witness :
  episodes (self covered_start)
    `prefix_of` episodes (self (after [Coordinator; Worker 0] covered_start)) ∧
  (episodes_page_number (self covered_start)
   ≤ episodes_page_number
       (self (after [Coordinator; Worker 0] covered_start)))%nat.
Proof.
  destruct (run_only_grows covered_web covered_soup covered_start
              (after [Coordinator; Worker 0] covered_start))
    as (H1 & _ & _ & H4 & _).
  - apply (run_rtc _ _ [Coordinator; Worker 0]). reflexivity.
  - by split.
Defined.

(** The object that the constructor hands to the pagination phase. *)
Lemma init_batch_phase_object
    get_html release_links regex_failure_is_horriblesubs show_id show_url
    dbg st :
  init_batch_phase get_html release_links regex_failure_is_horriblesubs
    show_id show_url dbg = inr st →
  threads st = [] ∧ episodes_page_number st = 0%nat ∧
  all_episodes_acquired st = false ∧ dedup_invariant st.
Proof.
  unfold init_batch_phase.
  destruct (resolve_show_id _ _ _) as [e|sid]; [done|].
  destruct (resolve_episodes_available _ _ _ _) as [e|available]; [done|].
  unfold parse_batch_episodes.
  pose proof (parse_batch_episodes_loop_frame
                (rev (release_links (get_html (episodes_url "batch" sid))))
                (Scraper sid available false [] [] ∅ 0 dbg))
    as (_ & _ & Hflag & Hth & Hpg).
  pose proof (parse_batch_episodes_loop_dedup_invariant
                (rev (release_links (get_html (episodes_url "batch" sid))))
                (Scraper sid available false [] [] ∅ 0 dbg)
                (fresh_dedup_invariant sid available dbg)) as Hinv.
  destruct (parse_batch_episodes_loop _ _) as [st' [e|]]; [done|].
  by intros [= <-].
Qed.

Lemma init_machine
    get_html release_links regex_failure_is_horriblesubs given_id given_url
    given_debug m0 :
  __init__ get_html release_links regex_failure_is_horriblesubs
    given_id given_url given_debug = inr m0 →
  workers m0 = [] ∧
  init_batch_phase get_html release_links regex_failure_is_horriblesubs
    given_id given_url given_debug = inr (self m0) ∧
  (coord m0 = CReturned ∨
   coord m0 = CLoop (get_html (episodes_page_url "show" (show_id (self m0)) 0))).
Proof.
  unfold __init__.
  destruct (init_batch_phase _ _ _ _ _ _) as [e|st] eqn:E; [done|].
  destruct (init_batch_phase_object _ _ _ _ _ _ _ E) as (_ & Hpg & _).
  intros [= <-]. destruct (pagination_wanted st); simpl; [|by auto].
  unfold parse_all_in_parallel, _get_next_page_html. simpl.
  rewrite Hpg. by auto.
Qed.

(** X13.  In every run that the constructor starts, in any interleaving and
    without any lock, a numeral enters the collected set only after its entry
    was appended to the collection, and an entry whose numeral is not yet in
    the set belongs to a thread that is between its append and its update of
    the set.  Once every thread has finished, the numerals in the collected
    set are exactly the numerals of the single-episode entries. *)
Theorem collected_numerals_have_entries
    get_html release_links regex_failure_is_horriblesubs
    show_id show_url debug m0 m :
  __init__ get_html release_links regex_failure_is_horriblesubs
    show_id show_url debug = inr m0 →
  rtc (step get_html release_links) m0 m →
  recorded_after_appended m ∧
  (forallb worker_finished (workers m) = true →
   ∀ s, s ∈ single_numerals (episodes (self m)) ↔
        PStr s ∈ episode_numbers_collected (self m)).
Proof.
  intros Hinit Hrun.
  destruct (init_machine _ _ _ _ _ _ _ Hinit) as (Hw & Hst & _).
  destruct (init_batch_phase_object _ _ _ _ _ _ _ Hst)
    as (_ & _ & _ & [_ _ _ Hsc]).
  assert (Hinv0 : recorded_after_appended m0).
  { split; [|split].
    - intros s. apply Hsc.
    - intros s Hs. left. by apply Hsc.
    - intros i s divs. by rewrite Hw. }
  pose proof (steps_recorded _ _ _ _ Hrun Hinv0) as (H1 & H2 & H3).
  split; [done|]. intros Hdone s. split; [|apply H1].
  intros Hs. destruct (H2 s Hs) as [?|(i & divs & Hi)]; [done|].
  rewrite forallb_forall in Hdone.
  assert (Hin : In (WRecord s divs) (workers m)).
  { apply list_elem_of_In. by eapply list_elem_of_lookup_2. }
  by apply Hdone in Hin.
Qed.

Lemma collected_numerals_have_entries_witness :
  recorded_after_appended
    (after [Coordinator; Coordinator; Worker 1; Worker 1] covered_start).
Proof.
  refine (proj1 (collected_numerals_have_entries covered_web covered_soup true
            PNone (Some "http://horriblesubs.info/shows/x") false
            covered_start
            (after [Coordinator; Coordinator; Worker 1; Worker 1]
               covered_start) _ _)).
  - reflexivity.
  - apply (run_rtc _ _ [Coordinator; Coordinator; Worker 1; Worker 1]).
    reflexivity.
Defined.

Section Cursor.

Variable get_html : string → string.
Variable release_links : string → list block.

(** A worker only moves forward through its page. *)
Lemma worker_step_divs w st w' st' divs' :
  worker_step w st = Some (w', st') → worker_divs w' = Some divs' →
  ∃ divs, worker_divs w = Some divs ∧ divs' `suffix_of` divs.
Proof.
  destruct w as [[|d divs]|n r mg divs|n divs| | |]; simpl.
  - intros [= <- <-]. by destruct (collected_all st).
  - destruct (rmatch episode_data_regex (i_string d)) as [g|].
    + case_bool_decide; intros [= <- <-] [= <-]; eexists; split; try done;
        by apply suffix_cons_r.
    + by intros [= <- <-].
  - intros [= <- <-] [= <-]. by eexists.
  - intros [= <- <-] [= <-]. by eexists.
  - by intros [= <- <-].
  - done.
  - done.
Qed.

Lemma coordinator_step_cursor m m' :
  coordinator_step get_html release_links m = Some m' →
  cursor_invariant get_html release_links m →
  cursor_invariant get_html release_links m'.
Proof.
  unfold coordinator_step.
  destruct (coord m) as [html| | |e] eqn:Hc; [| |done..].
  2:{ intros [= <-] (Hlen & Hth & Hpage & Hw).
      split; [|split; [|split]]; simpl; try done.
      intros html. by destruct (debug_block (self m)). }
  destruct (_ && _); intros [= <-] (Hlen & Hth & Hpage & Hw).
  - split; [|split; [|split]].
    + simpl. rewrite length_app. simpl. lia.
    + change (threads (self m) ++ [thread_name (episodes_page_number (self m))]
              = thread_name <$> seq 0 (S (episodes_page_number (self m)))).
      rewrite Hth, seq_S, fmap_app. done.
    + simpl. by intros html' [= <-].
    + simpl.
      intros i w divs Hi Hdivs.
      apply lookup_app_Some in Hi as [Hi|[Hge Hi]]; [by eapply Hw|].
      assert (i = episodes_page_number (self m)) as ->.
      { apply lookup_lt_Some in Hi. simpl in Hi. lia. }
      rewrite Hlen, Nat.sub_diag in Hi. injection Hi as <-.
      injection Hdivs as <-. by rewrite <- (Hpage html).
  - split; [|split; [|split]]; simpl; try done.
Qed.

Lemma worker_turn_cursor i m m' :
  worker_turn i m = Some m' →
  cursor_invariant get_html release_links m →
  cursor_invariant get_html release_links m'.
Proof.
  unfold worker_turn. destruct (workers m !! i) as [w|] eqn:Hi; [|done].
  destruct (worker_step w (self m)) as [[w' st']|] eqn:E; [|done].
  intros [= <-] (Hlen & Hth & Hpage & Hw).
  destruct (worker_step_frame _ _ _ _ E) as (Hid & _ & Hth' & Hpg).
  split; [|split; [|split]]; simpl; rewrite ?Hid, ?Hth', ?Hpg.
  - by rewrite length_insert.
  - done.
  - done.
  - intros j w2 divs2 Hj Hdivs. destruct (decide (i = j)) as [->|Hne].
    + rewrite list_lookup_insert_eq in Hj by by eapply lookup_lt_Some.
      injection Hj as <-.
      destruct (worker_step_divs _ _ _ _ _ E Hdivs) as (divs & Hd & Hsuf).
      etrans; [exact Hsuf|]. by eapply Hw.
    + rewrite list_lookup_insert_ne in Hj by done. by eapply Hw.
Qed.

Lemma steps_cursor m m' :
  rtc (step get_html release_links) m m' →
  cursor_invariant get_html release_links m →
  cursor_invariant get_html release_links m'.
Proof.
  induction 1 as [m|m1 m2 m3 [[|i] Hstep] _ IH]; [done|..]; intros Hinv.
  - by eapply IH, coordinator_step_cursor.
  - by eapply IH, worker_turn_cursor.
Qed.

End Cursor.

(** X14.  In every run that the constructor starts, in any interleaving: the
    page cursor equals the number of threads started; the threads are named
    [ep_parse_0], [ep_parse_1], ... in the order of their start; while the
    coordinator is in its loop the page it holds is the page at the cursor;
    and the thread at position [i] works on the blocks of page [i], from the
    last to the first, never on another page. *)
Theorem cursor_bookkeeping
    get_html release_links regex_failure_is_horriblesubs
    given_id given_url given_debug m0 m :
  __init__ get_html release_links regex_failure_is_horriblesubs
    given_id given_url given_debug = inr m0 →
  rtc (step get_html release_links) m0 m →
  cursor_invariant get_html release_links m.
Proof.
  intros Hinit Hrun.
  destruct (init_machine _ _ _ _ _ _ _ Hinit) as (Hw & Hst & Hcoord).
  destruct (init_batch_phase_object _ _ _ _ _ _ _ Hst) as (Hth & Hpg & _).
  apply (steps_cursor _ _ _ _ Hrun).
  split; [|split; [|split]].
  - by rewrite Hw, Hpg.
  - by rewrite Hth, Hpg.
  - intros html Hc. rewrite Hpg.
    destruct Hcoord as [Hc'|Hc']; rewrite Hc' in Hc; [done|].
    by injection Hc as <-.
  - intros i w divs. by rewrite Hw.
Qed.

Lemma cursor_bookkeeping_witness :
  cursor_invariant covered_web covered_soup
    (after [Coordinator; Coordinator; Worker 1] covered_start).
Proof.
  apply (cursor_bookkeeping covered_web covered_soup true PNone
           (Some "http://horriblesubs.info/shows/x") false covered_start).
  - reflexivity.
  - apply (run_rtc _ _ [Coordinator; Coordinator; Worker 1]). reflexivity.
Defined.

(** ** When the coordinator stops (lines 117-139) *)

Section Exhaustion.

Variable get_html : string → string.
Variable release_links : string → list block.

(** The coordinator scheduled [k] times in a row. *)
Lemma coordinator_turns_loop k st ws :
  all_episodes_acquired st = false →
  (∀ i, (i < k)%nat →
        get_html (episodes_page_url "show" (show_id st)
                    (episodes_page_number st + i)) ≠ "DONE") →
  ∃ st',
    run get_html release_links (replicate k Coordinator)
      (Machine st
         (CLoop (get_html (episodes_page_url "show" (show_id st)
                             (episodes_page_number st)))) ws)
    = Some (Machine st'
              (CLoop (get_html (episodes_page_url "show" (show_id st)
                                  (episodes_page_number st + k))))
              (ws ++ started_workers get_html release_links (show_id st)
                       (episodes_page_number st) k)) ∧
    show_id st' = show_id st ∧
    episodes_page_number st' = (episodes_page_number st + k)%nat ∧
    threads st' = threads st ++ (thread_name <$> seq (episodes_page_number st) k) ∧
    episodes st' = episodes st ∧
    episode_numbers_collected st' = episode_numbers_collected st ∧
    all_episodes_acquired st' = false.
Proof.
  revert st ws. induction k as [|k IH]; intros st ws Hflag Hpages.
  - exists st. simpl. rewrite Nat.add_0_r, !app_nil_r. by destruct st.
  - assert (H0 : get_html (episodes_page_url "show" (show_id st)
                             (episodes_page_number st)) ≠ "DONE").
    { specialize (Hpages 0%nat). rewrite Nat.add_0_r in Hpages.
      apply Hpages. lia. }
    apply String.eqb_neq in H0.
    set (st1 := set_episodes_page_number (S (episodes_page_number st))
                  (set_threads (threads st
                                ++ [thread_name (episodes_page_number st)])
                     st)).
    destruct (IH st1
                (ws ++ [WLoop (rev (release_links
                           (get_html (episodes_page_url "show" (show_id st)
                                        (episodes_page_number st)))))]))
      as (st' & Hrun & Hid & Hpg & Hth & Hep & Hcol & Hfl).
    { done. }
    { intros i Hi. simpl. rewrite <- Nat.add_succ_r. apply Hpages. lia. }
    exists st'. simpl in Hrun, Hid, Hpg, Hth, Hep, Hcol.
    split.
    { change (replicate (S k) Coordinator)
        with (Coordinator :: replicate k Coordinator).
      cbn [run run_turn]. unfold coordinator_step. cbn [coord self workers].
      rewrite H0, Hflag. cbn [negb andb].
      unfold _get_next_page_html. cbn [fst snd].
      refine (eq_trans Hrun _). f_equal. f_equal.
      - by rewrite Nat.add_succ_r.
      - by rewrite <- app_assoc. }
    split; [done|]. split; [lia|].
    split; [by rewrite Hth, <- app_assoc|]. done.
Qed.

(** X15.  Scheduled on its own, with the flag down, the coordinator stops at
    the first page that is the end marker: if the pages at the cursor and the
    [n - 1] after it are not [DONE] and the next one is, then after [n + 1]
    turns it has left the loop ([parse_all_in_parallel] has returned), with
    one thread started for each of those [n] pages, in order, the cursor on
    the [DONE] page, and the collection untouched.  As long as the pages are
    not [DONE] it stays in its loop: after [n] turns over [n] such pages it
    has started [n] threads and has not left the loop. *)
Theorem coordinator_stops_at_done st n :
  all_episodes_acquired st = false →
  (∀ i, (i < n)%nat →
        get_html (episodes_page_url "show" (show_id st)
                    (episodes_page_number st + i)) ≠ "DONE") →
  (get_html (episodes_page_url "show" (show_id st)
               (episodes_page_number st + n)) = "DONE" →
   ∃ st',
     run get_html release_links (replicate (S n) Coordinator)
       (parse_all_in_parallel get_html st)
     = Some (Machine st' CReturned
               (started_workers get_html release_links (show_id st)
                  (episodes_page_number st) n)) ∧
     episodes_page_number st' = (episodes_page_number st + n)%nat ∧
     threads st'
     = threads st ++ (thread_name <$> seq (episodes_page_number st) n) ∧
     episodes st' = episodes st) ∧
  ∃ st' html,
    run get_html release_links (replicate n Coordinator)
      (parse_all_in_parallel get_html st)
    = Some (Machine st' (CLoop html)
              (started_workers get_html release_links (show_id st)
                 (episodes_page_number st) n)).
Proof.
  intros Hflag Hpages.
  destruct (coordinator_turns_loop n st [] Hflag Hpages)
    as (st' & Hrun & Hid & Hpg & Hth & Hep & Hcol & Hfl).
  assert (Hstart : parse_all_in_parallel get_html st
            = Machine st
                (CLoop (get_html (episodes_page_url "show" (show_id st)
                                    (episodes_page_number st)))) []).
  { done. }
  rewrite Hstart. split; [|by eauto].
  intros Hdone. exists st'.
  replace (S n) with (n + 1)%nat by lia.
  rewrite replicate_add.
  assert (Hrun_app : ∀ ts1 ts2 m,
            run get_html release_links (ts1 ++ ts2) m
            = match run get_html release_links ts1 m with
              | Some m1 => run get_html release_links ts2 m1
              | None => None
              end).
  { induction ts1 as [|t ts1 IH1]; intros ts2 m; simpl; [done|].
    by destruct (run_turn get_html release_links t m). }
  rewrite Hrun_app, Hrun. simpl. unfold coordinator_step. simpl.
  by rewrite Hdone.
Qed.

End Exhaustion.

Lemma coordinator_stops_at_done_witness :
  ∃ st',
    run one_episode_web one_episode_soup (replicate 2 Coordinator)
      (parse_all_in_parallel one_episode_web
         (fresh (PStr "3") (Some {[PInt 1]})))
    = Some (Machine st' CReturned
              [WLoop [Block "Show - 01 [1080p]" "magnet:?xt=e1"]]) ∧
    episodes_page_number st' = 1%nat.
Proof.
  destruct (coordinator_stops_at_done one_episode_web one_episode_soup
              (fresh (PStr "3") (Some {[PInt 1]})) 1) as [Hdone _].
  - reflexivity.
  - intros i Hi. assert (i = 0%nat) as -> by lia. vm_compute. discriminate.
  - destruct (Hdone eq_refl) as (st' & Hrun & Hpg & _). by exists st'.
Defined.

(** ** The downloader (lines 265-272) *)

Section DownloadFacts.

Variable platform : string.
Variable raises : nat → bool.

Lemma download_from_all i es :
  (∀ j, (j < length es)%nat → raises (i + j) = false) →
  download_from platform raises i es = (open_magnet platform <$> es, true).
Proof.
  revert i. induction es as [|e es IH]; intros i Hok; simpl; [done|].
  pose proof (Hok 0%nat) as H0. rewrite Nat.add_0_r in H0.
  rewrite H0 by (simpl; lia). rewrite IH; [done|].
  intros j Hj. rewrite Nat.add_succ_comm. apply Hok. simpl. lia.
Qed.

Lemma download_from_stops i es k :
  (k < length es)%nat → raises (i + k) = true →
  (∀ j, (j < k)%nat → raises (i + j) = false) →
  download_from platform raises i es
  = (open_magnet platform <$> take (S k) es, false).
Proof.
  revert i k. induction es as [|e es IH]; intros i k Hk Hbad Hok; simpl in *;
    [lia|].
  destruct k as [|k].
  - rewrite Nat.add_0_r in Hbad. rewrite Hbad. by rewrite take_0.
  - pose proof (Hok 0%nat) as H0. rewrite Nat.add_0_r in H0.
    rewrite H0 by lia. rewrite (IH (S i) k); [done|lia|..].
    + by rewrite Nat.add_succ_comm.
    + intros j Hj. rewrite Nat.add_succ_comm. apply Hok. lia.
Qed.

(** X16.  [download] hands the magnet links to the operating system in the
    order of the collection, one call per entry, each in the form of the
    platform.  When no call raises, every entry is opened.  When the call at
    position [k] is the first to raise, the entries up to and including
    position [k] have been handed over and none of the later ones is: the
    loop is left at the first failure. *)
Theorem download_calls st :
  ((∀ i, (i < length (episodes st))%nat → raises i = false) →
   download platform raises st
   = (open_magnet platform <$> episodes st, true)) ∧
  (∀ k, (k < length (episodes st))%nat → raises k = true →
        (∀ i, (i < k)%nat → raises i = false) →
        download platform raises st
        = (open_magnet platform <$> take (S k) (episodes st), false)).
Proof.
  split.
  - intros Hok. by apply download_from_all.
  - intros k Hk Hbad Hok. by apply download_from_stops.
Qed.

End DownloadFacts.

Lemma download_calls_witness :
  download "linux" (λ i, Nat.eqb i 1) three_entries
  = ([SubprocessCall ["xdg-open"; "magnet:?xt=e1"];
      SubprocessCall ["xdg-open"; "magnet:?xt=e2"]], false).
Proof.
  refine (proj2 (download_calls "linux" (λ i, Nat.eqb i 1) three_entries)
            1%nat _ _ _).
  - simpl. lia.
  - reflexivity.
  - intros i Hi. assert (i = 0%nat) as -> by lia. reflexivity.
Defined.

(** ** A thread that is not interrupted (lines 120-125, 141-181) *)

Section Alone.

Variable get_html : string → string.
Variable release_links : string → list block.

Lemma wsteps_run i c c' :
  rtc wstep c c' →
  ∀ m, workers m !! i = Some c.1 → self m = c.2 →
  ∃ k, run get_html release_links (replicate k (Worker i)) m
       = Some (Machine c'.2 (coord m) (<[i:=c'.1]> (workers m))).
Proof.
  induction 1 as [[w st]|[w st] [w2 st2] c3 Hstep _ IH]; intros m Hw Hst;
    simpl in *.
  - exists 0%nat. simpl. rewrite list_insert_id by done. subst st.
    by destruct m.
  - unfold wstep in Hstep. simpl in Hstep.
    assert (Hi : (i < length (workers m))%nat) by by eapply lookup_lt_Some.
    destruct (IH (Machine st2 (coord m) (<[i:=w2]> (workers m)))) as [k Hk].
    { simpl. by apply list_lookup_insert_eq. }
    { done. }
    exists (S k). simpl. unfold worker_turn. rewrite Hw, Hst, Hstep.
    rewrite Hk. simpl. by rewrite list_insert_insert_eq.
Qed.

(** X17.  A thread that has just been started on a page and is then
    scheduled without interruption until it stops does to the object exactly
    what the method [parse_episodes] does when called on that page, and it
    ends normally or with the exception that the method raises; after that
    it takes no further step. *)
Theorem worker_uninterrupted html m i :
  workers m !! i = Some (WLoop (rev (release_links html))) →
  ∃ k,
    run get_html release_links (replicate k (Worker i)) m
    = Some (Machine (parse_episodes release_links html (self m)).1 (coord m)
              (<[i:=outcome (parse_episodes release_links html (self m)).2]>
                 (workers m))) ∧
    run_turn get_html release_links (Worker i)
      (Machine (parse_episodes release_links html (self m)).1 (coord m)
         (<[i:=outcome (parse_episodes release_links html (self m)).2]>
            (workers m))) = None.
Proof.
  intros Hw.
  destruct (worker_alone release_links html (self m)) as [Hrun Hstop].
  destruct (wsteps_run i _ _ Hrun m Hw eq_refl) as [k Hk].
  exists k. split; [exact Hk|]. simpl. unfold worker_turn. simpl.
  rewrite list_lookup_insert_eq by by eapply lookup_lt_Some.
  by rewrite Hstop.
Qed.

End Alone.

Lemma worker_uninterrupted_witness :
  ∃ k,
    run covered_web covered_soup (replicate k (Worker 1))
      (after [Coordinator; Coordinator] covered_start)
    = Some (Machine
              (parse_episodes covered_soup "more"
                 (self (after [Coordinator; Coordinator] covered_start))).1
              (coord (after [Coordinator; Coordinator] covered_start))
              (<[1%nat:=outcome
                   (parse_episodes covered_soup "more"
                      (self (after [Coordinator; Coordinator]
                               covered_start))).2]>
                 (workers (after [Coordinator; Coordinator] covered_start)))).
Proof.
  destruct (worker_uninterrupted covered_web covered_soup "more"
              (after [Coordinator; Coordinator] covered_start) 1)
    as (k & Hk & _); [reflexivity|].
  by exists k.
Defined.

(** ** Batch blocks for one range (lines 189-222) *)

(** X18.  Of the blocks of a batch page that expand to one non-empty range,
    not stored before, the batch parse keeps the one that comes last in the
    document, whatever else the page holds: when the blocks after [b] parse
    and have other ranges, the entry appended under the range of [b] is the
    entry of [b], and it is the only new entry under that range.  The ranges
    are compared as lists of numbers, so [(01-12)] and [(1-12)] are the same
    range. *)
Theorem parse_batch_episodes_last_block_wins
    release_links html st pre b post m rng :
  release_links html = pre ++ b :: post →
  rmatch batch_episodes_data_regex (i_string b) = Some m →
  episode_range (group 1 m) (group 2 m) = inr rng →
  rng ≠ [] →
  Forall (λ b', batch_block_ok b' ∧ block_range b' ≠ Some rng) post →
  has_range rng (episodes st) = false →
  ∃ before after,
    episodes (parse_batch_episodes release_links html st).1
    = episodes st ++ before
      ++ [Episode (PList rng) (group 3 m) (magnet_href b)] ++ after ∧
    ∀ e, e ∈ before ++ after → episode_number e ≠ PList rng.
Proof.
  intros Hdoc Hm Hrng Hne Hpost Hnew.
  assert (Hrev : rev (release_links html) = rev post ++ b :: rev pre).
  { by rewrite Hdoc, rev_app_distr; simpl; rewrite <- app_assoc. }
  pose proof (Forall_rev Hpost) as Hpost'.
  assert (Hgood : Forall batch_block_ok (rev post)).
  { eapply Forall_impl; [exact Hpost'|]. by intros b' [? _]. }
  assert (Hother : rng ∉ block_ranges (rev post)).
  { unfold block_ranges. rewrite list_elem_of_omap.
    intros (b' & Hb' & Hr). rewrite Forall_forall in Hpost'.
    by destruct (Hpost' b' Hb') as [_ ?]. }
  destruct (parse_batch_episodes_loop_visited (rev post) st Hgood)
    as [_ Hcol].
  destruct (parse_batch_episodes_loop_effect (rev post) st)
    as (before & Heps1 & _).
  pose proof (parse_batch_episodes_loop_snoc (rev post) b m rng st Hgood Hm
                Hrng) as Hsnoc.
  cbn zeta in Hsnoc.
  assert (Hout : has_range rng
                   (episodes (parse_batch_episodes_loop (rev post) st).1)
                 = false).
  { apply not_true_is_false. intros E.
    apply Hcol in E as [E|[_ E]]; [congruence|done]. }
  rewrite Hout in Hsnoc.
  destruct (parse_batch_episodes_later release_links html st (rev post) b
              (rev pre) Hrev) as (after & Heps & Hfresh3);
    [by rewrite Hsnoc|].
  rewrite Hsnoc in Heps, Hfresh3. cbn [fst] in Heps, Hfresh3.
  set (st1 := (parse_batch_episodes_loop (rev post) st).1) in *.
  assert (Heps2 : episodes (_add_episode PNone (Some rng) (group 3 m)
                              (magnet_href b) st1)
            = episodes st1 ++ [Episode (PList rng) (group 3 m)
                                 (magnet_href b)]).
  { simpl. by destruct rng. }
  rewrite Heps2 in Heps, Hfresh3.
  exists before, after. split.
  { rewrite Heps, Heps1. by rewrite <- !app_assoc. }
  intros e [He|He]%elem_of_app Hnum.
  - assert (has_range rng (episodes st1) = true); [|congruence].
    rewrite Heps1, has_range_app. apply orb_true_iff. right.
    apply has_range_elem. by exists e.
  - assert (Hin : rng ∈ batch_ranges after).
    { apply has_range_batch_ranges, has_range_elem. by exists e. }
    apply Hfresh3 in Hin. rewrite has_range_app in Hin.
    apply orb_false_elim in Hin as [_ Hin]. simpl in Hin.
    by rewrite bool_decide_eq_true_2 in Hin.
Qed.

Lemma parse_batch_episodes_last_block_wins_witness :
  ∃ before after,
    episodes (parse_batch_episodes
       (λ _, [Block "Show (1-3) [1080p]" "magnet:?xt=b13";
              Block "Show (01-12) [1080p]" "magnet:?xt=hi";
              Block "Show (1-12) [480p]" "magnet:?xt=lo";
              Block "Show (1-2) [1080p]" "magnet:?xt=b12"]) "batch"
       (fresh (PStr "7") None)).1
    = [] ++ before
      ++ [Episode (PList [1; 2; 3; 4; 5; 6; 7; 8; 9; 10; 11; 12]) "480p"
            "magnet:?xt=lo"] ++ after ∧
    ∀ e, e ∈ before ++ after →
         episode_number e ≠ PList [1; 2; 3; 4; 5; 6; 7; 8; 9; 10; 11; 12].
Proof.
  apply (parse_batch_episodes_last_block_wins _ "batch" (fresh (PStr "7") None)
           [Block "Show (1-3) [1080p]" "magnet:?xt=b13";
            Block "Show (01-12) [1080p]" "magnet:?xt=hi"]
           (Block "Show (1-12) [480p]" "magnet:?xt=lo")
           [Block "Show (1-2) [1080p]" "magnet:?xt=b12"]
           ["1"; "12"; "480p"]).
  - reflexivity.
  - reflexivity.
  - reflexivity.
  - discriminate.
  - repeat constructor; [|discriminate].
    exists ["1"; "2"; "1080p"]. split; [reflexivity|]. split; discriminate.
  - reflexivity.
Defined.

(** ** The URLs (lines 15-19, 129-139) *)

Lemma append_inv_head a b c : a +:+ b = a +:+ c → b = c.
Proof.
  induction a as [|ch a IH]; norm_append; [done|]. intros [= H]. by apply IH.
Qed.

Lemma length_append a b :
  String.length (a +:+ b) = (String.length a + String.length b)%nat.
Proof. induction a as [|ch a IH]; norm_append; simpl; [done|]. by rewrite IH. Qed.

Lemma append_inv_tail a b c : a +:+ c = b +:+ c → a = b.
Proof.
  revert b. induction a as [|ch a IH]; intros [|ch' b] H; norm_append.
  - done.
  - apply (f_equal String.length) in H. simpl in H.
    rewrite length_append in H. lia.
  - apply (f_equal String.length) in H. simpl in H.
    rewrite length_append in H. lia.
  - injection H as -> H. by rewrite (IH b H).
Qed.

(** X19.  The URL of a page determines the page number: two different page
    numbers of one show never give the same URL, and no page URL is the URL
    of the unpaginated listing. *)
Theorem episodes_page_url_inj show_type sid n n' :
  (episodes_page_url show_type sid n = episodes_page_url show_type sid n' →
   n = n') ∧
  episodes_page_url show_type sid n ≠ episodes_url show_type sid.
Proof.
  unfold episodes_page_url. split.
  - intros H. do 2 apply append_inv_head in H.
    apply append_inv_tail in H. by apply (inj pretty).
  - intros H. apply (f_equal String.length) in H.
    rewrite length_append in H. simpl in H. lia.
Qed.

Lemma episodes_page_url_inj_witness :
  episodes_page_url "show" (PStr "731") 3
  ≠ episodes_page_url "show" (PStr "731") 12.
Proof.
  intros H.
  by apply (proj1 (episodes_page_url_inj "show" (PStr "731") 3 12)) in H.
Defined.

(** ** What the constructor delivers (lines 21-91) *)

(** X20.  When the constructor does not raise, the object it delivers to the
    pagination phase has a [show_id] that is a [str] of digits, the flag down,
    no thread, the cursor on page 0, and a collection that holds batch
    entries only, no two of them with the same range; its collected set is
    exactly the set of the numbers of these entries.  The pagination phase is
    entered exactly when [episodes_available] is a set that is not empty, and
    it then starts with page 0 in hand. *)
Theorem init_delivers
    get_html release_links regex_failure_is_horriblesubs
    given_id given_url given_debug m0 :
  __init__ get_html release_links regex_failure_is_horriblesubs
    given_id given_url given_debug = inr m0 →
  (∃ s, show_id (self m0) = PStr s ∧ str_forall is_digit s = true) ∧
  all_episodes_acquired (self m0) = false ∧
  threads (self m0) = [] ∧ workers m0 = [] ∧
  episodes_page_number (self m0) = 0%nat ∧
  single_numerals (episodes (self m0)) = [] ∧
  NoDup (batch_ranges (episodes (self m0))) ∧
  episode_numbers_collected (self m0)
  = list_to_set (concat (entry_numbers <$> episodes (self m0))) ∧
  coord m0
  = (if pagination_wanted (self m0)
     then CLoop (get_html (episodes_page_url "show" (show_id (self m0)) 0))
     else CReturned).
Proof.
  intros Hinit.
  destruct (init_machine _ _ _ _ _ _ _ Hinit) as (Hw & Hst & _).
  destruct (init_batch_phase_object _ _ _ _ _ _ _ Hst)
    as (Hth & Hpg & Hflag & _).
  assert (Hcoord : coord m0
            = (if pagination_wanted (self m0)
               then CLoop (get_html (episodes_page_url "show"
                                       (show_id (self m0)) 0))
               else CReturned)).
  { revert Hinit. unfold __init__. rewrite Hst. intros [= H].
    apply (f_equal coord) in H. rewrite <- H.
    destruct (pagination_wanted (self m0)); [|done].
    unfold parse_all_in_parallel, _get_next_page_html. simpl.
    by rewrite Hpg. }
  revert Hst. unfold init_batch_phase.
  destruct (resolve_show_id get_html given_id given_url) as [e|sid] eqn:Hsid;
    [done|].
  destruct (resolve_episodes_available _ _ _ _) as [e|available]; [done|].
  unfold parse_batch_episodes.
  set (divs := rev (release_links (get_html (episodes_url "batch" sid)))).
  destruct (parse_batch_episodes_loop_effect divs
              (Scraper sid available false [] [] ∅ 0 given_debug))
    as (new & Heps & Hsingle & Hnodup & _ & Hcol).
  pose proof (parse_batch_episodes_loop_frame divs
                (Scraper sid available false [] [] ∅ 0 given_debug))
    as (Hid & _).
  destruct (parse_batch_episodes_loop divs _) as [st' [e|]]; [done|].
  intros [= Hself]. simpl in Heps, Hcol, Hid. rewrite <- Hself.
  split.
  { destruct (resolve_show_id_only_by_url _ _ _ _ Hsid)
      as (_ & u & s & _ & Hs & ->).
    exists s. split; [done|]. by eapply get_show_id_from_url_digits. }
  rewrite <- Hself in Hflag, Hth, Hpg.
  do 4 (split; [done|]).
  rewrite Heps. split; [done|]. split; [done|].
  split; [|by rewrite Hcoord, <- Hself].
  by rewrite Hcol, (left_id_L ∅ (∪)).
Qed.

Lemma init_delivers_witness :
  episodes_page_number (self covered_start) = 0%nat ∧
  single_numerals (episodes (self covered_start)) = [] ∧
  coord covered_start
  = CLoop (covered_web (episodes_page_url "show" (PStr "9") 0)).
Proof.
  destruct (init_delivers covered_web covered_soup true PNone
              (Some "http://horriblesubs.info/shows/x") false covered_start
              eq_refl) as (_ & _ & _ & _ & H1 & H2 & _ & _ & H3).
  split; [exact H1|]. split; [exact H2|]. exact H3.
Defined.

(** ** The [debug] block at the end of a run (lines 93-101) *)

Lemma step_debug_ranges get_html release_links m m' :
  step get_html release_links m m' →
  debug (self m') = debug (self m) ∧
  batch_ranges (episodes (self m')) = batch_ranges (episodes (self m)).
Proof.
  intros [[|i] Hstep]; simpl in Hstep.
  - unfold coordinator_step in Hstep.
    destruct (coord m) as [html| | |e]; [|by injection Hstep as <-|done..].
    destruct (_ && _); by injection Hstep as <-.
  - unfold worker_turn in Hstep.
    destruct (workers m !! i) as [w|]; [|done].
    destruct (worker_step w (self m)) as [[w' st']|] eqn:E; [|done].
    injection Hstep as <-. simpl.
    destruct w as [[|d divs]|n r mg divs|n divs| | |]; simpl in E.
    + by injection E as <- <-.
    + destruct (rmatch episode_data_regex (i_string d)); [|by injection E as <- <-].
      case_bool_decide; by injection E as <- <-.
    + injection E as <- <-. split; [done|]. simpl.
      rewrite batch_ranges_snoc. simpl. apply app_nil_r.
    + by injection E as <- <-.
    + by injection E as <- <-.
    + done.
    + done.
Qed.

Lemma steps_debug_ranges get_html release_links m m' :
  rtc (step get_html release_links) m m' →
  debug (self m') = debug (self m) ∧
  batch_ranges (episodes (self m')) = batch_ranges (episodes (self m)).
Proof.
  induction 1 as [m|m1 m2 m3 Hstep _ [IH1 IH2]]; [done|].
  destruct (step_debug_ranges _ _ _ _ Hstep) as [H1 H2].
  split; congruence.
Qed.

Lemma two_kinds_not_one es e1 e2 l s :
  e1 ∈ es → e2 ∈ es →
  episode_number e1 = PList l → episode_number e2 = PStr s →
  ¬ one_kind debug_key_kind es.
Proof.
  intros H1 H2 Hl Hs [Hlen|[k Hk]].
  - destruct es as [|x [|y es]]; simpl in Hlen; [|  |lia].
    + by apply elem_of_nil in H1.
    + apply list_elem_of_singleton in H1, H2. congruence.
  - rewrite Forall_forall in Hk.
    pose proof (Hk e1 H1) as K1. pose proof (Hk e2 H2) as K2.
    unfold debug_key_kind in K1, K2. rewrite Hl in K1. rewrite Hs in K2.
    simpl in K2. congruence.
Qed.

(** X22.  In every run that the constructor starts, when the coordinator is
    back from the pagination phase the [debug] attribute is what the caller
    gave, and the constructor ends as follows.  With [debug] off it returns.
    With [debug] on it sorts the collection as it stands at that moment
    (threads may still be appending): it returns when there is at most one
    entry or all keys are of one kind (all ranges, or all numerals), and
    raises [TypeError] otherwise.  In particular, with [debug] on, a
    collection that holds a batch entry and a single-episode entry makes the
    constructor raise. *)
Theorem debug_block_outcome
    get_html release_links regex_failure_is_horriblesubs
    given_id given_url given_debug m0 m :
  __init__ get_html release_links regex_failure_is_horriblesubs
    given_id given_url given_debug = inr m0 →
  rtc (step get_html release_links) m0 m →
  coord m = CReturned →
  debug (self m) = given_debug ∧
  (given_debug = false ∨ one_kind debug_key_kind (episodes (self m)) →
   coordinator_step get_html release_links m
   = Some (Machine (self m) CDone (workers m))) ∧
  (given_debug = true → ¬ one_kind debug_key_kind (episodes (self m)) →
   coordinator_step get_html release_links m
   = Some (Machine (self m) (CRaised TypeError) (workers m))) ∧
  (given_debug = true →
   ∀ e1 e2 l s, e1 ∈ episodes (self m) → e2 ∈ episodes (self m) →
     episode_number e1 = PList l → episode_number e2 = PStr s →
     coordinator_step get_html release_links m
     = Some (Machine (self m) (CRaised TypeError) (workers m))).
Proof.
  intros Hinit Hrun Hc.
  destruct (init_machine _ _ _ _ _ _ _ Hinit) as (_ & Hst & _).
  destruct (init_batch_phase_object _ _ _ _ _ _ _ Hst)
    as (_ & _ & _ & [_ _ Hne _]).
  destruct (steps_debug_ranges _ _ _ _ Hrun) as [Hdbg Hranges].
  rewrite <- Hranges in Hne.
  assert (Hdbg0 : debug (self m0) = given_debug).
  { revert Hst. unfold init_batch_phase.
    destruct (resolve_show_id _ _ _) as [e|sid]; [done|].
    destruct (resolve_episodes_available _ _ _ _) as [e|available]; [done|].
    unfold parse_batch_episodes.
    pose proof (parse_batch_episodes_loop_debug
                  (rev (release_links (get_html (episodes_url "batch" sid))))
                  (Scraper sid available false [] [] ∅ 0 given_debug)) as H.
    destruct (parse_batch_episodes_loop _ _) as [st' [e|]]; [done|].
    by intros [= <-]. }
  rewrite Hdbg0 in Hdbg.
  destruct (debug_block_sorted (self m) Hne) as [Hfine Hraise].
  rewrite Hdbg in Hfine, Hraise.
  assert (Hstep : coordinator_step get_html release_links m
                  = Some (Machine (self m)
                            (match debug_block (self m) with
                             | Some e => CRaised e
                             | None => CDone
                             end) (workers m))).
  { unfold coordinator_step. by rewrite Hc. }
  split; [done|]. split; [|split].
  - intros H. by rewrite Hstep, Hfine.
  - intros Hon H. by rewrite Hstep, Hraise.
  - intros Hon e1 e2 l s H1 H2 Hl Hs. rewrite Hstep, Hraise; [done..|].
    exact (two_kinds_not_one _ e1 e2 l s H1 H2 Hl Hs).
Qed.

Lemma debug_block_outcome_witness :
  let m := default covered_start_debug
             (run covered_web covered_soup
                [Coordinator; Coordinator; Worker 1; Worker 1; Coordinator]
                covered_start_debug) in
  (episode_number <$> episodes (self m)) = [PList [1; 2; 3]; PStr "03"] ∧
  coordinator_step covered_web covered_soup m
  = Some (Machine (self m) (CRaised TypeError) (workers m)).
Proof.
  split; [reflexivity|].
  refine (proj2 (proj2 (proj2 (debug_block_outcome covered_web covered_soup
            true PNone (Some "http://horriblesubs.info/shows/x") true
            covered_start_debug _ _ _ _))) _
            (Episode (PList [1; 2; 3]) "1080p" "magnet:?xt=b13")
            (Episode (PStr "03") "1080p" "magnet:?xt=e3") [1; 2; 3] "03"
            _ _ _ _).
  - reflexivity.
  - apply (run_rtc _ _ [Coordinator; Coordinator; Worker 1; Worker 1;
                        Coordinator]).
    reflexivity.
  - reflexivity.
  - reflexivity.
  - apply list_elem_of_here.
  - apply list_elem_of_further, list_elem_of_here.
  - reflexivity.
  - reflexivity.
Defined.

(** ** The run in which the threads take turns (lines 117-181) *)

Lemma add_single_same_data n r mg a b :
  same_data a b →
  same_data (_add_episode (PStr n) None r mg a)
            (_add_episode (PStr n) None r mg b).
Proof.
  intros (He & Hc & Hf & Ha). repeat split; simpl; congruence.
Qed.

Lemma parse_episodes_loop_same_data divs a b :
  same_data a b →
  same_data (parse_episodes_loop divs a).1 (parse_episodes_loop divs b).1 ∧
  (parse_episodes_loop divs a).2 = (parse_episodes_loop divs b).2.
Proof.
  revert a b. induction divs as [|d divs IH]; intros a b Hab; simpl; [done|].
  destruct (rmatch episode_data_regex (i_string d)) as [m|]; [|done].
  destruct Hab as (He & Hc & Hf & Ha). rewrite Hc.
  case_bool_decide; apply IH; [done|].
  by apply add_single_same_data.
Qed.

Lemma parse_episodes_same_data release_links html a b :
  same_data a b →
  same_data (parse_episodes release_links html a).1
            (parse_episodes release_links html b).1.
Proof.
  intros Hab. unfold parse_episodes.
  destruct (parse_episodes_loop_same_data (rev (release_links html)) a b Hab)
    as [Hdata Hexn].
  destruct (parse_episodes_loop _ a) as [a' oa].
  destruct (parse_episodes_loop _ b) as [b' ob].
  simpl in *. subst ob. destruct oa as [e|]; [done|]. simpl.
  destruct Hdata as (He & Hc & Hf & Ha).
  unfold collected_all. rewrite Hc, Ha.
  case_bool_decide; repeat split; simpl; congruence.
Qed.

Lemma parse_pages_same_data release_links htmls a b :
  same_data a b →
  same_data (parse_pages release_links htmls a)
            (parse_pages release_links htmls b).
Proof.
  revert a b. induction htmls as [|h htmls IH]; intros a b Hab; simpl; [done|].
  by apply IH, parse_episodes_same_data.
Qed.

(** A page with at least one block leaves the flag alone, however its parse
    ends. *)
Lemma parse_episodes_flag_nonempty release_links html st A :
  episodes_available st = Some A → only_ints A →
  release_links html ≠ [] →
  all_episodes_acquired (parse_episodes release_links html st).1
  = all_episodes_acquired st.
Proof.
  intros Hav HA Hblocks.
  destruct ((parse_episodes release_links html st).2) as [e|] eqn:Hexn.
  - revert Hexn. unfold parse_episodes.
    pose proof (parse_episodes_loop_frame (rev (release_links html)) st)
      as (_ & _ & Hflag & _).
    by destruct (parse_episodes_loop _ st) as [st' [e'|]].
  - rewrite (parse_episodes_flag release_links html st Hexn).
    by rewrite (parse_episodes_not_all _ _ _ A), orb_false_r.
Qed.

Lemma run_app get_html release_links ts1 ts2 m :
  run get_html release_links (ts1 ++ ts2) m
  = match run get_html release_links ts1 m with
    | Some m1 => run get_html release_links ts2 m1
    | None => None
    end.
Proof.
  revert m. induction ts1 as [|t ts1 IH]; intros m; simpl; [done|].
  by destruct (run_turn get_html release_links t m).
Qed.

Lemma outcome_finished o : worker_finished (outcome o) = true.
Proof. by destruct o. Qed.

Section TakingTurns.

Variable get_html : string → string.
Variable release_links : string → list block.

Lemma taking_turns_from n st ws A :
  all_episodes_acquired st = false →
  episodes_available st = Some A → only_ints A →
  forallb worker_finished ws = true →
  (∀ i, (i < n)%nat →
     page_body get_html (show_id st) (episodes_page_number st + i) ≠ "DONE" ∧
     release_links (page_body get_html (show_id st)
                      (episodes_page_number st + i)) ≠ []) →
  page_body get_html (show_id st) (episodes_page_number st + n) = "DONE" →
  ∃ ts m,
    run get_html release_links ts
      (Machine st (CLoop (page_body get_html (show_id st)
                            (episodes_page_number st))) ws) = Some m ∧
    coord m = CReturned ∧
    forallb worker_finished (workers m) = true ∧
    length (workers m) = (length ws + n)%nat ∧
    same_data (self m)
      (parse_pages release_links
         (page_body get_html (show_id st)
          <$> seq (episodes_page_number st) n) st) ∧
    episodes_page_number (self m) = (episodes_page_number st + n)%nat ∧
    threads (self m)
    = threads st ++ (thread_name <$> seq (episodes_page_number st) n).
Proof.
  revert st ws.
  induction n as [|n IH]; intros st ws Hflag Hav HA Hws Hpages Hdone.
  - exists [Coordinator]. eexists. rewrite Nat.add_0_r in Hdone.
    split.
    { simpl. unfold coordinator_step. simpl. rewrite Hdone. reflexivity. }
    simpl. rewrite !Nat.add_0_r, app_nil_r. by repeat split.
  - destruct (Hpages 0%nat) as [Hnd Hne]; [lia|].
    rewrite Nat.add_0_r in Hnd, Hne.
    set (p := episodes_page_number st) in *.
    set (h := page_body get_html (show_id st) p) in *.
    set (st1 := set_episodes_page_number (S p)
                  (set_threads (threads st ++ [thread_name p]) st)).
    set (st2 := (parse_episodes release_links h st1).1).
    assert (Hdata1 : same_data st1 st) by done.
    pose proof (parse_episodes_same_data release_links h st1 st Hdata1)
      as Hdata2. fold st2 in Hdata2.
    pose proof (parse_episodes_available release_links h st1) as Hav2.
    fold st2 in Hav2.
    pose proof (parse_episodes_flag_nonempty release_links h st1 A Hav HA Hne)
      as Hflag2.
    fold st2 in Hflag2.
    assert (Hframe2 : show_id st2 = show_id st ∧
                      threads st2 = threads st ++ [thread_name p] ∧
                      episodes_page_number st2 = S p).
    { subst st2. unfold parse_episodes.
      pose proof (parse_episodes_loop_frame (rev (release_links h)) st1)
        as (Hid & _ & _ & Hth & Hpg).
      destruct (parse_episodes_loop _ st1) as [st' [e|]]; simpl in *; [done|].
      by destruct (collected_all st'). }
    destruct Hframe2 as (Hid2 & Hth2 & Hpg2).
    (* the coordinator starts the thread of page [p] ... *)
    assert (Hc : run get_html release_links [Coordinator]
                   (Machine st (CLoop h) ws)
                 = Some (Machine st1
                           (CLoop (page_body get_html (show_id st) (S p)))
                           (ws ++ [WLoop (rev (release_links h))]))).
    { simpl. unfold coordinator_step. simpl.
      apply String.eqb_neq in Hnd. by rewrite Hnd, Hflag. }
    (* ... which then runs to its end *)
    destruct (worker_alone release_links h st1) as [Hrun _].
    destruct (wsteps_run get_html release_links (length ws) _ _ Hrun
                (Machine st1 (CLoop (page_body get_html (show_id st) (S p)))
                   (ws ++ [WLoop (rev (release_links h))])))
      as [k Hk].
    { simpl. by rewrite lookup_app_r, Nat.sub_diag. }
    { done. }
    simpl in Hk. fold st2 in Hk.
    rewrite insert_app_r_alt, Nat.sub_diag in Hk by done. simpl in Hk.
    (* the rest of the pages *)
    destruct (IH st2 (ws ++ [outcome (parse_episodes release_links h st1).2]))
      as (ts & m & Hrest & Hret & Hfin & Hlen & Hdata & Hpg & Hth).
    { by rewrite Hflag2. }
    { by rewrite Hav2. }
    { done. }
    { rewrite forallb_app, Hws. simpl. by rewrite outcome_finished. }
    { intros i Hi. rewrite Hid2, Hpg2.
      replace (S p + i)%nat with (p + S i)%nat by lia. apply Hpages. lia. }
    { rewrite Hid2, Hpg2.
      by replace (S p + n)%nat with (p + S n)%nat by lia. }
    rewrite Hid2, Hpg2 in Hrest, Hdata. rewrite Hpg2 in Hpg, Hth.
    exists ([Coordinator] ++ replicate k (Worker (length ws)) ++ ts), m.
    split.
    { rewrite run_app, Hc, run_app, Hk. exact Hrest. }
    split; [done|]. split; [done|].
    split; [rewrite Hlen, length_app; simpl; lia|].
    split.
    { change (seq p (S n)) with (p :: seq (S p) n). rewrite fmap_cons.
      simpl. fold h.
      destruct Hdata as (He & Hc' & Hf & Ha).
      destruct (parse_pages_same_data release_links
                  (page_body get_html (show_id st) <$> seq (S p) n)
                  st2 (parse_episodes release_links h st).1 Hdata2)
        as (He' & Hc'' & Hf' & Ha').
      repeat split; congruence. }
    split; [lia|].
    rewrite Hth, Hth2, <- app_assoc. done.
Qed.

End TakingTurns.

(** X21.  Take an object as the constructor hands it to the pagination phase
    ([episodes_available] a set of [int]s, flag down), and a listing whose
    next [n] pages are not the end marker and carry at least one release
    block each, followed by the end marker.  Then there is a run, the one in
    which every thread finishes before the next page is fetched, that ends
    with [parse_all_in_parallel] returned and all [n] threads finished, and
    in which
    the collection, the collected set and the flag are those obtained by
    calling [parse_episodes] on the pages one after the other; a page whose
    parse raises ends its own thread only, the later pages are still
    parsed. *)
Theorem taking_turns get_html release_links st n A :
  all_episodes_acquired st = false →
  episodes_available st = Some A → only_ints A →
  (∀ i, (i < n)%nat →
     page_body get_html (show_id st) (episodes_page_number st + i) ≠ "DONE" ∧
     release_links (page_body get_html (show_id st)
                      (episodes_page_number st + i)) ≠ []) →
  page_body get_html (show_id st) (episodes_page_number st + n) = "DONE" →
  ∃ ts m,
    run get_html release_links ts (parse_all_in_parallel get_html st)
    = Some m ∧
    coord m = CReturned ∧
    forallb worker_finished (workers m) = true ∧
    length (workers m) = n ∧
    same_data (self m)
      (parse_pages release_links
         (page_body get_html (show_id st)
          <$> seq (episodes_page_number st) n) st) ∧
    episodes_page_number (self m) = (episodes_page_number st + n)%nat ∧
    threads (self m)
    = threads st ++ (thread_name <$> seq (episodes_page_number st) n).
Proof.
  intros Hflag Hav HA Hpages Hdone.
  destruct (taking_turns_from get_html release_links n st [] A)
    as (ts & m & H); try done.
  by exists ts, m.
Qed.

Lemma taking_turns_witness :
  ∃ ts m,
    run twice_web twice_soup ts
      (parse_all_in_parallel twice_web (fresh (PStr "4") (Some {[PInt 1]})))
    = Some m ∧
    coord m = CReturned ∧
    forallb worker_finished (workers m) = true ∧
    length (workers m) = 2%nat ∧
    episodes (self m) = [Episode (PStr "01") "1080p" "magnet:?xt=e1"].
Proof.
  destruct (taking_turns twice_web twice_soup
              (fresh (PStr "4") (Some {[PInt 1]})) 2
              (list_to_set (PInt <$> [1])))
    as (ts & m & Hrun & Hret & Hfin & Hlen & (Heps & _) & _).
  - reflexivity.
  - reflexivity.
  - apply only_ints_list.
  - intros i Hi.
    assert (i = 0%nat ∨ i = 1%nat) as [-> | ->] by lia;
      split; vm_compute; discriminate.
  - reflexivity.
  - exists ts, m. by repeat split.
Defined.
